(** * treediff: semantic edit scripts between two versions of a source file

    A shallow embedding of [treediff.py] and the properties of its
    specification.

    - A Python integer is a [Z], or a [nat] where the value is an unsigned
      field, a length or an index produced by [enumerate]; a byte string is
      a list of 8-bit [Z]; a text is a [string] whose characters are the
      code points below 256.
    - An exception is a [Raise] result; a function that mutates the mapping
      or draws random numbers takes the mapping and the state of the
      generator and returns them.
    - [id(node)] is the field [nid] of the node, and a reference to a node
      is its identity.  A set of identities is a [gset nat]; iterating a set
      follows [elements], an order fixed by the contents of the set, and no
      general statement below depends on which order that is.  A dictionary
      that is iterated is an association list in insertion order.
    - The distance matrix holds whole numbers (the program keeps them in
      32-bit floats, which are exact up to 2^24), the threshold is a
      rational.
    - The libraries the program calls (farmhash, numpy.random, difflib,
      lapjv) are the fields of the class [Externals]; [Reference.externals]
      is an executable instance used to run the program on examples. *)

From Stdlib Require Import ZArith QArith String Ascii Lia.
From stdpp Require Import gmap list sorting.

#[local] Set Warnings "-clear-no-such-hyp".

Local Open Scope Z_scope.

(** ** Exceptions and results *)

(** [OutOfFuel] is not a Python exception: it marks the bound of a loop of
    the model, and [Line2Nodes_total] shows that it is never returned. *)
Inductive exn : Type :=
| IndexError
| ValueError
| AssertionError
| NameError
| KeyError
| OutOfFuel.

Inductive res (A : Type) : Type :=
| Ok (a : A)
| Raise (e : exn).
Arguments Ok {A} a.
Arguments Raise {A} e.

Global Instance res_ret : MRet res := fun A a => Ok a.
Global Instance res_bind : MBind res := fun A B f m =>
  match m with
  | Ok a => f a
  | Raise e => Raise e
  end.
Global Instance res_fmap : FMap res := fun A B f m =>
  match m with
  | Ok a => Ok (f a)
  | Raise e => Raise e
  end.

Global Instance exn_eq_dec : EqDecision exn.
Proof. solve_decision. Defined.

Definition is_ok {A} (r : res A) : Prop :=
  match r with Ok _ => True | Raise _ => False end.

(** [for x in l: acc = f(acc, x)] where the body may raise. *)
Fixpoint foldM {A B} (f : A -> B -> res A) (l : list B) (acc : A) : res A :=
  match l with
  | [] => Ok acc
  | x :: l' => acc' ← f acc x; foldM f l' acc'
  end.

(** ** Python sequences *)

(** [l[i]] on a list: a negative index counts from the end, an index out of
    range raises IndexError. *)
Definition getitem {A} (l : list A) (i : Z) : res A :=
  let n := Z.of_nat (length l) in
  let j := if i <? 0 then i + n else i in
  if (0 <=? j) && (j <? n)
  then match l !! Z.to_nat j with
       | Some x => Ok x
       | None => Raise IndexError
       end
  else Raise IndexError.

(** [range(a, b)]. *)
Definition py_range (a b : Z) : list Z :=
  (fun k => a + Z.of_nat k) <$> seq 0 (Z.to_nat (b - a)).

(** [enumerate(l)]. *)
Definition enumerate {A} (l : list A) : list (nat * A) :=
  zip (seq 0 (length l)) l.

(** A byte is an integer in [0, 256). *)
Abbreviation bytes := (list Z).

(** ** Nodes

    The attributes of [Node] the program reads.  [nid] is [id(node)], the
    identity of the object; a reference to a node is held as its identity. *)
#[local] Unset Elimination Schemes.
Inductive Node : Type :=
| mkNode (nid : nat) (token : bytes) (roles : list Z)
         (start_line end_line : nat) (children : list Node).
#[local] Set Elimination Schemes.

Definition nid (n : Node) : nat :=
  match n with mkNode i _ _ _ _ _ => i end.
Definition token (n : Node) : bytes :=
  match n with mkNode _ t _ _ _ _ => t end.
Definition roles (n : Node) : list Z :=
  match n with mkNode _ _ r _ _ _ => r end.
Definition start_line (n : Node) : nat :=
  match n with mkNode _ _ _ s _ _ => s end.
Definition end_line (n : Node) : nat :=
  match n with mkNode _ _ _ _ e _ => e end.
Definition children (n : Node) : list Node :=
  match n with mkNode _ _ _ _ _ c => c end.

(** Every node of a tree, the root first. *)
Fixpoint nodes (n : Node) : list Node :=
  match n with
  | mkNode _ _ _ _ _ cs => n :: concat (map nodes cs)
  end.

Definition forest_nodes (q : list Node) : list Node := concat (map nodes q).

(** ** Line2Nodes *)

(** [for line in range(first, last + 1): lines[line - 1].append(node)],
    on the list [ls] of the lines still to do. *)
Fixpoint append_node (node : Node) (ls : list nat) (lines : list (list Node))
  : res (list (list Node)) :=
  match ls with
  | [] => Ok lines
  | line :: ls' =>
      match lines !! (line - 1)%nat with
      | Some cell => append_node node ls' (<[(line - 1)%nat := cell ++ [node]]> lines)
      | None => Raise IndexError
      end
  end.

(** The lines a node is entered on:
    [range(start_position.line, end_position.line + 1)]. *)
Definition node_lines (node : Node) : list nat :=
  seq (start_line node) (end_line node + 1 - start_line node).

(** One iteration of the body of [while queue], after [queue.pop()]. *)
Definition Line2Nodes_visit (node : Node) (lines : list (list Node))
  : res (list (list Node)) :=
  if (0 <? start_line node)%nat
  then append_node node (node_lines node) lines
  else Ok lines.

(** [while queue: node = queue.pop(); ...; queue.extend(node.children)].
    The queue is a Python list used as a stack: its last element is popped. *)
Fixpoint Line2Nodes_loop (fuel : nat) (queue : list Node) (lines : list (list Node))
  : res (list (list Node)) :=
  match rev queue with
  | [] => Ok lines
  | node :: rest =>
      match fuel with
      | O => Raise OutOfFuel
      | S fuel' =>
          lines' ← Line2Nodes_visit node lines;
          Line2Nodes_loop fuel' (rev rest ++ children node) lines'
      end
  end.

(** [Line2Nodes.__init__(nlines, root)]; the value is [self._lines]. *)
Definition Line2Nodes (nlines : nat) (root : Node) : res (list (list Node)) :=
  Line2Nodes_loop (length (nodes root)) [root] (replicate nlines []).

(** The identities of the nodes entered on one line:
    [set(id(n) for n in self._lines[l])]. *)
Definition ids (cell : list Node) : gset nat := list_to_set (nid <$> cell).

(** [Line2Nodes.__getitem__(line)] for an integer [line]. *)
Definition Line2Nodes_getitem (lines : list (list Node)) (line : Z)
  : res (list Node) :=
  getitem lines line.

(** [Line2Nodes.__getitem__((start, end))]: the nodes of the open interval. *)
Definition Line2Nodes_getitem_tuple (lines : list (list Node)) (start end_ : Z)
  : res (gset nat) :=
  first ← getitem lines start;
  nodes0 ← (if 0 <? start
            then prev ← getitem lines (start - 1); Ok (ids first ∖ ids prev)
            else Ok (ids first));
  nodes1 ← foldM (fun acc l => cell ← getitem lines l; Ok (acc ∪ ids cell))
                 (py_range (start + 1) end_) nodes0;
  if end_ <? Z.of_nat (length lines)
  then last ← getitem lines end_; Ok (nodes1 ∖ ids last)
  else Ok nodes1.

(** ** adjust_seqdiff *)

(** [s[n:]] on a string. *)
Fixpoint str_drop (n : nat) (s : string) : string :=
  match n, s with
  | O, _ => s
  | S _, EmptyString => EmptyString
  | S n', String _ s' => str_drop n' s'
  end.

(** An element of [intervals]:
    [(interval_add, interval_rm, start_before, end_before, start_after,
    end_after)]. *)
Record raw_interval : Type := mk_raw {
  raw_add : list string;
  raw_rm : list string;
  raw_start_before : Z;
  raw_end_before : Z;
  raw_start_after : Z;
  raw_end_after : Z;
}.

(** An element of the adjusted diff:
    [(start_before, end_before, start_after, end_after)]. *)
Definition interval : Type := Z * Z * Z * Z.

(** [i[2:]] on a raw interval. *)
Definition raw_tail (i : raw_interval) : interval :=
  (raw_start_before i, raw_end_before i, raw_start_after i, raw_end_after i).

(** The variables of the first loop of [adjust_seqdiff]. *)
Record scan : Type := mk_scan {
  line_before : Z;
  line_after : Z;
  intervals : list raw_interval;
  interval_add : list string;
  interval_rm : list string;
  interval_start_before : Z;
  interval_start_after : Z;
}.

Definition scan_init : scan :=
  {| line_before := 0; line_after := 0; intervals := [];
     interval_add := []; interval_rm := [];
     interval_start_before := -1; interval_start_after := -1 |}.

(** Python truth value of a list. *)
Definition nonempty {A} (l : list A) : bool :=
  match l with [] => false | _ => true end.

(** The body of [for i, line in enumerate(seqdiff)]. *)
Definition scan_step (st : scan) (line : string) : res scan :=
  match line with
  | EmptyString => Raise IndexError
  | String c _ =>
      if Ascii.eqb c "+" then
        Ok {| line_before := line_before st;
              line_after := line_after st + 1;
              intervals := intervals st;
              interval_add := interval_add st ++ [line];
              interval_rm := interval_rm st;
              interval_start_before := interval_start_before st;
              interval_start_after :=
                if (length (interval_add st) =? 0)%nat then line_after st
                else interval_start_after st |}
      else if Ascii.eqb c "-" then
        Ok {| line_before := line_before st + 1;
              line_after := line_after st;
              intervals := intervals st;
              interval_add := interval_add st;
              interval_rm := interval_rm st ++ [line];
              interval_start_before :=
                if (length (interval_rm st) =? 0)%nat then line_before st
                else interval_start_before st;
              interval_start_after := interval_start_after st |}
      else if nonempty (interval_add st) || nonempty (interval_rm st) then
        Ok {| line_before := line_before st + 1;
              line_after := line_after st + 1;
              intervals := intervals st ++
                [ {| raw_add := interval_add st;
                     raw_rm := interval_rm st;
                     raw_start_before :=
                       if -1 <? interval_start_before st
                       then interval_start_before st else line_before st;
                     raw_end_before := line_before st;
                     raw_start_after :=
                       if -1 <? interval_start_after st
                       then interval_start_after st else line_after st;
                     raw_end_after := line_after st |} ];
              interval_add := [];
              interval_rm := [];
              interval_start_before := interval_start_before st;
              interval_start_after := interval_start_after st |}
      else
        Ok {| line_before := line_before st + 1;
              line_after := line_after st + 1;
              intervals := intervals st;
              interval_add := interval_add st;
              interval_rm := interval_rm st;
              interval_start_before := interval_start_before st;
              interval_start_after := interval_start_after st |}
  end.

(** The raw intervals: the value of [intervals] after the first loop. *)
Definition scan_seqdiff (seqdiff : list string) : res (list raw_interval) :=
  intervals <$> foldM scan_step seqdiff scan_init.

(** [while neighbors < len(interval_add) and
           src_after[end_after + neighbors] == interval_add[neighbors][2:]:
        neighbors += 1],
    on [adds], the entries of [interval_add] from index [neighbors] on. *)
Fixpoint count_neighbors (src_after : list string) (end_after : Z)
    (adds : list string) (neighbors : Z) : res Z :=
  match adds with
  | [] => Ok neighbors
  | add :: adds' =>
      line ← getitem src_after (end_after + neighbors);
      if String.eqb line (str_drop 2 add)
      then count_neighbors src_after end_after adds' (neighbors + 1)
      else Ok neighbors
  end.

(** [ls = set(); for l in range(a, b): ls.update(map(id, line2nodes[l]))]. *)
Definition nodes_on_lines (line2nodes : list (list Node)) (a b : Z)
  : res (gset nat) :=
  foldM (fun ls l => cell ← Line2Nodes_getitem line2nodes l; Ok (ls ∪ ids cell))
        (py_range a b) ∅.

(** [len(l) in (0, 1)]. *)
Definition at_most_one {A} (l : list A) : bool := (length l <=? 1)%nat.

(** The body of [for i in intervals]: the intervals it appends to
    [adjusted_diff]. *)
Definition adjust_interval (src_after : list string)
    (line2nodes : list (list Node)) (i : raw_interval) : res (list interval) :=
  if at_most_one (raw_add i) && at_most_one (raw_rm i) then Ok [raw_tail i]
  else
    neighbors ← count_neighbors src_after (raw_end_after i) (raw_add i) 0;
    if neighbors =? 0 then Ok [raw_tail i]
    else
      ls1 ← nodes_on_lines line2nodes (raw_start_after i) (raw_end_after i);
      ls2 ← nodes_on_lines line2nodes (raw_start_after i + neighbors)
                           (raw_end_after i + neighbors);
      if (size ls1 =? size ls2)%nat then Ok [raw_tail i]
      else
        Ok ((if 0 <? raw_end_before i - raw_start_before i
             then [(raw_start_before i, raw_end_before i,
                    raw_start_after i, raw_start_after i)]
             else [])
            ++ [(raw_end_before i + neighbors, raw_end_before i + neighbors,
                 raw_start_after i + neighbors, raw_end_after i + neighbors)]).

Definition adjust_seqdiff (seqdiff : list string) (src_after : list string)
    (line2nodes : list (list Node)) : res (list interval) :=
  intervals ← scan_seqdiff seqdiff;
  foldM (fun adjusted_diff i =>
           out ← adjust_interval src_after line2nodes i;
           Ok (adjusted_diff ++ out))
        intervals [].

(** *** The specification's reading of the diff walk *)

(** An entry of the diff is changed when its marker is [+] or [-]. *)
Definition is_changed (line : string) : bool :=
  match line with
  | String c _ => Ascii.eqb c "+" || Ascii.eqb c "-"
  | EmptyString => false
  end.

(** The number of maximal runs of consecutive changed entries; [in_run]
    tells whether the entry before the list was a changed one. *)
Fixpoint count_runs (in_run : bool) (seqdiff : list string) : nat :=
  match seqdiff with
  | [] => 0
  | line :: rest =>
      if is_changed line
      then (if in_run then 0 else 1) + count_runs true rest
      else count_runs false rest
  end.

(** The test of step 4 as the specification words it: the cardinalities of
    the node sets of the two windows, taken with the open-interval
    operator. *)
Definition shift_is_vacuous_spec (line2nodes : list (list Node))
    (start_after end_after neighbors : Z) : res bool :=
  ls1 ← Line2Nodes_getitem_tuple line2nodes start_after end_after;
  ls2 ← Line2Nodes_getitem_tuple line2nodes (start_after + neighbors)
                                 (end_after + neighbors);
  Ok (size ls1 =? size ls2)%nat.

(** ** The libraries the program calls *)

Class Externals : Type := {
  (** [farmhash.hash128withseed(data, seed1, seed2)]; the two results are
      reduced to unsigned 64-bit integers by [hash128withseed] below. *)
  farmhash128 : bytes -> Z -> Z -> Z * Z;
  (** The state of the global generator of [numpy.random]. *)
  rng : Type;
  (** The state [numpy.random.seed(seed)] leaves. *)
  np_seed : Z -> rng;
  (** [numpy.random.permutation(n)]: a permutation of [range(n)] and the
      state after the draw. *)
  np_permutation : rng -> nat -> list nat * rng;
  np_permutation_perm : forall g n, (np_permutation g n).1 ≡ₚ seq 0 n;
  (** [list(Differ().compare(a, b))]. *)
  differ_compare : list string -> list string -> list string;
  (** The first result of [lapjv.lapjv(dists)], [row_ind]. *)
  lapjv : list (list Z) -> list nat;
}.

(** ** hash_node *)

Definition HASH_SIZE : Z := 16.

Definition hash128withseed `{Externals} (data : bytes) (seed1 seed2 : Z) : Z * Z :=
  ((farmhash128 data seed1 seed2).1 `mod` 2 ^ 64,
   (farmhash128 data seed1 seed2).2 `mod` 2 ^ 64).

(** [x.to_bytes(8, "little")] for an unsigned 64-bit [x]. *)
Definition to_bytes8 (x : Z) : bytes :=
  (fun i => Z.land (Z.shiftr x (8 * Z.of_nat i)) 255) <$> seq 0 8.

(** [for i in range(count): seed |= roles[i + offset] << (i << 3)]. *)
Definition pack_roles (roles : list Z) (offset count : nat) : Z :=
  foldl (fun seed i =>
           Z.lor seed (Z.shiftl (roles !!! (i + offset)%nat)
                                (Z.shiftl (Z.of_nat i) 3)))
        0 (seq 0 count).

(** The inner function [hash_self] of [hash_node]: a weight and 16 bytes. *)
Definition hash_self `{Externals} (node : Node) (white_list : gset nat)
  : Z * bytes :=
  if (start_line node =? 0)%nat || negb (bool_decide (nid node ∈ white_list))
  then (0, [])
  else
    let roles := roles node in
    let seed1 := pack_roles roles 0 (min 4 (length roles)) in
    let seed2 := if (4 <? length roles)%nat
                 then pack_roles roles 4 (min 4 (length roles - 4))
                 else 0 in
    let h := hash128withseed (token node) seed1 seed2 in
    (1, to_bytes8 h.1 ++ to_bytes8 h.2).

(** A dictionary in insertion order; [dict_set d k v] is [d[k] = v]. *)
Definition dict : Type := list (nat * bytes).

Fixpoint dict_set (d : dict) (k : nat) (v : bytes) : dict :=
  match d with
  | [] => [(k, v)]
  | (k', v') :: d' =>
      if (k' =? k)%nat then (k, v) :: d' else (k', v') :: dict_set d' k v
  end.

(** [numpy.random.seed(seed)]: the seed must be an unsigned 32-bit integer. *)
Definition np_random_seed `{Externals} (seed : Z) : res rng :=
  if (0 <=? seed) && (seed <? 2 ^ 32) then Ok (np_seed seed)
  else Raise ValueError.

(** [numpy.random.choice(a, size, replace=False)]: the first [size]
    elements of a permutation of [a]; a sample larger than the population
    raises ValueError.  (Taking no element of an empty population is
    accepted here, as in current numpy; no statement below meets that
    case.) *)
Definition np_random_choice `{Externals} {A} (g : rng) (a : list A) (size : Z)
  : res (list A * rng) :=
  if (size <? 0) || (Z.of_nat (length a) <? size) then Raise ValueError
  else
    let p := np_permutation g (length a) in
    Ok (omap (fun i => a !! i) (take (Z.to_nat size) p.1), p.2).

(** [sum(l)]. *)
Definition sum (l : list Z) : Z := foldl Z.add 0 l.

(** [weights == 0]: a list is never equal to an integer. *)
Definition list_eq_int (l : list Z) (n : Z) : bool := false.

(** The order of [ss2.sort(reverse=True)] on pairs [(s, i)]. *)
Definition pair_ge (x y : Z * nat) : Prop :=
  y.1 < x.1 \/ (x.1 = y.1 /\ (y.2 <= x.2)%nat).

Global Instance pair_ge_dec x y : Decision (pair_ge x y).
Proof. unfold pair_ge. apply _. Defined.

(** One pass of [for s, i in ss2] in the balance loop, with its [break];
    the value is [(sample_sizes, delta, possible)]. *)
Fixpoint balance_pass (ss2 : list (Z * nat)) (fix_ : Z)
    (sample_sizes : list Z) (delta : Z) (possible : bool)
  : list Z * Z * bool :=
  match ss2 with
  | [] => (sample_sizes, delta, possible)
  | (_, i) :: ss2' =>
      if (sample_sizes !!! i <? 2) && (fix_ <? 0)
      then balance_pass ss2' fix_ sample_sizes delta possible
      else
        let sample_sizes' := <[i := sample_sizes !!! i + fix_]> sample_sizes in
        let delta' := delta - fix_ in
        if delta' =? 0 then (sample_sizes', delta', true)
        else balance_pass ss2' fix_ sample_sizes' delta' true
  end.

(** [while delta != 0 and possible]; every pass that leaves [possible] set
    brings [delta] closer to zero, so [|delta|] passes are enough
    ([balance_loop_exit]). *)
Fixpoint balance_loop (fuel : nat) (ss2 : list (Z * nat)) (fix_ : Z)
    (sample_sizes : list Z) (delta : Z) (possible : bool)
  : list Z * Z * bool :=
  if negb (delta =? 0) && possible then
    match fuel with
    | O => (sample_sizes, delta, possible)
    | S fuel' =>
        let '(sample_sizes', delta', possible') :=
          balance_pass ss2 fix_ sample_sizes delta false in
        balance_loop fuel' ss2 fix_ sample_sizes' delta' possible'
    end
  else (sample_sizes, delta, possible).

(** The [else] branch of [if possible]: 15 children drawn at random and the
    node itself get one sample each. *)
Definition emergency_sizes `{Externals} (seed : Z) (sample_sizes : list Z)
  : res (list Z * rng) :=
  let indices := seq 0 (length sample_sizes - 1) in
  g ← np_random_seed seed;
  '(choice, g') ← np_random_choice g indices 15;
  let zeroed := replicate (length sample_sizes) 0 in
  let chosen := foldl (fun sizes i => <[i := 1]> sizes) zeroed choice in
  match chosen with
  | [] => Raise IndexError
  | _ => Ok (<[(length chosen - 1)%nat := 1]> chosen, g')
  end.

(** The body of [if delta != 0]. *)
Definition balance `{Externals} (seed : Z) (sample_sizes : list Z) (delta : Z)
    (g : rng) : res (list Z * rng) :=
  let ss2 := merge_sort pair_ge (zip sample_sizes (seq 0 (length sample_sizes))) in
  let fix_ := if 0 <? delta then 1 else -1 in
  let '(sample_sizes', _, possible) :=
    balance_loop (Z.abs_nat delta) ss2 fix_ sample_sizes delta true in
  if possible then
    if forallb (fun s => 0 <? s) sample_sizes' then Ok (sample_sizes', g)
    else Raise AssertionError
  else emergency_sizes seed sample_sizes'.

(** [for h, s in zip(inner_hashes, sample_sizes)]: the list [choices]. *)
Fixpoint sample_entries `{Externals} (seed : Z)
    (entries : list ((Z * bytes) * Z)) (g : rng) : res (list bytes * rng) :=
  match entries with
  | [] => Ok ([], g)
  | (h, s) :: entries' =>
      if h.1 =? 0 then sample_entries seed entries' g
      else
        g1 ← np_random_seed seed;
        '(choice, g2) ← np_random_choice g1 (merge_sort Z.le h.2) s;
        '(choices, g3) ← sample_entries seed entries' g2;
        Ok (choice :: choices, g3)
  end.

(** [numpy.hstack(choices).tobytes()]: an empty list of arrays raises
    ValueError. *)
Definition hstack (choices : list bytes) : res bytes :=
  match choices with
  | [] => Raise ValueError
  | _ => Ok (concat choices)
  end.

(** [hash_node] from [if id(node) not in white_list] on, for a node with
    children; [inner_hashes] holds the results for the children and for the
    node itself.  In [(w * HASH_SIZE) // total] the divisor is positive
    whenever there is a weight, since [weights] keeps positive weights
    only. *)
Definition hash_inner `{Externals} (node : Node) (seed : Z) (mapping : dict)
    (white_list : gset nat) (inner_hashes : list (Z * bytes)) (g : rng)
  : res ((Z * bytes) * dict * rng) :=
  if negb (bool_decide (nid node ∈ white_list)) then Ok ((0, []), mapping, g)
  else
    let weights := filter (fun w => 0 < w) (fst <$> inner_hashes) in
    let total := sum weights in
    if list_eq_int weights 0 then Ok ((0, []), mapping, g)
    else
      let sample_sizes :=
        (fun w => Z.max 1 ((w * HASH_SIZE) `div` total)) <$> weights in
      let delta := HASH_SIZE - sum sample_sizes in
      '(sample_sizes', g1) ← (if delta =? 0 then Ok (sample_sizes, g)
                              else balance seed sample_sizes delta g);
      '(choices, g2) ← sample_entries seed (zip inner_hashes sample_sizes') g1;
      choices' ← hstack choices;
      Ok ((total, choices'), dict_set mapping (nid node) choices', g2).

(** [[f(c) for c in children]] for an [f] that updates the mapping and the
    generator. *)
Fixpoint map_children `{Externals} {A}
    (f : Node -> dict -> rng -> res (A * dict * rng))
    (cs : list Node) (mapping : dict) (g : rng) : res (list A * dict * rng) :=
  match cs with
  | [] => Ok ([], mapping, g)
  | c :: cs' =>
      '(h, mapping1, g1) ← f c mapping g;
      '(hs, mapping2, g2) ← map_children f cs' mapping1 g1;
      Ok (h :: hs, mapping2, g2)
  end.

(** [hash_node(node, seed, mapping, white_list)]: the returned pair, the
    mapping after the call and the state of the generator after it. *)
Fixpoint hash_node `{Externals} (node : Node) (seed : Z) (mapping : dict)
    (white_list : gset nat) (g : rng) {struct node}
  : res ((Z * bytes) * dict * rng) :=
  match node with
  | mkNode _ _ _ _ _ [] =>
      let h := hash_self node white_list in
      Ok (h, if 0 <? h.1 then dict_set mapping (nid node) h.2 else mapping, g)
  | mkNode _ _ _ _ _ children =>
      '(child_hashes, mapping1, g1) ←
        map_children (fun c mapping g => hash_node c seed mapping white_list g)
                     children mapping g;
      hash_inner node seed mapping1 white_list
                 (child_hashes ++ [hash_self node white_list]) g1
  end.

(** [[hash_node(c, seed, mapping, white_list) for c in children]]. *)
Definition hash_children `{Externals} (cs : list Node) (seed : Z) (mapping : dict)
    (white_list : gset nat) (g : rng)
  : res (list (Z * bytes) * dict * rng) :=
  map_children (fun c mapping g => hash_node c seed mapping white_list g)
               cs mapping g.

(** ** treediff *)

(** [str.splitlines(True)] on a text whose code points are below 256: a line
    ends after a line feed, a carriage return (with the line feed that
    follows it, if any), or one of the other line boundaries. *)
Definition is_line_boundary (c : ascii) : bool :=
  let n := nat_of_ascii c in
  ((10 <=? n) && (n <=? 13) || (28 <=? n) && (n <=? 30) || (n =? 133))%nat.

Fixpoint splitlines_from (line : string) (s : string) : list string :=
  match s with
  | EmptyString =>
      match line with EmptyString => [] | _ => [line] end
  | String c s' =>
      let line' := String.append line (String c EmptyString) in
      if (nat_of_ascii c =? 13)%nat then
        match s' with
        | String c' s'' =>
            if (nat_of_ascii c' =? 10)%nat
            then String.append line' (String c' EmptyString)
                 :: splitlines_from EmptyString s''
            else line' :: splitlines_from EmptyString s'
        | EmptyString => [line']
        end
      else if is_line_boundary c then line' :: splitlines_from EmptyString s'
      else splitlines_from line' s'
  end.

Definition splitlines (s : string) : list string :=
  splitlines_from EmptyString s.

(** The inner function [filter_changed] of [treediff]. *)
Definition filter_changed (lines : list (Z * Z)) (line2node : list (list Node))
  : res (gset nat) :=
  foldM (fun preserved lr =>
           found ← Line2Nodes_getitem_tuple line2node lr.1 lr.2;
           Ok (preserved ∪ found))
        lines ∅.

(** The first part of [treediff], up to the two white lists. *)
Definition white_lists `{Externals} (src1 : string) (uast1 : Node)
    (src2 : string) (uast2 : Node) : res (gset nat * gset nat) :=
  let src1 := splitlines src1 in
  let src2 := splitlines src2 in
  line2nodes_before ← Line2Nodes (length src1) uast1;
  line2nodes_after ← Line2Nodes (length src2) uast2;
  let seqdiff := differ_compare src1 src2 in
  adjusted_diff ← adjust_seqdiff seqdiff src2 line2nodes_after;
  let lines_before := (fun i : interval => (i.1.1.1, i.1.1.2)) <$> adjusted_diff in
  let lines_after := (fun i : interval => (i.1.2, i.2)) <$> adjusted_diff in
  white_list1 ← filter_changed lines_before line2nodes_before;
  white_list2 ← filter_changed lines_after line2nodes_after;
  Ok (white_list1, white_list2).

(** An operation of the edit script; a node is referred to by its
    identity. *)
Inductive op : Type :=
| Add (node : nat)
| Delete (node : nat)
| Modify (before after : nat).

Global Instance op_eq_dec : EqDecision op.
Proof. solve_decision. Defined.

(** [dereference_idptr(value)]: the object whose identity is [value]. *)
Definition dereference_idptr (value : nat) : nat := value.

(** The distance matrix, a list of rows.  The source keeps it in a [numpy]
    array of [float32]; every value it writes there is a whole number, and the
    model holds the whole number.  A [float32] holds every whole number of
    magnitude up to [2^24] exactly, so the sums of the model are the sums of
    the source as long as the values stay in that range ([float32_exact]);
    beyond it the source rounds and the model does not. *)
Definition matrix : Type := list (list Z).

(** A whole number that a [float32] holds exactly whatever its low bits
    are. *)
Definition float32_exact (z : Z) : Prop := - 2 ^ 24 <= z <= 2 ^ 24.

(** [dists] as the first round sets it up. *)
Definition init_dists (n1 n2 : nat) (nseeds : Z) : matrix :=
  (fun i =>
     (fun j =>
        if (i <? n1)%nat && (n1 <=? j)%nat || (n1 <=? i)%nat && (j <? n1)%nat
        then HASH_SIZE * nseeds
        else 2 * HASH_SIZE * nseeds) <$> seq 0 (n1 + n2)) <$> seq 0 (n1 + n2).

(** [dists[i, j]]. *)
Definition matrix_get (dists : matrix) (i j : nat) : res Z :=
  match dists !! i with
  | Some row => match row !! j with
                | Some d => Ok d
                | None => Raise IndexError
                end
  | None => Raise IndexError
  end.

(** [target += candidates] on a slice: the operand must have the length of
    the slice, or length one. *)
Definition broadcast_add (target candidates : list Z) : res (list Z) :=
  if (length candidates =? length target)%nat
  then Ok (zip_with Z.add target candidates)
  else match candidates with
       | [c] => Ok ((fun t => t + c) <$> target)
       | _ => Raise ValueError
       end.

(** [dists[i, n1:] += candidates]. *)
Definition add_to_row (dists : matrix) (i n1 : nat) (candidates : list Z)
  : res matrix :=
  match dists !! i with
  | Some row =>
      tail ← broadcast_add (drop n1 row) candidates;
      Ok (<[i := take n1 row ++ tail]> dists)
  | None => Raise IndexError
  end.

(** [dists[n1:, i] += candidates]; the column index is checked on the rows
    of the slice. *)
Definition add_to_column (dists : matrix) (i n1 : nat) (candidates : list Z)
  : res matrix :=
  column ← mapM (fun row : list Z =>
                   match row !! i with
                   | Some d => Ok d
                   | None => Raise IndexError
                   end) (drop n1 dists);
  column' ← broadcast_add column candidates;
  Ok (take n1 dists ++ zip_with (fun row d => <[i := d]> row) (drop n1 dists) column').

(** [for b in set(h): byte_matches[b].append(i)]. *)
Definition add_byte_matches (byte_matches : list (list nat)) (i : nat) (h : bytes)
  : list (list nat) :=
  foldl (fun bm b => alter (fun js => js ++ [i]) (Z.to_nat b) bm)
        byte_matches (remove_dups h).

(** [candidates = [0] * len(map2);
     for b in h: for j in byte_matches[b]: candidates[j] -= 1]. *)
Definition candidates_of (byte_matches : list (list nat)) (n2 : nat) (h : bytes)
  : list Z :=
  foldl (fun candidates b =>
           foldl (fun candidates j => alter (fun c => c - 1) j candidates)
                 candidates (byte_matches !!! Z.to_nat b))
        (replicate n2 0) h.

(** [supermap[k] += h] on a [defaultdict(bytes)]. *)
Definition supermap_add (supermap : gmap nat bytes) (k : nat) (h : bytes)
  : gmap nat bytes :=
  <[k := supermap !!! k ++ h]> supermap.

(** The variables that live across the hash rounds. *)
Record rounds : Type := mk_rounds {
  dists : option matrix;
  supermap1 : gmap nat bytes;
  supermap2 : gmap nat bytes;
  last_maps : option (dict * dict);
}.

Definition rounds_init : rounds :=
  {| dists := None; supermap1 := ∅; supermap2 := ∅; last_maps := None |}.

(** The part of a round after the two calls of [hash_node]. *)
Definition accumulate (nseeds : Z) (st : rounds) (map1 map2 : dict) : res rounds :=
  let dists0 := match dists st with
                | Some d => d
                | None => init_dists (length map1) (length map2) nseeds
                end in
  let after :=
    foldl (fun '(supermap2, byte_matches) '(i, (k, h)) =>
             (supermap_add supermap2 k h, add_byte_matches byte_matches i h))
          (supermap2 st, replicate 256 []) (enumerate map2) in
  '(supermap1', dists') ←
    foldM (fun '(supermap1, dists) '(i, (k, h)) =>
             let candidates := candidates_of after.2 (length map2) h in
             dists1 ← add_to_row dists i (length map1) candidates;
             dists2 ← add_to_column dists1 i (length map1) candidates;
             Ok (supermap_add supermap1 k h, dists2))
          (enumerate map1) (supermap1 st, dists0);
  Ok {| dists := Some dists'; supermap1 := supermap1'; supermap2 := after.1;
        last_maps := Some (map1, map2) |}.

(** The body of [for seed in range(nseeds)]. *)
Definition hash_round `{Externals} (uast1 uast2 : Node)
    (white_list1 white_list2 : gset nat) (nseeds : Z)
    (st : rounds * rng) (seed : Z) : res (rounds * rng) :=
  '(_, map1, g1) ← hash_node uast1 seed [] white_list1 st.2;
  '(_, map2, g2) ← hash_node uast2 seed [] white_list2 g1;
  st' ← accumulate nseeds st.1 map1 map2;
  Ok (st', g2).

(** [for seed in range(nseeds)]. *)
Definition hash_rounds `{Externals} (uast1 uast2 : Node)
    (white_list1 white_list2 : gset nat) (nseeds : Z) (g : rng)
  : res (rounds * rng) :=
  foldM (hash_round uast1 uast2 white_list1 white_list2 nseeds)
        (py_range 0 nseeds) (rounds_init, g).

(** [threshold = HASH_SIZE / 2]. *)
Definition threshold : Q := 16 # 2.

(** [dists[i, j] > threshold * nseeds]. *)
Definition exceeds (threshold : Q) (nseeds : Z) (d : Z) : bool :=
  negb (Qle_bool (inject_Z d) (threshold * inject_Z nseeds)).

(** [[x for x in l if test(x)]] where the test may raise. *)
Fixpoint filterM {A} (test : A -> res bool) (l : list A) : res (list A) :=
  match l with
  | [] => Ok []
  | x :: l' =>
      keep ← test x;
      rest ← filterM test l';
      Ok (if keep : bool then x :: rest else rest)
  end.

(** The pairs [enumerate(row_ind[:len(map1)])]. *)
Definition assignment (n1 : nat) (row_ind : list nat) : list (nat * nat) :=
  enumerate (take n1 row_ind).

(** [j < len(map1) or dists[i, j] > threshold * nseeds]. *)
Definition deleted_test (threshold : Q) (nseeds : Z) (dists : matrix)
    (n1 : nat) (p : nat * nat) : res bool :=
  if (p.2 <? n1)%nat then Ok true
  else d ← matrix_get dists p.1 p.2; Ok (exceeds threshold nseeds d).

(** The set [deleted]. *)
Definition deleted_set (threshold : Q) (nseeds : Z) (dists : matrix)
    (n1 : nat) (row_ind : list nat) : res (gset (nat * nat)) :=
  list_to_set <$>
    filterM (deleted_test threshold nseeds dists n1) (assignment n1 row_ind).

(** The set [exact]. *)
Definition exact_set (supermap1 supermap2 : gmap nat bytes)
    (seq1 seq2 : list nat) (row_ind : list nat) : res (gset (nat * nat)) :=
  let n1 := length seq1 in
  list_to_set <$>
    filterM (fun '(i, j) =>
               if (n1 <=? j)%nat then
                 k1 ← getitem seq1 (Z.of_nat i);
                 k2 ← getitem seq2 (Z.of_nat j - Z.of_nat n1);
                 Ok (bool_decide (supermap1 !!! k1 = supermap2 !!! k2 :> bytes))
               else Ok false)
            (assignment n1 row_ind).

(** The set of pairs the script reports as [modify]. *)
Definition modify_set (n1 : nat) (row_ind : list nat)
    (deleted exact : gset (nat * nat)) : gset (nat * nat) :=
  list_to_set (assignment n1 row_ind) ∖ deleted ∖ exact.

(** The set [added]. *)
Definition added_set (n1 : nat) (row_ind : list nat)
    (deleted : gset (nat * nat)) : gset nat :=
  let mapped2 : gset nat :=
    set_map snd (list_to_set (assignment n1 row_ind) ∖ deleted : gset (nat * nat)) in
  list_to_set (seq n1 (length row_ind - n1)) ∖ mapped2.

(** [treediff] from [threshold = HASH_SIZE / 2] on. *)
Definition compile_script (threshold : Q) (nseeds : Z) (dists : matrix)
    (row_ind : list nat) (supermap1 supermap2 : gmap nat bytes)
    (seq1 seq2 : list nat) : res (list op) :=
  let n1 := length seq1 in
  deleted ← deleted_set threshold nseeds dists n1 row_ind;
  exact ← exact_set supermap1 supermap2 seq1 seq2 row_ind;
  let added := added_set n1 row_ind deleted in
  deletes ← mapM (fun '(i, _) =>
                    k ← getitem seq1 (Z.of_nat i);
                    Ok (Delete (dereference_idptr k)))
                 (elements deleted);
  adds ← mapM (fun j =>
                 k ← getitem seq2 (Z.of_nat j - Z.of_nat n1);
                 Ok (Add (dereference_idptr k)))
              (elements added);
  modifies ← mapM (fun '(i, j) =>
                     k1 ← getitem seq1 (Z.of_nat i);
                     k2 ← getitem seq2 (Z.of_nat j - Z.of_nat n1);
                     Ok (Modify (dereference_idptr k1) (dereference_idptr k2)))
                  (elements (modify_set n1 row_ind deleted exact));
  Ok (deletes ++ adds ++ modifies).

(** [treediff] after the white lists, when both hold a node. *)
Definition match_nodes `{Externals} (uast1 uast2 : Node)
    (white_list1 white_list2 : gset nat) (nseeds : Z) (g : rng)
  : res (list op * rng) :=
  '(st, g') ← hash_rounds uast1 uast2 white_list1 white_list2 nseeds g;
  match last_maps st, dists st with
  | Some (map1, map2), Some dists =>
      let seq1 := fst <$> map1 in
      let seq2 := fst <$> map2 in
      let row_ind := lapjv dists in
      diff ← compile_script threshold nseeds dists row_ind
                            (supermap1 st) (supermap2 st) seq1 seq2;
      Ok (diff, g')
  | _, _ => Raise NameError
  end.

(** [treediff(src1, uast1, src2, uast2, nseeds)]: the script and the state
    of the generator after the call. *)
Definition treediff `{Externals} (src1 : string) (uast1 : Node)
    (src2 : string) (uast2 : Node) (nseeds : Z) (g : rng)
  : res (list op * rng) :=
  '(white_list1, white_list2) ← white_lists src1 uast1 src2 uast2;
  if (size white_list1 =? 0)%nat then
    Ok ((fun k => Add (dereference_idptr k)) <$> elements white_list2, g)
  else if (size white_list2 =? 0)%nat then
    Ok ((fun k => Delete (dereference_idptr k)) <$> elements white_list1, g)
  else match_nodes uast1 uast2 white_list1 white_list2 nseeds g.

(** The order in which the loop of [Line2Nodes] pops the nodes of a tree:
    a node, then its subtrees from the last child to the first. *)
Fixpoint pop_order (n : Node) : list Node :=
  match n with
  | mkNode _ _ _ _ _ cs => n :: concat (rev (map pop_order cs))
  end.

(** A node fits a source of [nlines] lines when the lines it is entered on
    exist. *)
Definition fits (nlines : nat) (node : Node) : Prop :=
  (0 < start_line node -> start_line node <= end_line node ->
   end_line node <= nlines)%nat.

(** Whether the diff ends inside a run of changed entries. *)
Definition ends_in_run (seqdiff : list string) : bool :=
  match last seqdiff with
  | Some line => is_changed line
  | None => false
  end.

(** Whether the walk is inside a run of changed entries. *)
Definition in_run (st : scan) : bool :=
  nonempty (interval_add st) || nonempty (interval_rm st).

(** The numbers of operations of each kind in a script. *)
Definition is_delete (o : op) : bool :=
  match o with Delete _ => true | _ => false end.
Definition is_add (o : op) : bool :=
  match o with Add _ => true | _ => false end.
Definition is_modify (o : op) : bool :=
  match o with Modify _ _ => true | _ => false end.
Definition count_deletes (script : list op) : nat :=
  length (List.filter is_delete script).
Definition count_adds (script : list op) : nat :=
  length (List.filter is_add script).
Definition count_modifies (script : list op) : nat :=
  length (List.filter is_modify script).

(** Two runs agree when they return the same value or raise the same
    exception, whatever state they leave the generator in. *)
Definition same_result `{Externals} {A} (r1 r2 : res (A * rng)) : Prop :=
  fst <$> r1 = fst <$> r2.

(** [fix_] points from [delta] towards zero. *)
Definition toward (fix_ delta : Z) : Prop :=
  (fix_ = 1 /\ 0 < delta) \/ (fix_ = -1 /\ delta < 0).

(** A node gets an own sketch when it has a position and is in the white
    list. *)
Definition sketched (white_list : gset nat) (node : Node) : Prop :=
  start_line node <> 0%nat /\ nid node ∈ white_list.

(** Every fingerprint of the mapping has [HASH_SIZE] bytes. *)
Definition full_fingerprints (mapping : dict) : Prop :=
  Forall (fun kv : nat * bytes => length kv.2 = 16%nat) mapping.

(** The entry [dists[i, j]] of a matrix that has it. *)
Definition entry (d : matrix) (i j : nat) : Z := (d !!! i) !!! j.

(** A matrix of [m] rows and [m] columns. *)
Definition square (m : nat) (d : matrix) : Prop :=
  length d = m /\ Forall (fun row => length row = m) d.

(** The number of bytes of [h], each counted as often as it occurs, whose
    value occurs in [h']. *)
Definition common (h h' : bytes) : Z :=
  Z.of_nat (length (filter (fun b => b ∈ h') h)).

(** The values of a [bytes] object. *)
Definition is_bytes (h : bytes) : Prop := Forall (fun b => 0 <= b < 256) h.

(** What holds of the variables of the hash rounds after [k] rounds on the
    call example: the two calls are the last entries of their mappings
    (indices 2 and 3 + 2 of the matrix), every round takes 6 from their
    distance and appends the same 6 bytes to both supersketches. *)
Definition call_invariant (nseeds : Z) (k : nat) (st : rounds) : Prop :=
  let d := match dists st with
           | Some d => d
           | None => init_dists 3 3 nseeds
           end in
  square 6 d
  /\ entry d 2 5 = HASH_SIZE * nseeds - 6 * Z.of_nat k
  /\ supermap1 st !!! 1%nat = supermap2 st !!! 11%nat
  /\ length (supermap1 st !!! 1%nat) = (6 * k)%nat
  /\ ((0 < k)%nat ->
      is_Some (dists st)
      /\ (fun maps : dict * dict => (maps.1.*1, maps.2.*1)) <$> last_maps st
         = Some ([4; 5; 1]%nat, [14; 15; 11]%nat)).

(** ** Reference externals

    Executable stand-ins for the libraries: a mixing hash, a generator whose
    permutation depends on its state, a line differ that keeps the common
    prefix and suffix, and an exact assignment solver by enumeration. *)

Module Reference.

Definition hash (data : bytes) (seed1 seed2 : Z) : Z * Z :=
  let x := foldl (fun acc b => acc * 257 + b + 1) (seed1 * 31 + seed2 + 7) data in
  (x * 11400714819323198485, (x + 1) * 14029467366897019727).

Definition permutation (g : Z) (n : nat) : list nat * Z :=
  (if Z.even g then seq 0 n else reverse (seq 0 n), g + 1).

Fixpoint common_prefix (a b : list string) : nat :=
  match a, b with
  | x :: a', y :: b' => if String.eqb x y then S (common_prefix a' b') else 0
  | _, _ => 0
  end.

Definition mark (marker : string) (l : list string) : list string :=
  String.append marker <$> l.

Definition differ (a b : list string) : list string :=
  let p := common_prefix a b in
  let a1 := drop p a in
  let b1 := drop p b in
  let s := common_prefix (reverse a1) (reverse b1) in
  mark "  " (take p a)
  ++ mark "- " (take (length a1 - s) a1)
  ++ mark "+ " (take (length b1 - s) b1)
  ++ mark "  " (drop (length a1 - s) a1).

Definition assignment_cost (d : matrix) (row_ind : list nat) : Z :=
  foldl Z.add 0 ((fun p : nat * nat => (d !!! p.1) !!! p.2) <$> enumerate row_ind).

Definition solve (d : matrix) : list nat :=
  foldl (fun best p =>
           if assignment_cost d p <? assignment_cost d best then p else best)
        (seq 0 (length d)) (permutations (seq 0 (length d))).

Definition externals : Externals.
Proof.
  refine {| farmhash128 := hash; rng := Z; np_seed := fun seed => seed;
            np_permutation := permutation;
            differ_compare := differ; lapjv := solve |}.
  intros g n. unfold permutation. simpl.
  destruct (Z.even g); [done|]. apply reverse_Permutation.
Defined.

End Reference.

(** ** Example inputs *)

Module Examples.

(** A line appended at the end of a file: [difflib] reports the old line as
    unchanged and the new line as added, and nothing follows. *)
Definition appended_seqdiff : list string := ["  a"; "+ b"]%string.
Definition appended_src_after : list string := ["a"; "b"]%string.

(** Two lines [x], [y] put before a line [x]; the tree of the new version has
    a statement on line 1, one on line 2 and one on lines 3 to 4 under a
    root without position. *)
Definition repeated_seqdiff : list string := ["+ x"; "+ y"; "  x"; "  z"]%string.
Definition repeated_src_after : list string := ["x"; "y"; "x"; "z"]%string.
Definition repeated_raw : raw_interval :=
  {| raw_add := ["+ x"; "+ y"]%string; raw_rm := [];
     raw_start_before := 0; raw_end_before := 0;
     raw_start_after := 0; raw_end_after := 2 |}.
Definition repeated_tree : Node :=
  mkNode 0 [] [] 0 0
    [mkNode 1 [] [] 1 1 []; mkNode 2 [] [] 2 2 []; mkNode 3 [] [] 3 4 []].
Definition repeated_lines : list (list Node) :=
  [[mkNode 1 [] [] 1 1 []]; [mkNode 2 [] [] 2 2 []];
   [mkNode 3 [] [] 3 4 []]; [mkNode 3 [] [] 3 4 []]].

(** One node on each side, assigned to each other at distance 10, one
    round. *)
Definition pair_dists : matrix := [[32; 10]; [10; 32]].
Definition pair_row_ind : list nat := [1%nat; 0%nat].
Definition pair_supermap1 : gmap nat bytes := {[1%nat := [1]]}.
Definition pair_supermap2 : gmap nat bytes := {[2%nat := [2]]}.

(** A call over three lines whose last two lines change: the arguments on
    the first line stay out of the white list, the arguments on the changed
    lines and the call itself are in it. *)
Definition call_before : Node :=
  mkNode 1 [] [1] 1 3
    [mkNode 2 [102] [2] 1 1 []; mkNode 3 [97] [2] 1 1 [];
     mkNode 4 [98] [2] 2 2 []; mkNode 5 [99] [2] 3 3 []].
Definition call_after : Node :=
  mkNode 11 [] [1] 1 3
    [mkNode 12 [102] [2] 1 1 []; mkNode 13 [97] [2] 1 1 [];
     mkNode 14 [98] [2] 2 2 []; mkNode 15 [100; 101; 108; 116; 97] [2] 3 3 []].
Definition call_white_list1 : gset nat := {[1%nat; 4%nat; 5%nat]}.
Definition call_white_list2 : gset nat := {[11%nat; 14%nat; 15%nat]}.

Definition newline : string := String "010"%char EmptyString.
Definition text (lines : list string) : string :=
  foldr (fun l s => String.append l (String.append newline s)) EmptyString lines.
Definition call_src_before : string :=
  text ["f(a,"; "  b,"; "  c)"; "end"]%string.
Definition call_src_after : string :=
  text ["f(a,"; "  b,  # second argument"; "  delta)"; "end"]%string.

(** The same call as the only child of a statement over the same lines. *)
Definition statement_before : Node := mkNode 6 [] [3] 1 3 [call_before].
Definition statement_white_list : gset nat := {[1%nat; 4%nat; 5%nat; 6%nat]}.

(** A line [b] put between two lines: the new version has a statement on
    each of its three lines, the old one on each of its two lines. *)
Definition insert_src_before : string := text ["a"; "c"]%string.
Definition insert_src_after : string := text ["a"; "b"; "c"]%string.
Definition insert_before : Node :=
  mkNode 1 [] [] 0 0 [mkNode 2 [97] [] 1 1 []; mkNode 3 [99] [] 2 2 []].
Definition insert_after : Node :=
  mkNode 11 [] [] 0 0
    [mkNode 12 [97] [] 1 1 []; mkNode 13 [98] [] 2 2 []; mkNode 14 [99] [] 3 3 []].

(** A statement over three lines with one child on its first line; the
    last two lines change. *)
Definition lonely_parent : Node :=
  mkNode 1 [] [] 1 3 [mkNode 2 [] [] 1 1 []].
Definition lonely_parent_after : Node :=
  mkNode 11 [] [] 1 3 [mkNode 12 [] [] 1 1 []].
Definition lonely_src_before : string :=
  text ["g(a"; "  +"; "  1)"; "end"]%string.
Definition lonely_src_after : string :=
  text ["g(a"; "  - x *"; "  20)"; "end"]%string.

(** Two lines [b], [c] put between two lines; the new version has a
    statement on each of its four lines.  [moved_after] is the same tree with
    the statements of [b] and [c] at each other's address. *)
Definition moved_src_before : string := text ["a"; "z"]%string.
Definition moved_src_after : string := text ["a"; "b"; "c"; "z"]%string.
Definition moved_before : Node :=
  mkNode 1 [] [] 0 0 [mkNode 2 [97] [] 1 1 []; mkNode 3 [122] [] 2 2 []].
Definition added_after : Node :=
  mkNode 11 [] [] 0 0
    [mkNode 12 [97] [] 1 1 []; mkNode 13 [98] [] 2 2 [];
     mkNode 14 [99] [] 3 3 []; mkNode 15 [122] [] 4 4 []].
Definition moved_after : Node :=
  mkNode 11 [] [] 0 0
    [mkNode 12 [97] [] 1 1 []; mkNode 14 [98] [] 2 2 [];
     mkNode 13 [99] [] 3 3 []; mkNode 15 [122] [] 4 4 []].

End Examples.

(** ** Line2Nodes: the nodes of a line *)

(** A node is entered on the line of index [l] (line [l + 1] of the source)
    when it has a position and its line range holds that line. *)
Definition covers (l : nat) (node : Node) : Prop :=
  (0 < start_line node /\ start_line node <= l + 1 <= end_line node)%nat.

Global Instance covers_dec l node : Decision (covers l node).
Proof. unfold covers. apply _. Defined.

(** ** adjust_seqdiff: the ranges of an interval *)

(** The line ranges of a raw interval hold the lines of its run: they start
    at a line of the file and are at least as long as the run has lines of
    that side, and exactly as long when the run has a line of that side. *)
Definition raw_wellformed (i : raw_interval) : Prop :=
  0 <= raw_start_before i <= raw_end_before i - Z.of_nat (length (raw_rm i))
  /\ 0 <= raw_start_after i <= raw_end_after i - Z.of_nat (length (raw_add i))
  /\ (raw_rm i <> [] ->
      raw_end_before i - raw_start_before i = Z.of_nat (length (raw_rm i)))
  /\ (raw_add i <> [] ->
      raw_end_after i - raw_start_after i = Z.of_nat (length (raw_add i)))
  /\ (raw_add i <> [] \/ raw_rm i <> []).

(** The same of the variables of the walk. *)
Definition scan_wellformed (st : scan) : Prop :=
  0 <= line_before st /\ 0 <= line_after st
  /\ -1 <= interval_start_before st
        <= line_before st - Z.of_nat (length (interval_rm st))
  /\ -1 <= interval_start_after st
        <= line_after st - Z.of_nat (length (interval_add st))
  /\ (interval_rm st <> [] ->
      0 <= interval_start_before st
      /\ line_before st - interval_start_before st
         = Z.of_nat (length (interval_rm st)))
  /\ (interval_add st <> [] ->
      0 <= interval_start_after st
      /\ line_after st - interval_start_after st
         = Z.of_nat (length (interval_add st)))
  /\ Forall raw_wellformed (intervals st).

(** An interval of the adjusted diff has two ranges of lines of the files. *)
Definition interval_ordered (i : interval) : Prop :=
  0 <= i.1.1.1 <= i.1.1.2 /\ 0 <= i.1.2 <= i.2.

(** ** hash_node: the nodes with a fingerprint *)

(** The nodes that [hash_node] gives a fingerprint: the nodes of the white
    list, but for the leaves that have no position. *)
Definition recorded (white_list : gset nat) (node : Node) : Prop :=
  nid node ∈ white_list /\ (children node = [] -> start_line node <> 0%nat).

(** ** map_parents *)

(** [map_parents(node, parents)]: the dictionary [parents] after the call. *)
Fixpoint map_parents (node : Node) (parents : gmap nat nat) {struct node}
  : gmap nat nat :=
  match node with
  | mkNode i _ _ _ _ children =>
      foldl (fun parents child => map_parents child (<[nid child := i]> parents))
            parents children
  end.

(** The identities of the nodes of a list of trees. *)
Definition forest_ids (q : list Node) : gset nat :=
  list_to_set (nid <$> forest_nodes q).

(** ** write_diff *)

(** [format_position(pos)]: the dictionary with the keys [line], [col] and
    [offset]. *)
Record position : Type := mk_position {
  pos_line : nat;
  pos_col : nat;
  pos_offset : nat;
}.

(** An element of [script]: [(action, start, end)] for an added or deleted
    node, [(action, {"before": [start, end], "after": [start, end]})]
    otherwise. *)
Inductive script_entry : Type :=
| Single (action : string) (start end_ : position)
| Pair (action : string) (before after : position * position).

(** An element of [diff]: the action and the nodes that follow it in the
    tuple. *)
Definition change : Type := string * list Node.

Section WriteDiff.

(** The columns and offsets of the two positions of a node, which no other
    function reads; the number of the role [FILE] in the descriptor and the
    numbers that are keys of [Role.values_by_number].  The descriptor is taken
    as loaded and as having the role [FILE]. *)
Variables start_col start_offset end_col end_offset : Node -> nat.
Variable file_role : Z.
Variable role_numbers : gset Z.

Definition start_position (node : Node) : position :=
  {| pos_line := start_line node; pos_col := start_col node;
     pos_offset := start_offset node |}.

Definition end_position (node : Node) : position :=
  {| pos_line := end_line node; pos_col := end_col node;
     pos_offset := end_offset node |}.

(** [", ".join(Role.values_by_number[n].name for n in node.roles)], for
    whether it raises: the lookup of a number that is no key raises
    KeyError. *)
Definition role_names (node : Node) : res unit :=
  if bool_decide (Forall (fun n => n ∈ role_numbers) (roles node))
  then Ok tt else Raise KeyError.

(** The body of [for change in diff]: the entry appended to [script], if
    any.  [action, node = change[:2]] needs a node after the action, and
    [change[2]] a second one.  The arguments of [log.warning] are evaluated
    before the call, so the names of the roles of a node without position are
    looked up. *)
Definition write_change (c : change) : res (option script_entry) :=
  match c.2 with
  | [] => Raise ValueError
  | node :: rest =>
      if bool_decide (file_role ∈ roles node) then Ok None
      else if (start_line node =? 0)%nat then
        _ ← role_names node;
        Ok None
      else if String.eqb c.1 "add" || String.eqb c.1 "delete"
      then Ok (Some (Single c.1 (start_position node) (end_position node)))
      else match rest with
           | after :: _ =>
               Ok (Some (Pair c.1 (start_position node, end_position node)
                              (start_position after, end_position after)))
           | [] => Raise IndexError
           end
  end.

(** [write_diff(src_before, src_after, diff, output)]: the object that is
    written to [output] as JSON, by its keys [src_before], [src_after] and
    [script]. *)
Definition write_diff (src_before src_after : string) (diff : list change)
  : res (string * string * list script_entry) :=
  script ← foldM (fun script c =>
                    e ← write_change c;
                    Ok (script ++ option_list e))
                 diff [];
  Ok (src_before, src_after, script).

(** A change as [treediff] returns it: an added or deleted node, or a
    modified node with its new version. *)
Definition treediff_change (c : change) : Prop :=
  match c with
  | (action, [_]) => action = "add"%string \/ action = "delete"%string
  | (action, [_; _]) => action = "modify"%string
  | _ => False
  end.

(** The changes that get an entry: those whose first node does not carry the
    role [FILE] and has a start line. *)
Definition written (c : change) : Prop :=
  match c.2 with
  | node :: _ => (file_role ∉ roles node) /\ start_line node <> 0%nat
  | [] => False
  end.

Global Instance written_dec c : Decision (written c).
Proof. unfold written. destruct c.2; apply _. Defined.

(** The changes that are skipped with a warning, whose roles are looked up
    in the descriptor: those whose first node does not carry the role [FILE]
    and has no start line. *)
Definition warned (c : change) : Prop :=
  match c.2 with
  | node :: _ => (file_role ∉ roles node) /\ start_line node = 0%nat
  | [] => False
  end.

Global Instance warned_dec c : Decision (warned c).
Proof. unfold warned. destruct c.2; apply _. Defined.

(** Every role of the first node of the change is a number of the
    descriptor. *)
Definition roles_known (c : change) : Prop :=
  match c.2 with
  | node :: _ => Forall (fun n => n ∈ role_numbers) (roles node)
  | [] => True
  end.

Global Instance roles_known_dec c : Decision (roles_known c).
Proof. unfold roles_known. destruct c.2; apply _. Defined.

(** The entry of a change of [treediff]. *)
Definition entry_of (c : change) : option script_entry :=
  match c with
  | (action, [node]) =>
      Some (Single action (start_position node) (end_position node))
  | (action, [node; after]) =>
      Some (Pair action (start_position node, end_position node)
                 (start_position after, end_position after))
  | _ => None
  end.

End WriteDiff.

(** ** treediff: the nodes of a script *)

(** The nodes of an operation are taken from the lists [seq1] (before) and
    [seq2] (after). *)
Definition op_within (seq1 seq2 : list nat) (o : op) : Prop :=
  match o with
  | Add k => k ∈ seq2
  | Delete k => k ∈ seq1
  | Modify k1 k2 => k1 ∈ seq1 /\ k2 ∈ seq2
  end.

(** The nodes of an operation are in the white list of their side. *)
Definition op_in_white_lists (white_list1 white_list2 : gset nat) (o : op) : Prop :=
  match o with
  | Add k => k ∈ white_list2
  | Delete k => k ∈ white_list1
  | Modify k1 k2 => k1 ∈ white_list1 /\ k2 ∈ white_list2
  end.

(** The mappings of the last round hold nodes of the white lists only. *)
Definition maps_in_white_lists (white_list1 white_list2 : gset nat) (st : rounds)
  : Prop :=
  forall map1 map2,
    last_maps st = Some (map1, map2) ->
    (forall k, k ∈ map1.*1 -> k ∈ white_list1)
    /\ (forall k, k ∈ map2.*1 -> k ∈ white_list2).

(** ** treediff: the nodes that an operation reports *)

(** The node of the old version that an operation reports, the node that it
    reports as added, and the node of the new version that it reports as the
    new state of a modified node. *)
Definition op_before (o : op) : list nat :=
  match o with
  | Delete k | Modify k _ => [k]
  | Add _ => []
  end.

Definition op_added (o : op) : list nat :=
  match o with
  | Add k => [k]
  | Delete _ | Modify _ _ => []
  end.

Definition op_modified_to (o : op) : list nat :=
  match o with
  | Modify _ k => [k]
  | Add _ | Delete _ => []
  end.

(** ** Identities and contents

    [id(node)] is the address of the object.  The caller of [treediff] does
    not choose it: a second invocation on the same sources and trees finds
    the same nodes at other addresses. *)

(** Two trees are the same input when they differ in the identities of
    their nodes only. *)
Fixpoint same_tree (a b : Node) {struct a} : bool :=
  match a, b with
  | mkNode _ t r s e cs, mkNode _ t' r' s' e' cs' =>
      bool_decide (t = t') && bool_decide (r = r')
      && (s =? s')%nat && (e =? e')%nat
      && (fix same_trees (l l' : list Node) {struct l} : bool :=
            match l, l' with
            | [], [] => true
            | c :: l, c' :: l' => same_tree c c' && same_trees l l'
            | _, _ => false
            end) cs cs'
  end.

(** The node of a tree that has a given identity. *)
Definition node_at (uast : Node) (k : nat) : option Node :=
  head (filter (fun n => nid n = k) (nodes uast)).

(** What a node holds apart from its identity and its children. *)
Definition node_view (n : Node) : bytes * list Z * nat * nat :=
  (token n, roles n, start_line n, end_line n).

(** An operation as its reader sees it: the action and what its nodes
    hold. *)
Definition op_view (uast1 uast2 : Node) (o : op)
  : string * list (option (bytes * list Z * nat * nat)) :=
  match o with
  | Add k => ("add"%string, [node_view <$> node_at uast2 k])
  | Delete k => ("delete"%string, [node_view <$> node_at uast1 k])
  | Modify k1 k2 =>
      ("modify"%string,
       [node_view <$> node_at uast1 k1; node_view <$> node_at uast2 k2])
  end.

(* ================================================================== *)
(** * Properties *)

(** ** Trees *)

Lemma classic_fits nlines node : fits nlines node \/ ~ fits nlines node.
Proof. unfold fits. lia. Qed.

Lemma Forall_dec_fits nlines (l : list Node) :
  Forall (fits nlines) l \/ ~ Forall (fits nlines) l.
Proof.
  induction l as [|n l [IH|IH]].
  - left. constructor.
  - destruct (classic_fits nlines n) as [Hn|Hn].
    + left. by constructor.
    + right. intros H. by apply Forall_cons in H as [? ?].
  - right. intros H. by apply Forall_cons in H as [? ?].
Qed.


Lemma Node_ind (P : Node -> Prop) :
  (forall i t r s e cs, Forall P cs -> P (mkNode i t r s e cs)) ->
  forall n, P n.
Proof.
  intros step. fix IH 1. intros [i t r s e cs]. apply step.
  induction cs as [|c cs IHcs]; constructor; [apply IH | exact IHcs].
Qed.

Lemma nodes_nonempty n : (0 < length (nodes n))%nat.
Proof. destruct n; simpl; lia. Qed.

Lemma forest_nodes_app q1 q2 :
  forest_nodes (q1 ++ q2) = forest_nodes q1 ++ forest_nodes q2.
Proof. unfold forest_nodes. by rewrite map_app, concat_app. Qed.

Lemma forest_nodes_rev_length q :
  length (forest_nodes (rev q)) = length (forest_nodes q).
Proof.
  induction q as [|n q IH]; [done|].
  simpl rev. rewrite forest_nodes_app, length_app, IH.
  unfold forest_nodes. simpl. rewrite app_nil_r, length_app. lia.
Qed.

Lemma pop_order_In n x : In x (pop_order n) <-> In x (nodes n).
Proof.
  revert x. induction n as [i t r s e cs IH] using Node_ind. intros x.
  simpl. apply or_iff_compat_l.
  rewrite <- map_rev, !in_concat. rewrite Forall_forall in IH. split.
  - intros (l & Hl & Hx). apply in_map_iff in Hl as (c & <- & Hc).
    apply in_rev in Hc. exists (nodes c). split; [by apply in_map|].
    apply IH; [by apply list_elem_of_In|done].
  - intros (l & Hl & Hx). apply in_map_iff in Hl as (c & <- & Hc).
    exists (pop_order c). split; [apply in_map; by apply in_rev in Hc|].
    apply IH; [by apply list_elem_of_In|done].
Qed.

Lemma pop_order_Forall (P : Node -> Prop) n :
  Forall P (pop_order n) <-> Forall P (nodes n).
Proof.
  rewrite !List.Forall_forall. split; intros H x Hx; apply H; by apply pop_order_In.
Qed.

(** ** Line2Nodes *)

Lemma append_node_ok node ls lines :
  Forall (fun l => (l - 1 < length lines)%nat) ls ->
  exists lines', append_node node ls lines = Ok lines'
                 /\ length lines' = length lines.
Proof.
  revert lines. induction ls as [|l ls IH]; intros lines Hls; simpl.
  - by exists lines.
  - apply Forall_cons in Hls as [Hl Hls].
    destruct (lookup_lt_is_Some_2 lines (l - 1)%nat Hl) as [cell ->].
    destruct (IH (<[(l - 1)%nat := cell ++ [node]]> lines)) as (lines' & -> & Hlen).
    + by rewrite length_insert.
    + exists lines'. by rewrite Hlen, length_insert.
Qed.

Lemma append_node_err node ls lines :
  Exists (fun l => (length lines <= l - 1)%nat) ls ->
  append_node node ls lines = Raise IndexError.
Proof.
  revert lines. induction ls as [|l ls IH]; intros lines Hls; simpl.
  - by apply Exists_nil in Hls.
  - destruct (lines !! (l - 1)%nat) as [cell|] eqn:Hcell; [|done].
    apply IH. apply Exists_cons in Hls as [Hl|Hls].
    + apply lookup_lt_Some in Hcell. lia.
    + by rewrite length_insert.
Qed.

Lemma Line2Nodes_visit_ok node lines :
  fits (length lines) node ->
  exists lines', Line2Nodes_visit node lines = Ok lines'
                 /\ length lines' = length lines.
Proof.
  unfold Line2Nodes_visit, fits, node_lines. intros Hfit.
  destruct (0 <? start_line node)%nat eqn:Hpos; [|by exists lines].
  apply Nat.ltb_lt in Hpos. apply append_node_ok.
  apply Forall_forall. intros l Hl. apply elem_of_seq in Hl. lia.
Qed.

Lemma Line2Nodes_visit_err node lines :
  ~ fits (length lines) node ->
  Line2Nodes_visit node lines = Raise IndexError.
Proof.
  unfold Line2Nodes_visit, fits, node_lines. intros Hfit.
  destruct (0 <? start_line node)%nat eqn:Hpos.
  - apply Nat.ltb_lt in Hpos. apply append_node_err.
    apply Exists_exists. exists (end_line node). split; [|lia].
    apply elem_of_seq. lia.
  - apply Nat.ltb_ge in Hpos. lia.
Qed.

(** Visiting a list of nodes in order succeeds when all of them fit, and
    stops with IndexError at the first one that does not. *)
Lemma visit_all_ok order lines :
  Forall (fits (length lines)) order ->
  exists lines', foldM (fun acc n => Line2Nodes_visit n acc) order lines = Ok lines'
                 /\ length lines' = length lines.
Proof.
  revert lines. induction order as [|n order IH]; intros lines Hall; simpl.
  - by exists lines.
  - apply Forall_cons in Hall as [Hn Hall].
    destruct (Line2Nodes_visit_ok n lines Hn) as (lines1 & -> & Hlen1). simpl.
    destruct (IH lines1) as (lines' & -> & Hlen); [by rewrite Hlen1|].
    exists lines'. by rewrite Hlen.
Qed.

Lemma visit_all_err order lines :
  ~ Forall (fits (length lines)) order ->
  foldM (fun acc n => Line2Nodes_visit n acc) order lines = Raise IndexError.
Proof.
  revert lines. induction order as [|n order IH]; intros lines Hall; simpl.
  - by destruct Hall.
  - destruct (classic_fits (length lines) n) as [Hn|Hn].
    + destruct (Line2Nodes_visit_ok n lines Hn) as (lines1 & -> & Hlen1). simpl.
      apply IH. rewrite Hlen1. intros Hrest. apply Hall. by constructor.
    + by rewrite Line2Nodes_visit_err.
Qed.

Lemma foldM_app {A B} (f : A -> B -> res A) l1 l2 acc :
  foldM f (l1 ++ l2) acc = acc' ← foldM f l1 acc; foldM f l2 acc'.
Proof.
  revert acc. induction l1 as [|x l1 IH]; intros acc; simpl; [done|].
  destruct (f acc x); simpl; [apply IH|done].
Qed.

(** The loop never runs out of fuel when it is given as many steps as the
    queue holds nodes, and it visits the nodes in [pop_order]. *)
Lemma Line2Nodes_loop_fuel fuel queue lines :
  (length (forest_nodes queue) <= fuel)%nat ->
  Line2Nodes_loop fuel queue lines
  = foldM (fun acc n => Line2Nodes_visit n acc)
          (concat (map pop_order (rev queue))) lines.
Proof.
  revert queue lines. induction fuel as [|fuel IH]; intros queue lines Hfuel.
  - destruct queue as [|n queue]; [done|].
    unfold forest_nodes in Hfuel. simpl in Hfuel. rewrite length_app in Hfuel.
    pose proof (nodes_nonempty n). lia.
  - simpl. destruct (rev queue) as [|node rest] eqn:Hq; [done|].
    rewrite <- forest_nodes_rev_length, Hq in Hfuel.
    destruct node as [i t r s e cs]. cbn [map concat pop_order].
    change (foldM ?f ((?n :: ?l1) ++ ?l2) lines)
      with (acc' ← f lines n; foldM f (l1 ++ l2) acc').
    destruct (Line2Nodes_visit (mkNode i t r s e cs) lines) as [lines'|err];
      simpl; [|done].
    rewrite IH.
    + by rewrite rev_app_distr, rev_involutive, map_app, concat_app, map_rev.
    + rewrite forest_nodes_app, length_app, forest_nodes_rev_length.
      unfold forest_nodes in *. simpl in Hfuel.
      rewrite !length_app in Hfuel. simpl in Hfuel. lia.
Qed.

Lemma Line2Nodes_pop_order nlines root :
  Line2Nodes nlines root
  = foldM (fun acc n => Line2Nodes_visit n acc) (pop_order root)
          (replicate nlines []).
Proof.
  unfold Line2Nodes. rewrite Line2Nodes_loop_fuel.
  - simpl. by rewrite app_nil_r.
  - unfold forest_nodes. simpl. by rewrite app_nil_r.
Qed.

Lemma Line2Nodes_ok nlines root :
  Forall (fits nlines) (nodes root) ->
  exists lines, Line2Nodes nlines root = Ok lines /\ length lines = nlines.
Proof.
  intros Hfit. rewrite Line2Nodes_pop_order.
  destruct (visit_all_ok (pop_order root) (replicate nlines [])) as (lines & H & Hlen).
  - rewrite length_replicate. by apply pop_order_Forall.
  - exists lines. by rewrite Hlen, length_replicate in *.
Qed.

Lemma Line2Nodes_err nlines root :
  ~ Forall (fits nlines) (nodes root) ->
  Line2Nodes nlines root = Raise IndexError.
Proof.
  intros Hfit. rewrite Line2Nodes_pop_order. apply visit_all_err.
  rewrite length_replicate. by rewrite pop_order_Forall.
Qed.

(** Building the line index returns the index or raises IndexError: the
    bound of the model's loop is never met. *)
Lemma Line2Nodes_total nlines root :
  (exists lines, Line2Nodes nlines root = Ok lines)
  \/ Line2Nodes nlines root = Raise IndexError.
Proof.
  destruct (Forall_dec_fits nlines (nodes root)) as [Hfit|Hfit].
  - left. destruct (Line2Nodes_ok _ _ Hfit) as (lines & Hok & _). eauto.
  - right. by apply Line2Nodes_err.
Qed.

(** C10 (as amended): building the line index succeeds exactly when every
    node with a position whose line range is not empty
    ([0 < start_line <= end_line]) ends within the source
    ([end_line <= nlines]); otherwise it raises IndexError, and there is a
    tree with a positioned node ending after the last source line on which
    it does. *)
Theorem Line2Nodes_succeeds_iff :
  (forall nlines root,
      is_ok (Line2Nodes nlines root) <-> Forall (fits nlines) (nodes root))
  /\ (forall nlines root,
         ~ Forall (fits nlines) (nodes root) ->
         Line2Nodes nlines root = Raise IndexError)
  /\ (exists nlines root node,
         In node (nodes root)
         /\ (0 < start_line node)%nat /\ (nlines < end_line node)%nat
         /\ Line2Nodes nlines root = Raise IndexError).
Proof.
  split; [|split].
  - intros nlines root. split.
    + intros Hok. destruct (Forall_dec_fits nlines (nodes root)) as [H|H]; [done|].
      rewrite (Line2Nodes_err _ _ H) in Hok. destruct Hok.
    + intros H. destruct (Line2Nodes_ok _ _ H) as (lines & -> & _). exact I.
  - apply Line2Nodes_err.
  - exists 0%nat, (mkNode 0 [] [] 1 1 []), (mkNode 0 [] [] 1 1 []).
    repeat split; simpl; auto.
Qed.

(** C10 (as stated) fails: a node whose range is empty because it starts
    after it ends is entered on no line, so the index is built although the
    node ends after the last line of the source. *)
Lemma Line2Nodes_precondition_not_necessary :
  ~ (forall nlines root,
        is_ok (Line2Nodes nlines root) ->
        forall node, In node (nodes root) ->
                     (0 < start_line node)%nat -> (end_line node <= nlines)%nat).
Proof.
  intros H.
  assert (1 <= 0)%nat as Hle; [|lia].
  apply (H 0%nat (mkNode 0 [] [] 2 1 []) I (mkNode 0 [] [] 2 1 []));
    simpl; [by left | lia].
Qed.

(** ** adjust_seqdiff *)

Lemma nonempty_snoc {A} (l : list A) x : nonempty (l ++ [x]) = true.
Proof. by destruct l. Qed.

(** One entry of the diff either opens or continues a run, or closes the
    run before it by recording one raw interval. *)
Lemma scan_step_runs st line st' :
  scan_step st line = Ok st' ->
  in_run st' = is_changed line
  /\ (length (intervals st') + (if in_run st' then 1 else 0)
      = length (intervals st) + (if in_run st then 1 else 0)
        + (if is_changed line then (if in_run st then 0 else 1) else 0))%nat.
Proof.
  unfold scan_step, in_run. destruct line as [|c line]; [done|]. simpl.
  destruct (Ascii.eqb c "+") eqn:Hplus; [|destruct (Ascii.eqb c "-") eqn:Hminus].
  - intros [= <-]. simpl. rewrite nonempty_snoc. simpl. split; [done|].
    destruct (nonempty (interval_add st) || nonempty (interval_rm st)); lia.
  - intros [= <-]. simpl. rewrite nonempty_snoc, orb_true_r. split; [done|].
    destruct (nonempty (interval_add st) || nonempty (interval_rm st)); lia.
  - destruct (nonempty (interval_add st) || nonempty (interval_rm st)) eqn:Hrun;
      intros [= <-]; simpl.
    + split; [done|]. rewrite length_app. simpl. lia.
    + rewrite Hrun. split; [done|lia].
Qed.

Lemma scan_runs seqdiff st st' :
  foldM scan_step seqdiff st = Ok st' ->
  (length (intervals st') + (if in_run st' then 1 else 0)
   = length (intervals st) + (if in_run st then 1 else 0)
     + count_runs (in_run st) seqdiff)%nat
  /\ in_run st' = match last seqdiff with
                  | Some line => is_changed line
                  | None => in_run st
                  end.
Proof.
  revert st. induction seqdiff as [|line rest IH]; intros st; simpl.
  - intros [= <-]. split; [lia|done].
  - destruct (scan_step st line) as [st1|] eqn:Hstep; simpl; [|discriminate].
    intros Hrest. destruct (scan_step_runs _ _ _ Hstep) as [Hrun Hlen].
    destruct (IH _ Hrest) as [Hlen' Hlast]. rewrite Hrun in *. split.
    + destruct (is_changed line); lia.
    + rewrite Hlast. destruct rest as [|line' rest]; [done|].
      change (last (line :: line' :: rest)) with (last (line' :: rest)).
      destruct (last (line' :: rest)) eqn:Hl; [done|].
      by apply last_None in Hl.
Qed.

(** The walk records one raw interval for each maximal run of changed
    entries that an unchanged entry follows; a run that ends the diff is
    not recorded. *)
Lemma scan_seqdiff_closed_runs seqdiff ivs :
  scan_seqdiff seqdiff = Ok ivs ->
  (length ivs + (if ends_in_run seqdiff then 1 else 0)
   = count_runs false seqdiff)%nat.
Proof.
  unfold scan_seqdiff, ends_in_run.
  destruct (foldM scan_step seqdiff scan_init) as [st|] eqn:Hscan; [|done].
  intros [= <-]. destruct (scan_runs _ _ _ Hscan) as [Hlen Hlast].
  rewrite Hlast in Hlen. change (in_run scan_init) with false in Hlen.
  simpl in Hlen. destruct (last seqdiff); lia.
Qed.

(** C4 (the code on the failing input): the diff [appended_seqdiff] holds
    one maximal run of changed entries, the added last line, and
    [adjust_seqdiff] forms no raw interval for it and emits nothing. *)
Theorem adjust_seqdiff_drops_trailing_run :
  count_runs false Examples.appended_seqdiff = 1%nat
  /\ scan_seqdiff Examples.appended_seqdiff = Ok []
  /\ forall line2nodes,
       adjust_seqdiff Examples.appended_seqdiff Examples.appended_src_after
                      line2nodes = Ok [].
Proof. repeat split. Qed.

Lemma elem_of_py_range (a b l : Z) : l ∈ py_range a b <-> a <= l < b.
Proof.
  unfold py_range. rewrite list_elem_of_fmap. split.
  - intros (k & -> & Hk). apply elem_of_seq in Hk. lia.
  - intros Hl. exists (Z.to_nat (l - a)). split; [lia|].
    apply elem_of_seq. lia.
Qed.

(** The set that the adjuster compares holds the nodes entered on any line
    of the window, and nothing is taken out of it. *)
Lemma nodes_on_lines_spec line2nodes (a b : Z) (ls : gset nat) :
  nodes_on_lines line2nodes a b = Ok ls ->
  forall k,
    k ∈ ls <-> exists l cell,
                 a <= l < b /\ Line2Nodes_getitem line2nodes l = Ok cell
                 /\ k ∈ ids cell.
Proof.
  unfold nodes_on_lines. intros Hfold k.
  assert (forall (L : list Z) (acc out : gset nat),
             foldM (fun ls l => cell ← Line2Nodes_getitem line2nodes l;
                                Ok (ls ∪ ids cell)) L acc = Ok out ->
             k ∈ out <-> k ∈ acc \/ exists l cell,
                           l ∈ L /\ Line2Nodes_getitem line2nodes l = Ok cell
                           /\ k ∈ ids cell) as Hgen.
  { induction L as [|l L IH]; intros acc out; simpl.
    - intros [= <-]. split; [by left|]. intros [?|(l & cell & Hl & _)]; [done|].
      by apply elem_of_nil in Hl.
    - destruct (Line2Nodes_getitem line2nodes l) as [cell|] eqn:Hcell;
        simpl; [|done].
      intros Hout. rewrite (IH _ _ Hout), elem_of_union. split.
      + intros [[?|?]|(l' & cell' & Hl' & Hget & Hk)]; [by left| |].
        * right. exists l, cell. split; [by left|done].
        * right. exists l', cell'. split; [by right|done].
      + intros [?|(l' & cell' & Hl' & Hget & Hk)]; [by left; left|].
        apply elem_of_cons in Hl' as [->|Hl'].
        * left. right. congruence.
        * right. by exists l', cell'. }
  rewrite (Hgen _ _ _ Hfold). split.
  - intros [Hk|(l & cell & Hl & Hget & Hk)]; [by apply elem_of_empty in Hk|].
    exists l, cell. by rewrite <- elem_of_py_range.
  - intros (l & cell & Hl & Hget & Hk). right.
    exists l, cell. by rewrite elem_of_py_range.
Qed.

Lemma split_not_unchanged (i : raw_interval) (neighbors : Z) (pre : list interval) :
  0 < neighbors ->
  pre ++ [(raw_end_before i + neighbors, raw_end_before i + neighbors,
           raw_start_after i + neighbors, raw_end_after i + neighbors)]
  <> [raw_tail i].
Proof.
  intros Hpos Heq. destruct pre as [|p [|q pre]]; simpl in Heq.
  - unfold raw_tail in Heq. injection Heq as _ _ H _. lia.
  - discriminate.
  - discriminate.
Qed.

(** C5 (as amended): for a raw interval with [neighbors > 0],
    [adjust_seqdiff] emits the interval unchanged exactly when the interval
    has at most one added and at most one removed line, in which case it
    compares nothing, or when the sets of all the nodes entered on the lines
    of [start_after, end_after) and of
    [start_after + neighbors, end_after + neighbors) (plain unions of the
    per-line node lists, nothing removed at the borders) have the same
    cardinality. *)
Theorem adjust_interval_unchanged_iff src_after line2nodes i neighbors ls1 ls2 :
  count_neighbors src_after (raw_end_after i) (raw_add i) 0 = Ok neighbors ->
  0 < neighbors ->
  nodes_on_lines line2nodes (raw_start_after i) (raw_end_after i) = Ok ls1 ->
  nodes_on_lines line2nodes (raw_start_after i + neighbors)
                 (raw_end_after i + neighbors) = Ok ls2 ->
  adjust_interval src_after line2nodes i = Ok [raw_tail i]
  <-> at_most_one (raw_add i) && at_most_one (raw_rm i) = true
      \/ size ls1 = size ls2.
Proof.
  intros Hcount Hpos Hls1 Hls2. unfold adjust_interval.
  destruct (at_most_one (raw_add i) && at_most_one (raw_rm i)) eqn:Hsmall.
  { split; [by left|done]. }
  rewrite Hcount. simpl.
  destruct (neighbors =? 0) eqn:Hzero; [lia|].
  rewrite Hls1, Hls2. simpl.
  destruct (size ls1 =? size ls2)%nat eqn:Hsize.
  - apply Nat.eqb_eq in Hsize. split; [by right|done].
  - apply Nat.eqb_neq in Hsize. split.
    + intros [= Heq]. by apply split_not_unchanged in Heq.
    + intros [?|?]; done.
Qed.

Lemma adjust_interval_unchanged_iff_witness :
  adjust_interval Examples.repeated_src_after Examples.repeated_lines
                  Examples.repeated_raw
  = Ok [raw_tail Examples.repeated_raw]
  <-> at_most_one (raw_add Examples.repeated_raw)
      && at_most_one (raw_rm Examples.repeated_raw) = true
      \/ size ({[1%nat; 2%nat]} : gset nat) = size ({[2%nat; 3%nat]} : gset nat).
Proof.
  apply (adjust_interval_unchanged_iff _ _ _ 1); reflexivity.
Defined.

(** An interval with one added line is emitted unchanged whatever the node
    sets are: here the added line repeats the line that follows it, so
    [neighbors] would be 1, and the two windows hold one and two nodes. *)
Lemma adjust_interval_small_unchanged :
  let raw := {| raw_add := ["+ x"]%string; raw_rm := [];
                raw_start_before := 0; raw_end_before := 0;
                raw_start_after := 0; raw_end_after := 1 |} in
  let line2nodes := [[mkNode 1 [] [] 1 1 []];
                     [mkNode 2 [] [] 2 2 []; mkNode 3 [] [] 2 2 []]] in
  scan_seqdiff ["+ x"; "  x"]%string = Ok [raw]
  /\ count_neighbors ["x"; "x"]%string 1 (raw_add raw) 0 = Ok 1
  /\ nodes_on_lines line2nodes 0 1 = Ok {[1%nat]}
  /\ nodes_on_lines line2nodes 1 2 = Ok {[2%nat; 3%nat]}
  /\ adjust_interval ["x"; "x"]%string line2nodes raw = Ok [raw_tail raw].
Proof.
  cbn zeta. split; [reflexivity|]. split; [reflexivity|].
  split; [by vm_compute|]. split; [by vm_compute|]. reflexivity.
Qed.

(** C5 (as stated) fails: on [repeated_raw] the code emits the interval
    unchanged, although the node sets of the two windows taken with the
    open-interval operator have different cardinalities. *)
Lemma adjust_interval_not_open_interval :
  Line2Nodes 4 Examples.repeated_tree = Ok Examples.repeated_lines
  /\ scan_seqdiff Examples.repeated_seqdiff = Ok [Examples.repeated_raw]
  /\ count_neighbors Examples.repeated_src_after 2
                     (raw_add Examples.repeated_raw) 0 = Ok 1
  /\ adjust_interval Examples.repeated_src_after Examples.repeated_lines
                     Examples.repeated_raw
     = Ok [raw_tail Examples.repeated_raw]
  /\ shift_is_vacuous_spec Examples.repeated_lines 0 2 1 = Ok false.
Proof. repeat split. Qed.

(** ** The script compiler *)

Lemma mapM_res_length {A B} (f : A -> res B) l l' :
  mapM f l = Ok l' -> length l' = length l.
Proof.
  revert l'. induction l as [|x l IH]; intros l'; simpl.
  - by intros [= <-].
  - destruct (f x) as [y|]; simpl; [|done].
    destruct (mapM f l) as [k|]; simpl; [|done].
    intros [= <-]. simpl. by rewrite (IH k).
Qed.

Lemma mapM_res_Forall {A B} (f : A -> res B) (P : B -> Prop) l l' :
  (forall x y, f x = Ok y -> P y) ->
  mapM f l = Ok l' -> Forall P l'.
Proof.
  intros Hf. revert l'. induction l as [|x l IH]; intros l'; simpl.
  - intros [= <-]. constructor.
  - destruct (f x) as [y|] eqn:Hx; simpl; [|done].
    destruct (mapM f l) as [k|]; simpl; [|done].
    intros [= <-]. constructor; [by eapply Hf|by apply IH].
Qed.

Lemma filter_all {A} (p : A -> bool) l :
  Forall (fun x => p x = true) l -> List.filter p l = l.
Proof.
  induction 1 as [|x l Hx _ IH]; simpl; [done|]. by rewrite Hx, IH.
Qed.

Lemma filter_none {A} (p : A -> bool) l :
  Forall (fun x => p x = false) l -> List.filter p l = [].
Proof.
  induction 1 as [|x l Hx _ IH]; simpl; [done|]. by rewrite Hx, IH.
Qed.

(** The script holds one [delete] for each pair of [deleted], one [add] for
    each index of [added] and one [modify] for each remaining pair that is
    not in [exact]. *)
Lemma compile_script_counts thr nseeds d row_ind sm1 sm2 seq1 seq2 script :
  compile_script thr nseeds d row_ind sm1 sm2 seq1 seq2 = Ok script ->
  exists deleted exact,
    deleted_set thr nseeds d (length seq1) row_ind = Ok deleted
    /\ exact_set sm1 sm2 seq1 seq2 row_ind = Ok exact
    /\ count_deletes script = size deleted
    /\ count_adds script = size (added_set (length seq1) row_ind deleted)
    /\ count_modifies script
       = size (modify_set (length seq1) row_ind deleted exact).
Proof.
  unfold compile_script.
  destruct (deleted_set _ _ _ _ _) as [deleted|]; simpl; [|done].
  destruct (exact_set _ _ _ _ _) as [exact|]; simpl; [|done].
  destruct (mapM _ (elements deleted)) as [deletes|] eqn:Hd; simpl; [|done].
  destruct (mapM _ (elements (added_set _ _ _))) as [adds|] eqn:Ha; simpl; [|done].
  destruct (mapM _ (elements (modify_set _ _ _ _))) as [mods|] eqn:Hm; simpl; [|done].
  intros [= <-]. exists deleted, exact. split; [done|]. split; [done|].
  assert (Forall (fun o => exists k, o = Delete k) deletes) as Hdel.
  { eapply mapM_res_Forall; [|exact Hd]. intros [i j] y. simpl.
    destruct (getitem seq1 _); simpl; [|done]. intros [= <-]. eauto. }
  assert (Forall (fun o => exists k, o = Add k) adds) as Hadd.
  { eapply mapM_res_Forall; [|exact Ha]. intros j y. simpl.
    destruct (getitem seq2 _); simpl; [|done]. intros [= <-]. eauto. }
  assert (Forall (fun o => exists k1 k2, o = Modify k1 k2) mods) as Hmod.
  { eapply mapM_res_Forall; [|exact Hm]. intros [i j] y. simpl.
    destruct (getitem seq1 _); simpl; [|done].
    destruct (getitem seq2 _); simpl; [|done]. intros [= <-]. eauto. }
  apply mapM_res_length in Hd, Ha, Hm.
  unfold count_deletes, count_adds, count_modifies.
  rewrite !List.filter_app, !length_app.
  rewrite (filter_all is_delete deletes), (filter_none is_delete adds),
    (filter_none is_delete mods), (filter_none is_add deletes),
    (filter_all is_add adds), (filter_none is_add mods),
    (filter_none is_modify deletes), (filter_none is_modify adds),
    (filter_all is_modify mods);
    try (eapply Forall_impl; [eassumption|]; intros o Ho; simpl in Ho;
         destruct Ho as (? & Ho); try destruct Ho as (? & Ho); by subst o).
  simpl. rewrite Hd, Ha, Hm. unfold size, set_size. simpl. lia.
Qed.

Lemma exceeds_mono thr1 thr2 nseeds d :
  (thr1 <= thr2)%Q -> 0 <= nseeds ->
  exceeds thr2 nseeds d = true -> exceeds thr1 nseeds d = true.
Proof.
  unfold exceeds. intros Hthr Hn H2.
  apply negb_true_iff in H2. apply negb_true_iff.
  destruct (Qle_bool (inject_Z d) (thr1 * inject_Z nseeds)) eqn:H1; [|done].
  apply Qle_bool_iff in H1.
  assert (Qle_bool (inject_Z d) (thr2 * inject_Z nseeds) = true) as H; [|congruence].
  apply Qle_bool_iff. eapply Qle_trans; [exact H1|].
  apply Qmult_le_compat_r; [exact Hthr|].
  change 0%Q with (inject_Z 0). by rewrite <- Zle_Qle.
Qed.

Lemma filterM_subseteq {A} (test1 test2 : A -> res bool) l l1 l2 :
  (forall x b1 b2, test1 x = Ok b1 -> test2 x = Ok b2 -> b2 = true -> b1 = true) ->
  filterM test1 l = Ok l1 -> filterM test2 l = Ok l2 -> l2 ⊆ l1.
Proof.
  intros Htest. revert l1 l2. induction l as [|x l IH]; intros l1 l2; simpl.
  - by intros [= <-] [= <-].
  - destruct (test1 x) as [b1|] eqn:H1; simpl; [|done].
    destruct (filterM test1 l) as [r1|]; simpl; [|done].
    destruct (test2 x) as [b2|] eqn:H2; simpl; [|done].
    destruct (filterM test2 l) as [r2|]; simpl; [|done].
    intros [= <-] [= <-]. specialize (IH r1 r2 eq_refl eq_refl).
    destruct b2.
    + rewrite (Htest x b1 true H1 H2 eq_refl). set_solver.
    + destruct b1; set_solver.
Qed.

(** Raising the threshold can only take pairs out of [deleted]. *)
Lemma deleted_set_mono thr1 thr2 nseeds d n1 row_ind deleted1 deleted2 :
  (thr1 <= thr2)%Q -> 0 <= nseeds ->
  deleted_set thr1 nseeds d n1 row_ind = Ok deleted1 ->
  deleted_set thr2 nseeds d n1 row_ind = Ok deleted2 ->
  deleted2 ⊆ deleted1.
Proof.
  unfold deleted_set. intros Hthr Hn.
  destruct (filterM (deleted_test thr1 _ _ _) _) as [l1|] eqn:H1; simpl; [|done].
  destruct (filterM (deleted_test thr2 _ _ _) _) as [l2|] eqn:H2; simpl; [|done].
  intros [= <-] [= <-].
  assert (l2 ⊆ l1) as Hsub; [|set_solver].
  eapply filterM_subseteq; [|exact H1|exact H2].
  intros [i j] b1 b2. unfold deleted_test. simpl.
  destruct (j <? n1)%nat; [congruence|].
  destruct (matrix_get d i j) as [dij|]; simpl; [|done].
  intros [= <-] [= <-]. by apply exceeds_mono.
Qed.

(** C3 (as amended): with the distance matrix and the assignment held
    fixed, raising the threshold never increases the number of [delete]
    operations and never decreases the number of [modify] operations. *)
Theorem threshold_monotone thr1 thr2 nseeds d row_ind sm1 sm2 seq1 seq2
    script1 script2 :
  (thr1 <= thr2)%Q -> 0 <= nseeds ->
  compile_script thr1 nseeds d row_ind sm1 sm2 seq1 seq2 = Ok script1 ->
  compile_script thr2 nseeds d row_ind sm1 sm2 seq1 seq2 = Ok script2 ->
  (count_deletes script2 <= count_deletes script1)%nat
  /\ (count_modifies script1 <= count_modifies script2)%nat.
Proof.
  intros Hthr Hn H1 H2.
  apply compile_script_counts in H1 as (del1 & ex1 & Hd1 & He1 & -> & _ & ->).
  apply compile_script_counts in H2 as (del2 & ex2 & Hd2 & He2 & -> & _ & ->).
  assert (ex2 = ex1) as -> by congruence.
  pose proof (deleted_set_mono _ _ _ _ _ _ _ _ Hthr Hn Hd1 Hd2) as Hsub.
  split; apply subseteq_size; [done|].
  unfold modify_set. set_solver.
Qed.

Lemma threshold_monotone_witness :
  (count_deletes [Modify 1 2] <= count_deletes [Delete 1; Add 2])%nat
  /\ (count_modifies [Delete 1; Add 2] <= count_modifies [Modify 1 2])%nat.
Proof.
  apply (threshold_monotone threshold (12 # 1) 1 Examples.pair_dists
           Examples.pair_row_ind Examples.pair_supermap1 Examples.pair_supermap2
           [1%nat] [2%nat]).
  - vm_compute. discriminate.
  - lia.
  - reflexivity.
  - reflexivity.
Defined.

(** C3 (as stated) fails: on one pair at distance 10, raising the threshold
    from 8 to 12 turns the script [delete, add] into [modify], so the number
    of [delete] operations decreases and the number of [modify] operations
    increases. *)
Lemma threshold_raise_removes_delete :
  (threshold < 12 # 1)%Q
  /\ compile_script threshold 1 Examples.pair_dists Examples.pair_row_ind
       Examples.pair_supermap1 Examples.pair_supermap2 [1%nat] [2%nat]
     = Ok [Delete 1; Add 2]
  /\ compile_script (12 # 1) 1 Examples.pair_dists Examples.pair_row_ind
       Examples.pair_supermap1 Examples.pair_supermap2 [1%nat] [2%nat]
     = Ok [Modify 1 2]
  /\ (count_deletes [Modify 1 2] < count_deletes [Delete 1; Add 2])%nat
  /\ (count_modifies [Delete 1; Add 2] < count_modifies [Modify 1 2])%nat.
Proof. repeat split; vm_compute; lia. Qed.

(** ** hash_node *)

(** A pass of the balance loop either changes nothing, or sets [possible]
    and brings [delta] closer to zero without crossing it. *)
Lemma balance_pass_progress ss2 fix_ sizes delta possible sizes' delta' possible' :
  toward fix_ delta ->
  balance_pass ss2 fix_ sizes delta possible = (sizes', delta', possible') ->
  (delta' = 0 \/ toward fix_ delta')
  /\ ((possible' = true /\ Z.abs delta' < Z.abs delta)
      \/ (possible' = possible /\ delta' = delta)).
Proof.
  revert sizes delta possible.
  induction ss2 as [|[s i] ss2 IH]; intros sizes delta possible Hto; simpl.
  - intros [= <- <- <-]. split; [by right|by right].
  - destruct ((sizes !!! i <? 2) && (fix_ <? 0)); [by apply IH|].
    destruct (delta - fix_ =? 0) eqn:Hzero.
    + intros [= <- <- <-]. split; [left; lia|left; unfold toward in Hto; lia].
    + intros Hpass. apply IH in Hpass as [Hsign Hprog].
      * split; [exact Hsign|]. left. unfold toward in Hto.
        destruct Hprog as [[-> Hlt]|[-> ->]]; split; try done; lia.
      * unfold toward in *. lia.
Qed.

(** The balance loop is given enough passes: it stops because [delta] is
    zero or because a pass changed nothing. *)
Lemma balance_loop_exit fuel ss2 fix_ sizes delta possible sizes' delta' possible' :
  delta = 0 \/ toward fix_ delta ->
  (Z.abs_nat delta <= fuel)%nat ->
  balance_loop fuel ss2 fix_ sizes delta possible = (sizes', delta', possible') ->
  delta' = 0 \/ possible' = false.
Proof.
  revert sizes delta possible.
  induction fuel as [|fuel IH]; intros sizes delta possible Hto Hfuel; simpl.
  - destruct (delta =? 0) eqn:Hzero; simpl.
    + intros [= <- <- <-]. left. lia.
    + lia.
  - destruct (delta =? 0) eqn:Hzero; simpl.
    { intros [= <- <- <-]. left. lia. }
    destruct possible; simpl; [|intros [= <- <- <-]; by right].
    destruct Hto as [?|Hto]; [lia|].
    destruct (balance_pass ss2 fix_ sizes delta false)
      as [[sizes1 delta1] possible1] eqn:Hpass.
    apply balance_pass_progress in Hpass as [Hsign [[-> Hlt]|[-> ->]]]; [| |done].
    + apply IH; [exact Hsign|lia].
    + destruct fuel; simpl; rewrite Hzero; simpl; intros [= <- <- <-]; by right.
Qed.

Lemma balance_loop_adequate (sample_sizes : list Z) (delta : Z) :
  delta <> 0 ->
  let ss2 := merge_sort pair_ge (zip sample_sizes (seq 0 (length sample_sizes))) in
  let fix_ := if 0 <? delta then 1 else -1 in
  let out := balance_loop (Z.abs_nat delta) ss2 fix_ sample_sizes delta true in
  out.1.2 = 0 \/ out.2 = false.
Proof.
  intros Hdelta ss2 fix_ out.
  destruct out as [[sizes' delta'] possible'] eqn:Hout.
  assert (toward fix_ delta) as Hto.
  { unfold toward, fix_. destruct (0 <? delta) eqn:Hpos; lia. }
  exact (balance_loop_exit _ _ _ _ _ _ _ _ _ (or_intror Hto) (le_n _) Hout).
Qed.

Lemma hash_node_leaf `{Externals} i t r s e seed mapping white_list g :
  hash_node (mkNode i t r s e []) seed mapping white_list g
  = let h := hash_self (mkNode i t r s e []) white_list in
    Ok (h, if 0 <? h.1 then dict_set mapping i h.2 else mapping, g).
Proof. reflexivity. Qed.

Lemma hash_node_inner `{Externals} i t r s e c cs seed mapping white_list g :
  hash_node (mkNode i t r s e (c :: cs)) seed mapping white_list g
  = '(child_hashes, mapping1, g1) ←
      hash_children (c :: cs) seed mapping white_list g;
    hash_inner (mkNode i t r s e (c :: cs)) seed mapping1 white_list
               (child_hashes ++ [hash_self (mkNode i t r s e (c :: cs)) white_list])
               g1.
Proof. reflexivity. Qed.

Lemma hash_children_cons `{Externals} c cs seed mapping white_list g :
  hash_children (c :: cs) seed mapping white_list g
  = '(h, mapping1, g1) ← hash_node c seed mapping white_list g;
    '(hs, mapping2, g2) ← hash_children cs seed mapping1 white_list g1;
    Ok (h :: hs, mapping2, g2).
Proof. reflexivity. Qed.

Lemma dict_set_elem (d : dict) k v : (k, v) ∈ dict_set d k v.
Proof.
  induction d as [|[k' v'] d IH]; simpl; [set_solver|].
  destruct (k' =? k)%nat; set_solver.
Qed.

Lemma omap_lookup_length {A} (a : list A) (l : list nat) :
  Forall (fun i => (i < length a)%nat) l ->
  length (omap (fun i => a !! i) l) = length l.
Proof.
  induction 1 as [|i l Hi _ IH]; [done|].
  destruct (lookup_lt_is_Some_2 a i Hi) as [x Hx].
  cbn. rewrite Hx. cbn. f_equal. exact IH.
Qed.

(** A sample that is not larger than the population is drawn, and has the
    size that was asked for. *)
Lemma np_random_choice_ok `{Externals} {A} (g : rng) (a : list A) (size : Z) :
  0 <= size <= Z.of_nat (length a) ->
  exists c, np_random_choice g a size = Ok (c, (np_permutation g (length a)).2)
            /\ length c = Z.to_nat size.
Proof.
  intros Hsize. unfold np_random_choice.
  destruct (size <? 0) eqn:Hneg; [lia|].
  destruct (Z.of_nat (length a) <? size) eqn:Hbig; [lia|]. simpl.
  eexists. split; [done|].
  pose proof (np_permutation_perm g (length a)) as Hperm.
  rewrite omap_lookup_length.
  - rewrite length_take, (Permutation_length Hperm), length_seq. lia.
  - apply Forall_take. rewrite Hperm. apply Forall_forall.
    intros i Hi. apply elem_of_seq in Hi. lia.
Qed.

Lemma np_random_choice_length `{Externals} {A} (g g' : rng) (a c : list A) size :
  np_random_choice g a size = Ok (c, g') -> length c = Z.to_nat size.
Proof.
  unfold np_random_choice.
  destruct (size <? 0) eqn:Hneg; [done|].
  destruct (Z.of_nat (length a) <? size) eqn:Hbig; [done|]. simpl. intros Heq.
  destruct (np_random_choice_ok g a size) as (c' & Hc & Hlen); [lia|].
  unfold np_random_choice in Hc. rewrite Hneg, Hbig in Hc. simpl in Hc.
  congruence.
Qed.

(** The own sketch of a positioned node of the white list has weight 1 and
    16 bytes. *)
Lemma hash_self_in `{Externals} node (white_list : gset nat) :
  start_line node <> 0%nat -> nid node ∈ white_list ->
  exists fp, hash_self node white_list = (1, fp) /\ length fp = 16%nat.
Proof.
  intros Hline Hin. unfold hash_self.
  destruct (start_line node =? 0)%nat eqn:H0; [by apply Nat.eqb_eq in H0|].
  rewrite bool_decide_eq_true_2 by done. cbn [orb negb].
  eexists. split; [reflexivity|]. reflexivity.
Qed.

Lemma hash_self_out `{Externals} node (white_list : gset nat) :
  nid node ∉ white_list -> hash_self node white_list = (0, []).
Proof.
  intros Hout. unfold hash_self. rewrite bool_decide_eq_false_2 by done.
  by rewrite orb_true_r.
Qed.

Lemma merge_sort_length (l : bytes) : length (merge_sort Z.le l) = length l.
Proof. apply Permutation_length, merge_sort_Permutation. Qed.

(** In [call_before] the fingerprint recorded for the call holds 6 bytes
    when the first two arguments are out of the white list and the other
    nodes are in it: the sample sizes 5, 5, 6 computed for the three entries
    of positive weight are paired with the first three entries of
    [inner_hashes], two of which have weight 0. *)
Lemma call_before_fingerprint_in `{Externals} (seed : Z) (mapping0 : dict)
    (g : rng) (wl : gset nat) :
  0 <= seed < 2 ^ 32 ->
  1%nat ∈ wl -> 2%nat ∉ wl -> 3%nat ∉ wl -> 4%nat ∈ wl -> 5%nat ∈ wl ->
  exists fp mapping g',
    hash_node Examples.call_before seed mapping0 wl g
    = Ok ((3, fp), mapping, g')
    /\ (1%nat, fp) ∈ mapping /\ length fp = 6%nat.
Proof.
  intros Hseed Hw1 Hw2 Hw3 Hw4 Hw5.
  destruct (hash_self_in (mkNode 4 [98] [2] 2 2 []) wl) as (fp4 & H4 & Hlen4);
    [done|done|].
  destruct (hash_self_in (mkNode 5 [99] [2] 3 3 []) wl) as (fp5 & H5 & Hlen5);
    [done|done|].
  destruct (hash_self_in Examples.call_before wl) as (fp1 & H1 & Hlen1);
    [done|done|].
  assert (hash_self (mkNode 2 [102] [2] 1 1 []) wl = (0, [])) as H2
    by (by apply hash_self_out).
  assert (hash_self (mkNode 3 [97] [2] 1 1 []) wl = (0, [])) as H3
    by (by apply hash_self_out).
  unfold Examples.call_before in *. cbn -[hash_self hash_inner dict_set].
  rewrite H2, H3, H4, H5, H1. cbn -[hash_inner dict_set].
  unfold hash_inner. cbn [nid fmap list_fmap fst].
  rewrite bool_decide_eq_true_2 by done. cbn [negb].
  change (filter (fun w : Z => 0 < w) [0; 0; 1; 1; 1]) with [1; 1; 1].
  cbn [list_eq_int].
  change (sum [1; 1; 1]) with 3.
  change ((fun w : Z => 1 `max` ((w * HASH_SIZE) `div` 3)) <$> [1; 1; 1])
    with [5; 5; 5].
  change (HASH_SIZE - sum [5; 5; 5]) with 1. cbn [Z.eqb Pos.eqb].
  change (balance seed [5; 5; 5] 1 g) with (Ok ([5; 5; 6], g) : res _).
  cbn [mbind res_bind zip zip_with sample_entries fst snd Z.eqb].
  unfold np_random_seed.
  destruct ((0 <=? seed) && (seed <? 2 ^ 32)) eqn:Hs; [|lia].
  cbn [mbind res_bind].
  destruct (np_random_choice_ok (np_seed seed) (merge_sort Z.le fp4) 6)
    as (c & -> & Hc); [rewrite merge_sort_length; lia|].
  cbn [mbind res_bind hstack concat]. rewrite app_nil_r.
  eexists _, _, _. split; [reflexivity|]. split; [|exact Hc].
  apply dict_set_elem.
Qed.

(** C2 (the code on the failing input): for every hash function, generator,
    seed and mapping, [hash_node] raises ValueError on [lonely_parent] with
    the white list that holds the parent only; that white list is the one
    [filter_changed] computes when lines 2 and 3 of 4 change.  The sample
    size of the parent's own sketch is paired with the child, which has
    weight 0, so [choices] stays empty and [numpy.hstack] fails. *)
Theorem hash_node_raises `{Externals} (seed : Z) (mapping : dict) (g : rng) :
  (lines ← Line2Nodes 4 Examples.lonely_parent; filter_changed [(1, 3)] lines)
  = Ok {[1%nat]}
  /\ hash_node Examples.lonely_parent seed mapping {[1%nat]} g
     = Raise ValueError.
Proof. split; reflexivity. Qed.

(** With the reference externals, the whole of [treediff] raises on two
    versions of a file whose trees are [lonely_parent]. *)
Lemma treediff_raises_on_lonely_parent :
  white_lists (H := Reference.externals) Examples.lonely_src_before
              Examples.lonely_parent Examples.lonely_src_after
              Examples.lonely_parent_after
  = Ok ({[1%nat]}, {[11%nat]})
  /\ treediff (H := Reference.externals) Examples.lonely_src_before
              Examples.lonely_parent Examples.lonely_src_after
              Examples.lonely_parent_after 10 (0 : Z)
     = Raise ValueError.
Proof. split; reflexivity. Qed.

(** The byte-sampling step fails as well: the statement around the call of
    [call_before] asks for 12 bytes of the 6-byte fingerprint of the call. *)
Lemma hash_node_sampling_raises `{Externals} (seed : Z) (mapping : dict) (g : rng) :
  0 <= seed < 2 ^ 32 ->
  (lines ← Line2Nodes 4 Examples.statement_before; filter_changed [(1, 3)] lines)
  = Ok Examples.statement_white_list
  /\ hash_node Examples.statement_before seed mapping
               Examples.statement_white_list g
     = Raise ValueError.
Proof.
  intros Hseed. split; [reflexivity|].
  destruct (call_before_fingerprint_in seed mapping g Examples.statement_white_list)
    as (fp & mapping' & g' & Hcall & _ & Hlen); [done|by vm_compute..|].
  destruct (hash_self_in Examples.statement_before Examples.statement_white_list)
    as (fp6 & H6 & Hlen6); [done|by vm_compute|].
  unfold Examples.statement_before in *.
  rewrite hash_node_inner, hash_children_cons, Hcall.
  cbn -[hash_self hash_inner Examples.call_before].
  rewrite H6. unfold hash_inner. cbn [nid fmap list_fmap fst].
  rewrite bool_decide_eq_true_2 by (by vm_compute). cbn [negb].
  change (filter (fun w : Z => 0 < w) [3; 1]) with [3; 1].
  cbn [list_eq_int]. change (sum [3; 1]) with 4.
  change ((fun w : Z => 1 `max` ((w * HASH_SIZE) `div` 4)) <$> [3; 1])
    with [12; 4].
  change (HASH_SIZE - sum [12; 4]) with 0. cbn [Z.eqb].
  cbn [mbind res_bind zip zip_with sample_entries fst snd Z.eqb].
  unfold np_random_seed.
  destruct ((0 <=? seed) && (seed <? 2 ^ 32)) eqn:Hs; [|lia].
  cbn [mbind res_bind]. unfold np_random_choice.
  rewrite (merge_sort_length fp), Hlen. reflexivity.
Qed.

(** C6 (the code on the failing input): in every round, for every hash
    function and generator, the fingerprint that [hash_node] records for the
    call of [call_before] has 6 bytes, not [HASH_SIZE]; the white list is
    the one [filter_changed] computes when lines 2 and 3 of 4 change. *)
Theorem fingerprint_length_violated `{Externals} (seed : Z) (g : rng) :
  0 <= seed < 2 ^ 32 ->
  (lines ← Line2Nodes 4 Examples.call_before; filter_changed [(1, 3)] lines)
  = Ok Examples.call_white_list1
  /\ exists fp mapping g',
       hash_node Examples.call_before seed [] Examples.call_white_list1 g
       = Ok ((3, fp), mapping, g')
       /\ (1%nat, fp) ∈ mapping
       /\ length fp = 6%nat
       /\ Z.of_nat (length fp) <> HASH_SIZE.
Proof.
  intros Hseed. split; [reflexivity|].
  destruct (call_before_fingerprint_in seed [] g Examples.call_white_list1)
    as (fp & mapping & g' & Hcall & Hin & Hlen); [done|by vm_compute..|].
  exists fp, mapping, g'. rewrite Hlen. repeat split; try done.
Qed.

Lemma fingerprint_length_violated_witness :
  (lines ← Line2Nodes 4 Examples.call_before; filter_changed [(1, 3)] lines)
  = Ok Examples.call_white_list1
  /\ exists fp mapping g',
       hash_node (H := Reference.externals) Examples.call_before 0 []
                 Examples.call_white_list1 (0 : Z)
       = Ok ((3, fp), mapping, g')
       /\ (1%nat, fp) ∈ mapping
       /\ length fp = 6%nat
       /\ Z.of_nat (length fp) <> HASH_SIZE.
Proof.
  apply (fingerprint_length_violated (H := Reference.externals) 0 (0 : Z)).
  lia.
Defined.

(** ** treediff: the short circuits *)

Lemma scan_unchanged (ls : list string) (st : scan) :
  in_run st = false ->
  exists st', foldM scan_step (String.append "  " <$> ls) st = Ok st'
              /\ intervals st' = intervals st.
Proof.
  revert st. induction ls as [|l ls IH]; intros st Hrun; simpl.
  - by exists st.
  - unfold in_run in Hrun. rewrite Hrun. cbn [mbind res_bind].
    match goal with
    | |- exists st', foldM _ _ ?st1 = _ /\ _ =>
        destruct (IH st1) as (st' & Hst' & Hiv); [exact Hrun|]
    end.
    exists st'. split; [exact Hst'|exact Hiv].
Qed.

(** A diff without changed entries gives no interval. *)
Lemma adjust_seqdiff_unchanged (ls src_after : list string) line2nodes :
  adjust_seqdiff (String.append "  " <$> ls) src_after line2nodes = Ok [].
Proof.
  unfold adjust_seqdiff, scan_seqdiff.
  destruct (scan_unchanged ls scan_init) as (st' & -> & Hiv); [done|].
  simpl. by rewrite Hiv.
Qed.

(** C1 (as amended): if every positioned node of the tree lies within the
    lines of the source, so that the line index can be built, and the line
    differ reports the lines of the source compared with itself as
    unchanged, then [treediff(src, tree, src, tree)] returns the empty
    script. *)
Theorem treediff_identity `{Externals} (src : string) (tree : Node)
    (nseeds : Z) (g : rng) :
  Forall (fits (length (splitlines src))) (nodes tree) ->
  differ_compare (splitlines src) (splitlines src)
  = String.append "  " <$> splitlines src ->
  treediff src tree src tree nseeds g = Ok ([], g).
Proof.
  intros Hfits Hdiff. unfold treediff, white_lists.
  destruct (Line2Nodes_ok _ _ Hfits) as (lines & -> & _). simpl.
  rewrite Hdiff, adjust_seqdiff_unchanged. reflexivity.
Qed.

Lemma treediff_identity_witness :
  treediff (H := Reference.externals) Examples.call_src_before
           Examples.call_before Examples.call_src_before Examples.call_before
           10 (0 : Z)
  = Ok ([], 0).
Proof.
  apply (treediff_identity (H := Reference.externals)).
  - vm_compute. repeat constructor; lia.
  - reflexivity.
Defined.

(** Whatever the libraries do, [treediff] raises IndexError on the empty
    source and a tree whose root is on line 1: the line index cannot be
    built. *)
Lemma treediff_out_of_range `{Externals} (nseeds : Z) (g : rng) :
  treediff EmptyString (mkNode 0 [] [] 1 1 []) EmptyString
           (mkNode 0 [] [] 1 1 []) nseeds g
  = Raise IndexError.
Proof. reflexivity. Qed.

(** C1 (as stated) fails: for the empty source and a tree whose root is on
    line 1, [treediff(src, tree, src, tree)] raises IndexError when it builds
    the line index, instead of returning the empty script. *)
Lemma treediff_identity_raises :
  treediff (H := Reference.externals) EmptyString (mkNode 0 [] [] 1 1 [])
           EmptyString (mkNode 0 [] [] 1 1 []) 10 (0 : Z)
  = Raise IndexError.
Proof. reflexivity. Qed.

Lemma NoDup_fmap_elements (f : nat -> op) (wl : gset nat) :
  Inj (=) (=) f -> NoDup (f <$> elements wl).
Proof. intros Hinj. apply NoDup_fmap_2; [done|apply NoDup_elements]. Qed.

(** C8: when the white lists are computed and the before-side one is empty,
    [treediff] returns one [add] for each node of the after-side white list
    and nothing else; when the after-side one is empty, it returns one
    [delete] for each node of the before-side white list and nothing else;
    in both cases it returns normally. *)
Theorem treediff_short_circuit `{Externals} (src1 : string) (uast1 : Node)
    (src2 : string) (uast2 : Node) (nseeds : Z) (g : rng)
    (white_list1 white_list2 : gset nat) :
  white_lists src1 uast1 src2 uast2 = Ok (white_list1, white_list2) ->
  white_list1 = ∅ \/ white_list2 = ∅ ->
  exists script,
    treediff src1 uast1 src2 uast2 nseeds g = Ok (script, g)
    /\ NoDup script
    /\ forall o,
         o ∈ script
         <-> (white_list1 = ∅ /\ exists n, n ∈ white_list2 /\ o = Add n)
             \/ (white_list2 = ∅ /\ exists n, n ∈ white_list1 /\ o = Delete n).
Proof.
  intros Hwl Hempty. unfold treediff. rewrite Hwl. simpl.
  destruct (size white_list1 =? 0)%nat eqn:H1.
  - apply Nat.eqb_eq, size_empty_inv in H1. apply leibniz_equiv in H1. subst.
    eexists. split; [done|]. split.
    { apply NoDup_fmap_elements. by intros ?? [=]. }
    intros o. rewrite list_elem_of_fmap. unfold dereference_idptr. split.
    + intros (n & -> & Hn). left. split; [done|].
      exists n. by rewrite <- elem_of_elements.
    + intros [(_ & n & Hn & ->)|(_ & n & Hn & _)]; [|set_solver].
      exists n. by rewrite elem_of_elements.
  - apply Nat.eqb_neq in H1.
    destruct Hempty as [-> | ->]; [by rewrite size_empty in H1|].
    rewrite size_empty. simpl.
    eexists. split; [done|]. split.
    { apply NoDup_fmap_elements. by intros ?? [=]. }
    intros o. rewrite list_elem_of_fmap. unfold dereference_idptr. split.
    + intros (n & -> & Hn). right. split; [done|].
      exists n. by rewrite <- elem_of_elements.
    + intros [[Hw1 _]|(_ & n & Hn & ->)];
        [subst white_list1; by rewrite size_empty in H1|].
      exists n. by rewrite elem_of_elements.
Qed.

Lemma treediff_short_circuit_witness :
  exists script,
    treediff (H := Reference.externals) Examples.insert_src_before
             Examples.insert_before Examples.insert_src_after
             Examples.insert_after 10 (0 : Z)
    = Ok (script, 0)
    /\ NoDup script
    /\ forall o,
         o ∈ script
         <-> ((∅ : gset nat) = ∅ /\ exists n, n ∈ ({[13%nat]} : gset nat) /\ o = Add n)
             \/ (({[13%nat]} : gset nat) = ∅
                 /\ exists n, n ∈ (∅ : gset nat) /\ o = Delete n).
Proof.
  apply (treediff_short_circuit (H := Reference.externals)).
  - reflexivity.
  - left. reflexivity.
Defined.

(** ** treediff: the partition of the nodes *)

(** Every assigned pair is in [deleted], in [exact] or reported as [modify],
    and a pair reported as [modify] is in neither of the other two sets: the
    sets partition the pairs exactly when no pair is in [deleted] and in
    [exact] at once. *)
Lemma before_side_cover (n1 : nat) (row_ind : list nat)
    (deleted exact : gset (nat * nat)) (p : nat * nat) :
  p ∈ assignment n1 row_ind ->
  (p ∈ deleted \/ p ∈ exact \/ p ∈ modify_set n1 row_ind deleted exact)
  /\ ~ (p ∈ deleted /\ p ∈ modify_set n1 row_ind deleted exact)
  /\ ~ (p ∈ exact /\ p ∈ modify_set n1 row_ind deleted exact).
Proof.
  unfold modify_set. intros Hp.
  destruct (decide (p ∈ deleted)), (decide (p ∈ exact)); set_solver.
Qed.

(** An after-side index is in [added] exactly when no pair outside
    [deleted] is assigned to it. *)
Lemma after_side_added (n1 : nat) (row_ind : list nat)
    (deleted : gset (nat * nat)) (j : nat) :
  (n1 <= j < length row_ind)%nat ->
  j ∈ added_set n1 row_ind deleted
  <-> ~ exists i, (i, j) ∈ assignment n1 row_ind /\ (i, j) ∉ deleted.
Proof.
  unfold added_set. intros Hj.
  rewrite elem_of_difference, elem_of_list_to_set, elem_of_seq, elem_of_map.
  split.
  - intros [_ Hnot] (i & Hin & Hdel). apply Hnot. exists (i, j). set_solver.
  - intros Hnot. split; [lia|]. intros ([i j'] & Hj' & Hin). simpl in Hj'. subst j'.
    apply Hnot. exists i. set_solver.
Qed.

(** With the reference externals, [difflib]'s answer on the sources of the
    call example gives the white lists of [call_before] and [call_after]. *)
Lemma call_white_lists :
  white_lists (H := Reference.externals) Examples.call_src_before
              Examples.call_before Examples.call_src_after Examples.call_after
  = Ok (Examples.call_white_list1, Examples.call_white_list2).
Proof. reflexivity. Qed.

(** On the call example, with ten rounds and the reference externals, the
    only assignment of least cost pairs the call before (index 2) with the
    call after (index 5); their supersketches are equal (60 bytes each) and
    their distance is above the threshold, so the pair is in [deleted] and
    in [exact] at once, and the script deletes the one call and adds the
    other. *)
Lemma call_example_script :
  exists st g' d deleted exact,
    hash_rounds (H := Reference.externals) Examples.call_before
                Examples.call_after Examples.call_white_list1
                Examples.call_white_list2 10 (0 : Z)
    = Ok (st, g')
    /\ dists st = Some d
    /\ (fun maps : dict * dict => (maps.1.*1, maps.2.*1)) <$> last_maps st
       = Some ([4; 5; 1]%nat, [14; 15; 11]%nat)
    /\ length (supermap1 st !!! 1%nat) = 60%nat
    /\ lapjv (Externals := Reference.externals) d
       = [3; 4; 5; 0; 1; 2]%nat
    /\ deleted_set threshold 10 d 3 [3; 4; 5; 0; 1; 2]%nat = Ok deleted
    /\ exact_set (supermap1 st) (supermap2 st) [4; 5; 1]%nat [14; 15; 11]%nat
                 [3; 4; 5; 0; 1; 2]%nat
       = Ok exact
    /\ (2%nat, 5%nat) ∈ deleted
    /\ (2%nat, 5%nat) ∈ exact
    /\ forallb (fun p => bool_decide (p = [3; 4; 5; 0; 1; 2]%nat)
                         || (Reference.assignment_cost d [3; 4; 5; 0; 1; 2]%nat
                             <? Reference.assignment_cost d p))
               (permutations (seq 0 6))
       = true
    /\ exists script,
         treediff (H := Reference.externals) Examples.call_src_before
                  Examples.call_before Examples.call_src_after
                  Examples.call_after 10 (0 : Z)
         = Ok (script, g')
         /\ script ≡ₚ [Delete 1; Delete 5; Add 11; Add 15].
Proof.
  eexists _, _, _, _, _.
  split; [vm_compute; reflexivity|].
  split; [reflexivity|].
  split; [vm_compute; reflexivity|].
  split; [vm_compute; reflexivity|].
  split; [vm_compute; reflexivity|].
  split; [vm_compute; reflexivity|].
  split; [vm_compute; reflexivity|].
  split; [by vm_compute|].
  split; [by vm_compute|].
  split; [vm_compute; reflexivity|].
  eexists. split; [vm_compute; reflexivity|].
  rewrite (Permutation_swap (Add 11) (Add 15)). reflexivity.
Qed.

(** *** The overlap for every hash function

    The distance of two fingerprints and the supersketches are followed
    through [accumulate] and the rounds for arbitrary externals. *)

Lemma square_lookup m d i :
  square m d -> (i < m)%nat -> exists row, d !! i = Some row /\ length row = m.
Proof.
  intros [Hlen Hrows] Hi.
  destruct (lookup_lt_is_Some_2 d i) as [row Hrow]; [lia|].
  exists row. split; [done|]. by eapply (Forall_lookup_1 _ _ _ _ Hrows).
Qed.

(** Inside a square matrix [dists[i, j]] is read without error. *)
Lemma matrix_get_entry m d i j :
  square m d -> (i < m)%nat -> (j < m)%nat ->
  matrix_get d i j = Ok (entry d i j).
Proof.
  intros Hsq Hi Hj. destruct (square_lookup m d i Hsq Hi) as (row & Hrow & Hlen).
  destruct (lookup_lt_is_Some_2 row j) as [x Hx]; [lia|].
  unfold matrix_get, entry. rewrite Hrow, Hx.
  by rewrite (list_lookup_total_correct _ _ _ Hrow), (list_lookup_total_correct _ _ _ Hx).
Qed.

Lemma broadcast_add_same (target candidates : list Z) :
  length candidates = length target ->
  broadcast_add target candidates = Ok (zip_with Z.add target candidates).
Proof. intros Hlen. unfold broadcast_add. by rewrite Hlen, Nat.eqb_refl. Qed.

Lemma lookup_total_zip_with_add (l k : list Z) (i : nat) :
  (i < length l)%nat -> (i < length k)%nat ->
  zip_with Z.add l k !!! i = l !!! i + k !!! i.
Proof.
  intros Hl Hk.
  destruct (lookup_lt_is_Some_2 l i Hl) as [x Hx].
  destruct (lookup_lt_is_Some_2 k i Hk) as [y Hy].
  rewrite (list_lookup_total_correct _ _ _ Hx), (list_lookup_total_correct _ _ _ Hy).
  apply list_lookup_total_correct. rewrite lookup_zip_with, Hx. simpl. by rewrite Hy.
Qed.

(** [dists[i, n1:] += candidates] adds the candidates to the entries of row
    [i] from column [n1] on and leaves the other entries as they are. *)
Lemma add_to_row_entry m d i n1 candidates :
  square m d -> (i < m)%nat -> (n1 <= m)%nat ->
  length candidates = (m - n1)%nat ->
  exists d', add_to_row d i n1 candidates = Ok d'
    /\ square m d'
    /\ forall r c, (r < m)%nat -> (c < m)%nat ->
         entry d' r c
         = entry d r c
           + (if bool_decide (r = i /\ (n1 <= c)%nat)
              then candidates !!! (c - n1)%nat else 0).
Proof.
  intros Hsq Hi Hn1 Hlen. unfold matrix in *.
  destruct (square_lookup m d i Hsq Hi) as (row & Hrow & Hrowlen).
  destruct Hsq as [Hd Hrows].
  unfold add_to_row. unfold matrix in *. rewrite Hrow.
  rewrite broadcast_add_same by (rewrite length_drop; lia).
  cbn [mbind res_bind]. eexists. split; [reflexivity|].
  assert (length (take n1 row ++ zip_with Z.add (drop n1 row) candidates) = m)
    as Hnew.
  { rewrite length_app, length_take, length_zip_with, length_drop. lia. }
  split.
  { split; [by rewrite length_insert|]. by apply Forall_insert. }
  intros r c Hr Hc. unfold entry. unfold matrix.
  destruct (decide (r = i)) as [->|Hne].
  - rewrite list_lookup_total_insert_eq by lia.
    rewrite (list_lookup_total_correct _ _ _ Hrow).
    destruct (decide (n1 <= c)%nat) as [Hge|Hlt].
    + rewrite bool_decide_eq_true_2 by done.
      rewrite lookup_total_app_r by (rewrite length_take; lia).
      rewrite length_take, Nat.min_l by lia.
      rewrite lookup_total_zip_with_add by (rewrite ?length_drop; lia).
      rewrite lookup_total_drop. do 2 f_equal. lia.
    + rewrite bool_decide_eq_false_2 by tauto.
      rewrite lookup_total_app_l by (rewrite length_take; lia).
      rewrite lookup_total_take_lt by lia. lia.
  - rewrite list_lookup_total_insert_ne by done.
    rewrite bool_decide_eq_false_2 by tauto. lia.
Qed.

Lemma mapM_res_ok {A B} (f : A -> res B) (g : A -> B) (l : list A) :
  Forall (fun x => f x = Ok (g x)) l -> mapM f l = Ok (g <$> l).
Proof.
  induction 1 as [|x l Hx _ IH]; [done|]. simpl. rewrite Hx. simpl.
  by rewrite IH.
Qed.

(** [dists[n1:, i] += candidates] adds the candidates to the entries of
    column [i] from row [n1] on and leaves the other entries as they are. *)
Lemma add_to_column_entry m d i n1 candidates :
  square m d -> (i < m)%nat -> (n1 <= m)%nat ->
  length candidates = (m - n1)%nat ->
  exists d', add_to_column d i n1 candidates = Ok d'
    /\ square m d'
    /\ forall r c, (r < m)%nat -> (c < m)%nat ->
         entry d' r c
         = entry d r c
           + (if bool_decide (c = i /\ (n1 <= r)%nat)
              then candidates !!! (r - n1)%nat else 0).
Proof.
  intros [Hd Hrows] Hi Hn1 Hlen. unfold add_to_column, matrix in *.
  rewrite (mapM_res_ok _ (fun row => row !!! i)); cycle 1.
  { apply Forall_drop. eapply Forall_impl; [exact Hrows|]. intros row Hrow. simpl in *.
    destruct (lookup_lt_is_Some_2 row i) as [x Hx]; [lia|].
    by rewrite Hx, (list_lookup_total_correct _ _ _ Hx). }
  cbn [mbind res_bind].
  rewrite broadcast_add_same by (rewrite length_fmap, length_drop; lia).
  cbn [mbind res_bind]. eexists. split; [reflexivity|].
  set (column' := zip_with Z.add ((fun row : list Z => row !!! i) <$> drop n1 d) candidates).
  assert (length column' = (m - n1)%nat) as Hcol.
  { unfold column'. rewrite length_zip_with, length_fmap, length_drop. lia. }
  split.
  { split.
    - rewrite length_app, length_take, length_zip_with, length_drop. lia.
    - apply Forall_app. split; [by apply Forall_take|].
      apply Forall_zip_with_snd with (P := fun _ => True);
        [|by apply Forall_true].
      eapply Forall_impl; [apply Forall_drop, Hrows|].
      intros row Hrow v _. by rewrite length_insert. }
  intros r c Hr Hc. unfold entry. unfold matrix.
  destruct (decide (n1 <= r)%nat) as [Hge|Hlt].
  - rewrite lookup_total_app_r by (rewrite length_take; lia).
    rewrite length_take, Nat.min_l by lia.
    destruct (lookup_lt_is_Some_2 (drop n1 d) (r - n1)) as [row Hrow];
      [rewrite length_drop; lia|].
    destruct (lookup_lt_is_Some_2 column' (r - n1)) as [v Hv]; [lia|].
    rewrite (list_lookup_total_correct _ (r - n1) (<[i := v]> row)); cycle 1.
    { rewrite lookup_zip_with, Hrow. simpl. by rewrite Hv. }
    assert (d !!! r = row) as ->.
    { apply list_lookup_total_correct. rewrite lookup_drop in Hrow.
      by replace (n1 + (r - n1))%nat with r in Hrow by lia. }
    assert (length row = m) as Hrowlen.
    { pose proof (Forall_drop _ n1 _ Hrows) as Hdrop.
      exact (Forall_lookup_1 _ _ _ _ Hdrop Hrow). }
    destruct (decide (c = i)) as [->|Hne].
    + rewrite bool_decide_eq_true_2 by done.
      rewrite list_lookup_total_insert_eq by lia.
      apply list_lookup_total_correct in Hv. rewrite <- Hv. unfold column'.
      rewrite lookup_total_zip_with_add by (rewrite ?length_fmap, ?length_drop; lia).
      f_equal.
      rewrite (list_lookup_total_fmap (fun row : list Z => row !!! i))
        by (rewrite length_drop; lia).
      by rewrite (list_lookup_total_correct _ _ _ Hrow).
    + rewrite list_lookup_total_insert_ne by done.
      rewrite bool_decide_eq_false_2 by tauto. lia.
  - rewrite lookup_total_app_l by (rewrite length_take; lia).
    rewrite lookup_total_take_lt by lia.
    rewrite bool_decide_eq_false_2 by tauto. lia.
Qed.

Lemma append_index_lookup (bm : list (list nat)) (i : nat) (l : bytes) (x : Z) :
  length bm = 256%nat -> NoDup l -> is_bytes l -> 0 <= x < 256 ->
  length (foldl (fun bm b => alter (fun js => js ++ [i]) (Z.to_nat b) bm) bm l)
  = 256%nat
  /\ foldl (fun bm b => alter (fun js => js ++ [i]) (Z.to_nat b) bm) bm l
       !!! Z.to_nat x
     = bm !!! Z.to_nat x ++ (if bool_decide (x ∈ l) then [i] else []).
Proof.
  intros Hbm Hnd Hl Hx. revert bm Hbm.
  induction l as [|b l IH]; intros bm Hbm.
  - cbn [foldl]. rewrite bool_decide_eq_false_2 by set_solver.
    by rewrite app_nil_r.
  - apply NoDup_cons in Hnd as [Hb Hnd]. apply Forall_cons in Hl as [Hbr Hl].
    cbn [foldl]. destruct (IH Hnd Hl (alter (fun js => js ++ [i]) (Z.to_nat b) bm))
      as [Hlen Hlook]; [by rewrite length_alter|].
    split; [exact Hlen|]. rewrite Hlook. destruct (decide (x = b)) as [->|Hne].
    + rewrite list_lookup_total_alter_eq by lia.
      rewrite (bool_decide_eq_false_2 (b ∈ l)) by done.
      rewrite bool_decide_eq_true_2 by set_solver. by rewrite app_nil_r.
    + rewrite list_lookup_total_alter_ne by lia.
      destruct (decide (x ∈ l)).
      * by rewrite !bool_decide_eq_true_2 by set_solver.
      * by rewrite !bool_decide_eq_false_2 by set_solver.
Qed.

(** [for b in set(h): byte_matches[b].append(i)] appends [i] once to the
    list of every byte value of [h] and to no other list. *)
Lemma add_byte_matches_lookup (bm : list (list nat)) (i : nat) (h : bytes) (x : Z) :
  length bm = 256%nat -> is_bytes h -> 0 <= x < 256 ->
  length (add_byte_matches bm i h) = 256%nat
  /\ add_byte_matches bm i h !!! Z.to_nat x
     = bm !!! Z.to_nat x ++ (if bool_decide (x ∈ h) then [i] else []).
Proof.
  intros Hbm Hh Hx. unfold add_byte_matches.
  destruct (append_index_lookup bm i (remove_dups h) x) as [Hlen Hlook];
    [done|apply NoDup_remove_dups| |done|].
  { unfold is_bytes in *. rewrite Forall_forall in Hh |- *.
    intros b Hb. apply Hh. by apply (proj1 (elem_of_remove_dups _ _)). }
  split; [exact Hlen|]. rewrite Hlook.
  destruct (decide (x ∈ h)) as [Hin|Hout].
  - rewrite !bool_decide_eq_true_2; [done..|by apply elem_of_remove_dups].
  - rewrite !bool_decide_eq_false_2; [done..|by rewrite elem_of_remove_dups].
Qed.

Lemma decrement_lookup (js : list nat) (candidates : list Z) (j : nat) :
  (j < length candidates)%nat ->
  length (foldl (fun candidates j => alter (fun c => c - 1) j candidates)
                candidates js) = length candidates
  /\ foldl (fun candidates j => alter (fun c => c - 1) j candidates)
           candidates js !!! j
     = candidates !!! j - Z.of_nat (length (filter (eq j) js)).
Proof.
  revert candidates. induction js as [|j' js IH]; intros candidates Hj; simpl.
  - split; [done|]. lia.
  - destruct (IH (alter (fun c => c - 1) j' candidates)) as [Hlen Hlook];
      [by rewrite length_alter|].
    rewrite length_alter in Hlen. split; [exact Hlen|]. rewrite Hlook.
    rewrite filter_cons. destruct (decide (j = j')) as [<-|Hne].
    + rewrite list_lookup_total_alter_eq by done. simpl. lia.
    + rewrite list_lookup_total_alter_ne by done. lia.
Qed.

(** The two nested loops over [h] and [byte_matches[b]] decrement one
    candidate for each element of the lists of the bytes of [h], in
    sequence. *)
Lemma candidates_of_flat (bm : list (list nat)) (n2 : nat) (h : bytes) :
  candidates_of bm n2 h
  = foldl (fun candidates j => alter (fun c => c - 1) j candidates)
          (replicate n2 0) (h ≫= fun b => bm !!! Z.to_nat b).
Proof.
  unfold candidates_of. generalize (replicate n2 0).
  induction h as [|b h IH]; intros candidates; [done|].
  rewrite bind_cons, foldl_app. apply IH.
Qed.

Lemma count_bind (slot : Z -> list nat) (h h' : bytes) (j : nat) :
  Forall (fun b => length (filter (eq j) (slot b))
                   = if bool_decide (b ∈ h') then 1%nat else 0%nat) h ->
  length (filter (eq j) (h ≫= slot)) = length (filter (fun b => b ∈ h') h).
Proof.
  induction 1 as [|b h Hb _ IH]; [done|].
  rewrite bind_cons, filter_app, length_app, Hb, IH, filter_cons.
  destruct (decide (b ∈ h')).
  - by rewrite bool_decide_eq_true_2.
  - by rewrite bool_decide_eq_false_2.
Qed.

(** When the list of every byte [b] holds [j] once if [b] occurs in [h'] and
    not at all otherwise, candidate [j] ends at minus the number of bytes of
    [h] that occur in [h']: repeated bytes of [h] count each time. *)
Lemma candidates_of_lookup (bm : list (list nat)) (n2 : nat) (h h' : bytes) (j : nat) :
  (j < n2)%nat ->
  Forall (fun b => length (filter (eq j) (bm !!! Z.to_nat b))
                   = if bool_decide (b ∈ h') then 1%nat else 0%nat) h ->
  length (candidates_of bm n2 h) = n2
  /\ candidates_of bm n2 h !!! j = - common h h'.
Proof.
  intros Hj Hslots. rewrite candidates_of_flat.
  destruct (decrement_lookup (h ≫= fun b => bm !!! Z.to_nat b) (replicate n2 0) j)
    as [Hlen Hlook]; [by rewrite length_replicate|].
  rewrite length_replicate in Hlen. split; [exact Hlen|]. rewrite Hlook.
  rewrite lookup_total_replicate_2 by done.
  rewrite (count_bind _ h h') by done. unfold common. lia.
Qed.

Lemma candidates_of_length (bm : list (list nat)) (n2 : nat) (h : bytes) :
  length (candidates_of bm n2 h) = n2.
Proof.
  rewrite candidates_of_flat. generalize (h ≫= fun b => bm !!! Z.to_nat b).
  intros js. rewrite <- (length_replicate n2 (0 : Z)) at 2.
  generalize (replicate n2 (0 : Z)). induction js as [|j js IH]; intros c; [done|].
  simpl. by rewrite IH, length_alter.
Qed.

Lemma common_subseteq (h h' : bytes) :
  Forall (fun b => b ∈ h') h -> common h h' = Z.of_nat (length h).
Proof.
  unfold common. intros Hall. do 2 f_equal.
  induction Hall as [|b l Hb _ IH]; [done|].
  rewrite filter_cons. destruct (decide (b ∈ h')); [|done]. by rewrite IH.
Qed.

Lemma common_self (h : bytes) : common h h = Z.of_nat (length h).
Proof. apply common_subseteq, Forall_forall. auto. Qed.

(** The byte lists after the three entries of the after-side mapping of the
    call example. *)
Lemma call_byte_matches (a b' c : bytes) (x : Z) :
  is_bytes a -> is_bytes b' -> is_bytes c -> 0 <= x < 256 ->
  add_byte_matches
    (add_byte_matches (add_byte_matches (replicate 256 []) 0 a) 1 b') 2 c
    !!! Z.to_nat x
  = (if bool_decide (x ∈ a) then [0%nat] else [])
    ++ (if bool_decide (x ∈ b') then [1%nat] else [])
    ++ (if bool_decide (x ∈ c) then [2%nat] else []).
Proof.
  intros Ha Hb Hc Hx.
  destruct (add_byte_matches_lookup (replicate 256 []) 0 a x)
    as [Hlen0 Hlook0]; [by rewrite length_replicate|done..|].
  destruct (add_byte_matches_lookup _ 1 b' x Hlen0) as [Hlen1 Hlook1]; [done..|].
  destruct (add_byte_matches_lookup _ 2 c x Hlen1) as [_ Hlook2]; [done..|].
  rewrite Hlook2, Hlook1, Hlook0, lookup_total_replicate_2 by lia.
  by rewrite <- !app_assoc.
Qed.

(** One round of accumulation on the mappings of the call example: the
    fingerprint [c] of the two calls takes its length from their distance
    and is appended to both supersketches. *)
Lemma accumulate_call (nseeds : Z) (st : rounds) (a b b' c : bytes) (d0 : matrix) :
  is_bytes a -> is_bytes b -> is_bytes b' -> is_bytes c ->
  match dists st with Some d => d | None => init_dists 3 3 nseeds end = d0 ->
  square 6 d0 ->
  exists st' d',
    accumulate nseeds st [(4, a); (5, b); (1, c)]%nat
               [(14, a); (15, b'); (11, c)]%nat
    = Ok st'
    /\ dists st' = Some d' /\ square 6 d'
    /\ entry d' 2 5 = entry d0 2 5 - Z.of_nat (length c)
    /\ supermap1 st' !!! 1%nat = supermap1 st !!! 1%nat ++ c
    /\ supermap2 st' !!! 11%nat = supermap2 st !!! 11%nat ++ c
    /\ last_maps st'
       = Some ([(4, a); (5, b); (1, c)]%nat, [(14, a); (15, b'); (11, c)]%nat).
Proof.
  intros Ha Hb Hb' Hc Hd0 Hsq. unfold accumulate.
  cbn -[add_byte_matches candidates_of add_to_row add_to_column supermap_add
        init_dists replicate].
  rewrite Hd0.
  set (bm := add_byte_matches _ 2 c).
  destruct (add_to_row_entry 6 d0 0 3 (candidates_of bm 3 a))
    as (d1 & -> & Hsq1 & He1); [done|lia|lia|apply candidates_of_length|].
  cbn [mbind res_bind].
  destruct (add_to_column_entry 6 d1 0 3 (candidates_of bm 3 a))
    as (d2 & -> & Hsq2 & He2); [done|lia|lia|apply candidates_of_length|].
  cbn [mbind res_bind].
  destruct (add_to_row_entry 6 d2 1 3 (candidates_of bm 3 b))
    as (d3 & -> & Hsq3 & He3); [done|lia|lia|apply candidates_of_length|].
  cbn [mbind res_bind].
  destruct (add_to_column_entry 6 d3 1 3 (candidates_of bm 3 b))
    as (d4 & -> & Hsq4 & He4); [done|lia|lia|apply candidates_of_length|].
  cbn [mbind res_bind].
  destruct (add_to_row_entry 6 d4 2 3 (candidates_of bm 3 c))
    as (d5 & -> & Hsq5 & He5); [done|lia|lia|apply candidates_of_length|].
  cbn [mbind res_bind].
  destruct (add_to_column_entry 6 d5 2 3 (candidates_of bm 3 c))
    as (d6 & -> & Hsq6 & He6); [done|lia|lia|apply candidates_of_length|].
  cbn [mbind res_bind].
  eexists _, d6. split; [reflexivity|]. cbn [dists supermap1 supermap2 last_maps].
  split; [done|]. split; [done|]. split; [|split; [|split; [|done]]].
  - rewrite He6, He5, He4, He3, He2, He1 by lia.
    repeat (rewrite bool_decide_eq_false_2 by lia).
    rewrite bool_decide_eq_true_2 by lia.
    repeat (rewrite bool_decide_eq_false_2 by lia).
    change (5 - 3)%nat with 2%nat.
    destruct (candidates_of_lookup bm 3 c c 2) as [_ ->]; [lia| |].
    + unfold is_bytes in Hc. eapply Forall_impl; [exact Hc|].
      intros x Hx. simpl. unfold bm. rewrite call_byte_matches by done.
      by destruct (bool_decide (x ∈ a)), (bool_decide (x ∈ b')),
        (bool_decide (x ∈ c)).
    + rewrite common_self. lia.
  - unfold supermap_add.
    rewrite lookup_total_insert_eq.
    by rewrite !lookup_total_insert_ne by done.
  - unfold supermap_add.
    rewrite lookup_total_insert_eq.
    by rewrite !lookup_total_insert_ne by done.
Qed.

Lemma to_bytes8_bytes (x : Z) : is_bytes (to_bytes8 x).
Proof.
  unfold is_bytes, to_bytes8. apply Forall_fmap, Forall_true. intros i. simpl.
  change 255 with (Z.ones 8). rewrite Z.land_ones by lia.
  apply Z.mod_pos_bound. lia.
Qed.

Lemma hash_self_bytes `{Externals} (node : Node) (white_list : gset nat) :
  is_bytes (hash_self node white_list).2.
Proof.
  unfold hash_self.
  destruct ((start_line node =? 0)%nat || negb (bool_decide (nid node ∈ white_list)));
    [constructor|].
  apply Forall_app. split; apply to_bytes8_bytes.
Qed.

(** The own sketch depends on the token and the roles only. *)
Lemma hash_self_token `{Externals} (n1 n2 : Node) (wl1 wl2 : gset nat) :
  start_line n1 <> 0%nat -> nid n1 ∈ wl1 ->
  start_line n2 <> 0%nat -> nid n2 ∈ wl2 ->
  token n1 = token n2 -> roles n1 = roles n2 ->
  hash_self n1 wl1 = hash_self n2 wl2.
Proof.
  intros Hs1 Hw1 Hs2 Hw2 Ht Hr. unfold hash_self.
  destruct (start_line n1 =? 0)%nat eqn:H1; [by apply Nat.eqb_eq in H1|].
  destruct (start_line n2 =? 0)%nat eqn:H2; [by apply Nat.eqb_eq in H2|].
  rewrite !bool_decide_eq_true_2 by done. cbn [orb negb]. by rewrite Ht, Hr.
Qed.

(** A sample holds elements of the population only. *)
Lemma np_random_choice_Forall `{Externals} {A} (P : A -> Prop) (g g' : rng)
    (a c : list A) (size : Z) :
  Forall P a -> np_random_choice g a size = Ok (c, g') -> Forall P c.
Proof.
  intros Ha. unfold np_random_choice.
  destruct ((size <? 0) || (Z.of_nat (length a) <? size)); [done|].
  intros [= <- _]. apply Forall_forall. intros x Hx.
  apply list_elem_of_omap in Hx as (i & _ & Hi).
  apply list_elem_of_lookup_2 in Hi. by apply (proj1 (Forall_forall _ _) Ha).
Qed.

(** [hash_node] on a tree of the shape of the call example, in a round whose
    draw of 6 of the sorted bytes of the second argument is [c]: the mapping
    holds the last two arguments and the call, whose fingerprint is [c]. *)
Lemma call_round `{Externals} (i0 i1 i2 i3 i4 : nat) (t4 : bytes) (wl : gset nat)
    (seed : Z) (g g0 : rng) (fa c : bytes) :
  0 <= seed < 2 ^ 32 ->
  i0 ∈ wl -> i1 ∉ wl -> i2 ∉ wl -> i3 ∈ wl -> i4 ∈ wl ->
  i3 <> i4 -> i3 <> i0 -> i4 <> i0 ->
  hash_self (mkNode i3 [98] [2] 2 2 []) wl = (1, fa) ->
  np_random_choice (np_seed seed) (merge_sort Z.le fa) 6 = Ok (c, g0) ->
  exists fb,
    hash_node (mkNode i0 [] [1] 1 3
                 [mkNode i1 [102] [2] 1 1 []; mkNode i2 [97] [2] 1 1 [];
                  mkNode i3 [98] [2] 2 2 []; mkNode i4 t4 [2] 3 3 []])
              seed [] wl g
    = Ok ((3, c), [(i3, fa); (i4, fb); (i0, c)], g0)
    /\ is_bytes fb.
Proof.
  intros Hseed Hw0 Hw1 Hw2 Hw3 Hw4 H34 H30 H40 H3 Hc.
  destruct (hash_self_in (mkNode i4 t4 [2] 3 3 []) wl) as (fb & H4 & _);
    [done|done|].
  destruct (hash_self_in (mkNode i0 [] [1] 1 3
                 [mkNode i1 [102] [2] 1 1 []; mkNode i2 [97] [2] 1 1 [];
                  mkNode i3 [98] [2] 2 2 []; mkNode i4 t4 [2] 3 3 []]) wl)
    as (f0 & H0 & _); [done|done|].
  assert (hash_self (mkNode i1 [102] [2] 1 1 []) wl = (0, [])) as H1
    by (by apply hash_self_out).
  assert (hash_self (mkNode i2 [97] [2] 1 1 []) wl = (0, [])) as H2
    by (by apply hash_self_out).
  exists fb. split; cycle 1.
  { pose proof (hash_self_bytes (mkNode i4 t4 [2] 3 3 []) wl) as Hb.
    by rewrite H4 in Hb. }
  cbn -[hash_self hash_inner dict_set].
  rewrite H1, H2, H3, H4, H0. cbn -[hash_inner dict_set].
  unfold hash_inner. cbn [nid fmap list_fmap fst].
  rewrite bool_decide_eq_true_2 by done. cbn [negb].
  change (filter (fun w : Z => 0 < w) [0; 0; 1; 1; 1]) with [1; 1; 1].
  cbn [list_eq_int].
  change (sum [1; 1; 1]) with 3.
  change ((fun w : Z => 1 `max` ((w * HASH_SIZE) `div` 3)) <$> [1; 1; 1])
    with [5; 5; 5].
  change (HASH_SIZE - sum [5; 5; 5]) with 1. cbn [Z.eqb Pos.eqb].
  change (balance seed [5; 5; 5] 1 g) with (Ok ([5; 5; 6], g) : res _).
  cbn [mbind res_bind zip zip_with sample_entries fst snd Z.eqb].
  unfold np_random_seed.
  destruct ((0 <=? seed) && (seed <? 2 ^ 32)) eqn:Hs; [|lia].
  cbn [mbind res_bind]. rewrite Hc.
  cbn [mbind res_bind hstack concat]. rewrite app_nil_r.
  repeat first [progress cbn [dict_set]
               | rewrite (proj2 (Nat.eqb_neq _ _)) by done].
  reflexivity.
Qed.

Lemma call_invariant_init (nseeds : Z) : call_invariant nseeds 0 rounds_init.
Proof.
  unfold call_invariant. cbn [dists rounds_init supermap1 supermap2].
  split; [split; [reflexivity|repeat constructor]|].
  split; [unfold entry; cbn; lia|].
  rewrite !lookup_total_empty. split; [done|]. split; [done|]. lia.
Qed.

(** One hash round on the call example keeps the invariant. *)
Lemma call_hash_round `{Externals} (nseeds : Z) (k : nat) (st : rounds)
    (g : rng) (seed : Z) :
  0 <= seed < 2 ^ 32 -> call_invariant nseeds k st ->
  exists st' g',
    hash_round Examples.call_before Examples.call_after
               Examples.call_white_list1 Examples.call_white_list2 nseeds
               (st, g) seed
    = Ok (st', g')
    /\ call_invariant nseeds (S k) st'.
Proof.
  intros Hseed (Hsq & Hentry & Hsuper & Hlen & _).
  destruct (hash_self_in (mkNode 4 [98] [2] 2 2 []) Examples.call_white_list1)
    as (fa & Ha & Hlena); [done|by vm_compute|].
  assert (hash_self (mkNode 14 [98] [2] 2 2 []) Examples.call_white_list2 = (1, fa))
    as Ha'.
  { rewrite <- Ha. by apply hash_self_token; try done; vm_compute. }
  assert (is_bytes fa) as Hfa.
  { pose proof (hash_self_bytes (mkNode 4 [98] [2] 2 2 []) Examples.call_white_list1)
      as Hb. by rewrite Ha in Hb. }
  destruct (np_random_choice_ok (np_seed seed) (merge_sort Z.le fa) 6)
    as (c & Hc & Hlenc); [rewrite merge_sort_length; lia|].
  set (g0 := (np_permutation (np_seed seed) (length (merge_sort Z.le fa))).2) in *.
  assert (is_bytes c) as Hfc.
  { eapply np_random_choice_Forall; [|exact Hc]. unfold is_bytes.
    by rewrite merge_sort_Permutation. }
  destruct (call_round 1 2 3 4 5 [99] Examples.call_white_list1 seed g g0 fa c)
    as (fb & Hbefore & Hfb); [done|by vm_compute..|done|done|done|done|done|].
  destruct (call_round 11 12 13 14 15 [100; 101; 108; 116; 97]
                       Examples.call_white_list2 seed g0 g0 fa c)
    as (fb' & Hafter & Hfb'); [done|by vm_compute..|done|done|done|done|done|].
  destruct (accumulate_call nseeds st fa fb fb' c _ Hfa Hfb Hfb' Hfc eq_refl Hsq)
    as (st' & d' & Hacc & Hd' & Hsq' & Hentry' & Hs1 & Hs2 & Hlast).
  exists st', g0.
  split.
  - unfold hash_round, Examples.call_before, Examples.call_after. cbn [fst snd].
    rewrite Hbefore. cbn [mbind res_bind]. rewrite Hafter. cbn [mbind res_bind].
    by rewrite Hacc.
  - unfold call_invariant. rewrite Hd'. split; [done|].
    split; [rewrite Hentry', Hentry, Hlenc; lia|].
    split; [by rewrite Hs1, Hs2, Hsuper|].
    split; [rewrite Hs1, length_app, Hlen, Hlenc; lia|].
    intros _. split; [done|]. by rewrite Hlast.
Qed.

Lemma call_hash_rounds_from `{Externals} (nseeds : Z) (n k : nat) (st : rounds)
    (g : rng) :
  Z.of_nat (k + n) <= 2 ^ 32 -> call_invariant nseeds k st ->
  exists st' g',
    foldM (hash_round Examples.call_before Examples.call_after
                      Examples.call_white_list1 Examples.call_white_list2 nseeds)
          (Z.of_nat <$> seq k n) (st, g)
    = Ok (st', g')
    /\ call_invariant nseeds (k + n) st'.
Proof.
  revert k st g. induction n as [|n IH]; intros k st g Hk Hinv.
  - exists st, g. split; [done|]. by rewrite Nat.add_0_r.
  - destruct (call_hash_round nseeds k st g (Z.of_nat k)) as (st1 & g1 & Hround & Hinv1);
      [lia|done|].
    destruct (IH (S k) st1 g1) as (st' & g' & Hrest & Hinv'); [lia|done|].
    exists st', g'. split.
    + cbn [seq fmap list_fmap foldM]. rewrite Hround. exact Hrest.
    + by replace (k + S n)%nat with (S k + n)%nat by lia.
Qed.

Lemma py_range_from_zero (n : Z) : py_range 0 n = Z.of_nat <$> seq 0 (Z.to_nat n).
Proof. unfold py_range. by rewrite Z.sub_0_r. Qed.

(** With the threshold of the program a distance is above it when it is
    greater than [8 * nseeds]. *)
Lemma exceeds_threshold (nseeds d : Z) :
  exceeds threshold nseeds d = true <-> 8 * nseeds < d.
Proof.
  unfold exceeds. rewrite negb_true_iff, <- not_true_iff_false, Qle_bool_iff.
  unfold Qle, threshold, Qmult, inject_Z. cbn [Qnum Qden]. lia.
Qed.

(** A comprehension whose test never raises returns, and keeps every
    element that passes the test. *)
Lemma filterM_total {A} (test : A -> res bool) (l : list A) :
  Forall (fun x => is_ok (test x)) l ->
  exists l', filterM test l = Ok l'
             /\ forall x, x ∈ l -> test x = Ok true -> x ∈ l'.
Proof.
  induction 1 as [|x l Hx _ (l' & Hl' & Hin)].
  - exists []. split; [done|]. set_solver.
  - cbn [filterM]. destruct (test x) as [keep|] eqn:Htest; [|done].
    rewrite Hl'. cbn [mbind res_bind]. eexists. split; [reflexivity|].
    intros y [->|Hy]%elem_of_cons Hy'.
    + assert (keep = true) as -> by congruence. set_solver.
    + destruct keep; set_solver.
Qed.

(** C7 (the code on the failing input): on the call example, for every hash
    function, generator and number of rounds, the hash rounds succeed, the
    supersketches of the call before and of the call after are equal
    ([6 * nseeds] bytes each, not [16 * nseeds]) and their distance is
    [10 * nseeds], above the threshold [8 * nseeds].  So whenever the solver
    pairs the two calls (index 2 with index 5; [call_example_script] shows a
    solver that has no other choice) the pair is in [deleted] and in [exact]
    at once. *)
Theorem partition_violated `{Externals} (nseeds : Z) (g : rng) :
  0 < nseeds <= 2 ^ 32 ->
  exists st g' d,
    hash_rounds Examples.call_before Examples.call_after
                Examples.call_white_list1 Examples.call_white_list2 nseeds g
    = Ok (st, g')
    /\ dists st = Some d
    /\ (fun maps : dict * dict => (maps.1.*1, maps.2.*1)) <$> last_maps st
       = Some ([4; 5; 1]%nat, [14; 15; 11]%nat)
    /\ matrix_get d 2 5 = Ok (10 * nseeds)
    /\ supermap1 st !!! 1%nat = supermap2 st !!! 11%nat
    /\ Z.of_nat (length (supermap1 st !!! 1%nat)) = 6 * nseeds
    /\ forall r0 r1 rest,
         (r0 < 6)%nat -> (r1 < 6)%nat ->
         exists deleted exact,
           deleted_set threshold nseeds d 3 (r0 :: r1 :: 5%nat :: rest) = Ok deleted
           /\ exact_set (supermap1 st) (supermap2 st) [4; 5; 1]%nat
                        [14; 15; 11]%nat (r0 :: r1 :: 5%nat :: rest)
              = Ok exact
           /\ (2%nat, 5%nat) ∈ deleted /\ (2%nat, 5%nat) ∈ exact.
Proof.
  intros Hn.
  destruct (call_hash_rounds_from nseeds (Z.to_nat nseeds) 0 rounds_init g)
    as (st & g' & Hrounds & Hsq & Hentry & Hsuper & Hlen & Hlast);
    [lia|apply call_invariant_init|].
  destruct Hlast as [[d Hd] Hkeys]; [lia|]. rewrite Hd in Hsq, Hentry.
  assert (matrix_get d 2 5 = Ok (10 * nseeds)) as Hget.
  { rewrite (matrix_get_entry 6) by (done || lia). f_equal.
    rewrite Hentry. unfold HASH_SIZE. lia. }
  exists st, g', d. split.
  { unfold hash_rounds. by rewrite py_range_from_zero. }
  split; [done|]. split; [done|]. split; [done|]. split; [done|].
  split; [lia|].
  intros r0 r1 rest Hr0 Hr1.
  unfold deleted_set, exact_set, assignment.
  change (length [4; 5; 1]%nat) with 3%nat.
  change (enumerate (take 3 (r0 :: r1 :: 5%nat :: rest)))
    with [(0, r0); (1, r1); (2, 5)]%nat.
  destruct (filterM_total (deleted_test threshold nseeds d 3)
                          [(0, r0); (1, r1); (2, 5)]%nat)
    as (deleted & -> & Hdel).
  { repeat constructor; unfold deleted_test; cbn [fst snd].
    - destruct (r0 <? 3)%nat; [done|].
      by rewrite (matrix_get_entry 6) by (done || lia).
    - destruct (r1 <? 3)%nat; [done|].
      by rewrite (matrix_get_entry 6) by (done || lia).
    - by rewrite Hget. }
  match goal with
  | |- context [filterM ?test [(0, r0); (1, r1); (2, 5)]%nat] =>
      destruct (filterM_total test [(0, r0); (1, r1); (2, 5)]%nat)
        as (exact & -> & Hex)
  end.
  { repeat constructor; cbn [fst snd].
    - do 6 (destruct r0 as [|r0]; [done|]). lia.
    - do 6 (destruct r1 as [|r1]; [done|]). lia. }
  exists (list_to_set deleted), (list_to_set exact).
  split; [done|]. split; [done|].
  split; apply elem_of_list_to_set.
  - apply Hdel; [set_solver|]. unfold deleted_test. cbn [fst snd Nat.ltb Nat.leb].
    rewrite Hget. cbn [mbind res_bind]. f_equal. apply exceeds_threshold. lia.
  - apply Hex; [set_solver|]. cbn [Nat.leb].
    change (getitem [4; 5; 1]%nat (Z.of_nat 2)) with (Ok 1%nat).
    change (getitem [14; 15; 11]%nat (Z.of_nat 5 - Z.of_nat 3)) with (Ok 11%nat).
    cbn [mbind res_bind]. f_equal. by apply bool_decide_eq_true_2.
Qed.

Lemma partition_violated_witness :
  0 < 10 <= 2 ^ 32
  /\ exists st g' d,
       hash_rounds (H := Reference.externals) Examples.call_before
                   Examples.call_after Examples.call_white_list1
                   Examples.call_white_list2 10 (0 : Z)
       = Ok (st, g')
       /\ dists st = Some d
       /\ (fun maps : dict * dict => (maps.1.*1, maps.2.*1)) <$> last_maps st
          = Some ([4; 5; 1]%nat, [14; 15; 11]%nat)
       /\ matrix_get d 2 5 = Ok (10 * 10)
       /\ supermap1 st !!! 1%nat = supermap2 st !!! 11%nat
       /\ Z.of_nat (length (supermap1 st !!! 1%nat)) = 6 * 10
       /\ forall r0 r1 rest,
            (r0 < 6)%nat -> (r1 < 6)%nat ->
            exists deleted exact,
              deleted_set threshold 10 d 3 (r0 :: r1 :: 5%nat :: rest)
              = Ok deleted
              /\ exact_set (supermap1 st) (supermap2 st) [4; 5; 1]%nat
                           [14; 15; 11]%nat (r0 :: r1 :: 5%nat :: rest)
                 = Ok exact
              /\ (2%nat, 5%nat) ∈ deleted /\ (2%nat, 5%nat) ∈ exact.
Proof.
  split; [lia|].
  apply (partition_violated (H := Reference.externals) 10 (0 : Z)). lia.
Defined.

(** ** Determinism *)

Section Determinism.
Context `{Externals}.

Lemma same_result_refl {A} (r : res (A * rng)) : same_result r r.
Proof. reflexivity. Qed.

Lemma same_result_bind {A B} (m1 m2 : res (A * rng))
    (k1 k2 : A * rng -> res (B * rng)) :
  same_result m1 m2 ->
  (forall a g1 g2, same_result (k1 (a, g1)) (k2 (a, g2))) ->
  same_result (m1 ≫= k1) (m2 ≫= k2).
Proof.
  unfold same_result. intros Hm Hk.
  destruct m1 as [[a1 g1]|e1], m2 as [[a2 g2]|e2]; cbn in *;
    try discriminate; [|by injection Hm as ->].
  injection Hm as ->. apply Hk.
Qed.

(** Every draw of the sampling loop follows a call of
    [numpy.random.seed(seed)]. *)
Lemma sample_entries_same seed entries (g1 g2 : rng) :
  same_result (sample_entries seed entries g1) (sample_entries seed entries g2).
Proof.
  revert g1 g2. induction entries as [|[h s] entries IH]; intros g1 g2.
  - reflexivity.
  - cbn [sample_entries]. destruct (h.1 =? 0); [apply IH|reflexivity].
Qed.

Lemma balance_same seed sample_sizes delta (g1 g2 : rng) :
  same_result (balance seed sample_sizes delta g1)
              (balance seed sample_sizes delta g2).
Proof.
  unfold balance.
  destruct (balance_loop _ _ _ _ _ _) as [[sizes d] possible].
  destruct possible; [|reflexivity].
  destruct (forallb _ _); reflexivity.
Qed.

Lemma hash_inner_same node seed mapping white_list inner_hashes (g1 g2 : rng) :
  same_result (hash_inner node seed mapping white_list inner_hashes g1)
              (hash_inner node seed mapping white_list inner_hashes g2).
Proof.
  unfold hash_inner.
  destruct (negb _); [reflexivity|].
  destruct (list_eq_int _ _); [reflexivity|].
  apply same_result_bind.
  - destruct (_ =? 0); [reflexivity|apply balance_same].
  - intros sizes g1' g2'. apply same_result_bind; [apply sample_entries_same|].
    intros choices g1'' g2''. destruct (hstack choices); reflexivity.
Qed.

Lemma hash_children_same cs seed white_list :
  Forall (fun c => forall mapping (g1 g2 : rng),
              same_result (hash_node c seed mapping white_list g1)
                          (hash_node c seed mapping white_list g2)) cs ->
  forall mapping (g1 g2 : rng),
    same_result (hash_children cs seed mapping white_list g1)
                (hash_children cs seed mapping white_list g2).
Proof.
  induction 1 as [|c cs Hc _ IH]; intros mapping g1 g2; [reflexivity|].
  rewrite !hash_children_cons. apply same_result_bind; [apply Hc|].
  intros [h mapping1] g1' g2'. apply same_result_bind; [apply IH|].
  intros [hs mapping2] g1'' g2''. reflexivity.
Qed.

(** The pair and the mapping that [hash_node] produces do not depend on
    the state of the generator at the call. *)
Lemma hash_node_same node seed white_list mapping (g1 g2 : rng) :
  same_result (hash_node node seed mapping white_list g1)
              (hash_node node seed mapping white_list g2).
Proof.
  revert mapping g1 g2.
  induction node as [i t r s e cs IH] using Node_ind. intros mapping g1 g2.
  destruct cs as [|c cs].
  - rewrite !hash_node_leaf. reflexivity.
  - rewrite !hash_node_inner. apply same_result_bind.
    + by apply hash_children_same.
    + intros [hs mapping1] g1' g2'. apply hash_inner_same.
Qed.

Lemma hash_round_same uast1 uast2 white_list1 white_list2 nseeds st seed
    (g1 g2 : rng) :
  same_result (hash_round uast1 uast2 white_list1 white_list2 nseeds (st, g1) seed)
              (hash_round uast1 uast2 white_list1 white_list2 nseeds (st, g2) seed).
Proof.
  unfold hash_round. cbn [fst snd].
  apply same_result_bind; [apply hash_node_same|].
  intros [h1 map1] g1' g2'. apply same_result_bind; [apply hash_node_same|].
  intros [h2 map2] g1'' g2''. destruct (accumulate _ _ _ _); reflexivity.
Qed.

Lemma hash_rounds_same uast1 uast2 white_list1 white_list2 nseeds (g1 g2 : rng) :
  same_result (hash_rounds uast1 uast2 white_list1 white_list2 nseeds g1)
              (hash_rounds uast1 uast2 white_list1 white_list2 nseeds g2).
Proof.
  unfold hash_rounds. generalize rounds_init as st. revert g1 g2.
  induction (py_range 0 nseeds) as [|seed seeds IH]; intros g1 g2 st;
    [reflexivity|].
  cbn [foldM]. apply same_result_bind; [apply hash_round_same|].
  intros st' g1' g2'. apply IH.
Qed.

Lemma match_nodes_same uast1 uast2 white_list1 white_list2 nseeds (g1 g2 : rng) :
  same_result (match_nodes uast1 uast2 white_list1 white_list2 nseeds g1)
              (match_nodes uast1 uast2 white_list1 white_list2 nseeds g2).
Proof.
  unfold match_nodes. apply same_result_bind; [apply hash_rounds_same|].
  intros st g1' g2'.
  destruct (last_maps st) as [[map1 map2]|]; [|reflexivity].
  destruct (dists st) as [d|]; [|reflexivity].
  destruct (compile_script _ _ _ _ _ _ _ _); reflexivity.
Qed.

End Determinism.



(** ** hash_node away from the defect

    When every node of a tree is positioned and in the white list, no entry
    of [inner_hashes] has weight 0, the sample sizes are paired with the
    entries they were computed for, and [hash_node] returns a fingerprint of
    [HASH_SIZE] bytes. *)

Lemma sum_acc (l : list Z) (a : Z) : foldl Z.add a l = a + sum l.
Proof.
  unfold sum. revert a. induction l as [|x l IH]; intros a; simpl; [lia|].
  rewrite (IH (a + x)), (IH (0 + x)). lia.
Qed.

Lemma sum_cons (x : Z) (l : list Z) : sum (x :: l) = x + sum l.
Proof. unfold sum at 1. simpl. rewrite sum_acc. lia. Qed.

Lemma sum_app (l1 l2 : list Z) : sum (l1 ++ l2) = sum l1 + sum l2.
Proof.
  induction l1 as [|x l1 IH]; simpl; [done|]. rewrite !sum_cons, IH. lia.
Qed.

Lemma sum_insert (l : list Z) (i : nat) (x y : Z) :
  l !! i = Some x -> sum (<[i := y]> l) = sum l - x + y.
Proof.
  revert i. induction l as [|z l IH]; intros [|i] Hi; simpl in *; try done.
  - injection Hi as ->. rewrite !sum_cons. lia.
  - rewrite !sum_cons, (IH i Hi). lia.
Qed.

Lemma sum_bound (l : list Z) (x : Z) :
  Forall (fun y => 0 <= y) l -> x ∈ l -> x <= sum l.
Proof.
  induction 1 as [|y l Hy Hl IH]; intros Hx; [by apply elem_of_nil in Hx|].
  rewrite sum_cons. apply elem_of_cons in Hx as [->|Hx].
  - assert (0 <= sum l); [|lia].
    clear -Hl. induction Hl as [|z l Hz _ IH]; [done|]. rewrite sum_cons. lia.
  - specialize (IH Hx). lia.
Qed.

Lemma sum_ones (l : list Z) : Forall (fun y => y = 1) l -> sum l = Z.of_nat (length l).
Proof.
  induction 1 as [|y l -> _ IH]; [done|]. rewrite sum_cons, IH. simpl length. lia.
Qed.

(** A pass of the balance loop keeps the number of sizes, keeps every size
    at least 1 and keeps [sum(sample_sizes) + delta]. *)
Lemma balance_pass_invariant ss2 fix_ sizes delta possible sizes' delta' possible' :
  fix_ = 1 \/ fix_ = -1 ->
  Forall (fun si : Z * nat => (si.2 < length sizes)%nat) ss2 ->
  Forall (fun s => 1 <= s) sizes ->
  balance_pass ss2 fix_ sizes delta possible = (sizes', delta', possible') ->
  length sizes' = length sizes
  /\ Forall (fun s => 1 <= s) sizes'
  /\ sum sizes' + delta' = sum sizes + delta.
Proof.
  intros Hfix. revert sizes delta possible.
  induction ss2 as [|[s i] ss2 IH]; intros sizes delta possible Hidx Hpos; simpl.
  - by intros [= <- <- <-].
  - apply Forall_cons in Hidx as [Hi Hidx]. simpl in Hi.
    destruct (lookup_lt_is_Some_2 sizes i Hi) as [x Hx].
    rewrite (list_lookup_total_correct _ _ _ Hx).
    assert (1 <= x) as Hx1.
    { rewrite Forall_forall in Hpos. apply Hpos.
      by apply list_elem_of_lookup_2 in Hx. }
    destruct ((x <? 2) && (fix_ <? 0)) eqn:Hskip; [by apply IH|].
    assert (Forall (fun s0 => 1 <= s0) (<[i := x + fix_]> sizes)) as Hpos'.
    { apply Forall_insert; [done|].
      apply andb_false_iff in Hskip as [Hskip|Hskip]; lia. }
    assert (sum (<[i := x + fix_]> sizes) = sum sizes + fix_) as Hsum.
    { rewrite (sum_insert _ _ _ _ Hx). lia. }
    destruct (delta - fix_ =? 0).
    + intros [= <- <- <-]. rewrite length_insert. split; [done|].
      split; [done|]. lia.
    + intros Hpass. apply IH in Hpass as (Hlen & Hpos'' & Hsum'').
      * rewrite length_insert in Hlen. split; [done|]. split; [done|]. lia.
      * by rewrite length_insert.
      * done.
Qed.

(** A pass that leaves [possible] unset has met only sizes below 2, with a
    negative step. *)
Lemma balance_pass_stuck ss2 fix_ sizes delta sizes' delta' :
  balance_pass ss2 fix_ sizes delta false = (sizes', delta', false) ->
  sizes' = sizes /\ delta' = delta
  /\ (ss2 = [] \/ fix_ < 0)
  /\ Forall (fun si : Z * nat => sizes !!! si.2 < 2) ss2.
Proof.
  revert sizes delta. induction ss2 as [|[s i] ss2 IH]; intros sizes delta; simpl.
  - intros [= <- <-]. split; [done|]. split; [done|]. split; [by left|constructor].
  - destruct ((sizes !!! i <? 2) && (fix_ <? 0)) eqn:Hskip.
    + intros Hpass. apply IH in Hpass as (-> & -> & _ & Hall).
      apply andb_true_iff in Hskip as [H2 Hneg].
      split; [done|]. split; [done|]. split; [right; lia|].
      constructor; [simpl; lia|done].
    + destruct (delta - fix_ =? 0); [done|]. intros Hpass.
      assert (forall l s1 d1 s2 d2 p, balance_pass l fix_ s1 d1 true = (s2, d2, p)
                                      -> p = true) as Htrue.
      { clear. induction l as [|[s i] l IH]; intros s1 d1 s2 d2 p; simpl.
        - by intros [= _ _ <-].
        - destruct (_ && _); [apply IH|].
          destruct (_ =? 0); [by intros [= _ _ <-]|apply IH]. }
      by apply Htrue in Hpass.
Qed.

Lemma balance_loop_invariant fuel ss2 fix_ sizes delta possible sizes' delta' possible' :
  fix_ = 1 \/ fix_ = -1 ->
  delta = 0 \/ toward fix_ delta ->
  Forall (fun si : Z * nat => (si.2 < length sizes)%nat) ss2 ->
  Forall (fun s => 1 <= s) sizes ->
  balance_loop fuel ss2 fix_ sizes delta possible = (sizes', delta', possible') ->
  length sizes' = length sizes
  /\ Forall (fun s => 1 <= s) sizes'
  /\ sum sizes' + delta' = sum sizes + delta
  /\ (delta' = 0 \/ toward fix_ delta').
Proof.
  intros Hfix. revert sizes delta possible.
  induction fuel as [|fuel IH]; intros sizes delta possible Hto Hidx Hpos; simpl.
  - destruct (negb (delta =? 0) && possible); by intros [= <- <- <-].
  - destruct (negb (delta =? 0) && possible) eqn:Hcond;
      [|by intros [= <- <- <-]].
    destruct Hto as [->|Hto]; [done|].
    destruct (balance_pass ss2 fix_ sizes delta false)
      as [[sizes1 delta1] possible1] eqn:Hpass.
    destruct (balance_pass_invariant _ _ _ _ _ _ _ _ Hfix Hidx Hpos Hpass)
      as (Hlen1 & Hpos1 & Hsum1).
    destruct (balance_pass_progress _ _ _ _ _ _ _ _ Hto Hpass) as [Hto1 _].
    intros Hloop. apply IH in Hloop as (Hlen & Hpos' & Hsum & Hto').
    + split; [congruence|]. split; [done|]. split; [lia|done].
    + done.
    + by rewrite Hlen1.
    + done.
Qed.

(** When the loop ends with [possible] unset, the step is negative, every
    size the pass looks at is below 2 and [delta] is not zero. *)
Lemma balance_loop_stuck fuel ss2 fix_ sizes delta sizes' delta' :
  balance_loop fuel ss2 fix_ sizes delta true = (sizes', delta', false) ->
  (ss2 = [] \/ fix_ < 0)
  /\ Forall (fun si : Z * nat => sizes' !!! si.2 < 2) ss2
  /\ delta' <> 0.
Proof.
  revert sizes delta. induction fuel as [|fuel IH]; intros sizes delta; simpl.
  - destruct (negb (delta =? 0)); simpl; by intros [= <- <-].
  - destruct (negb (delta =? 0)) eqn:Hzero; simpl; [|by intros [= <- <-]].
    destruct (balance_pass ss2 fix_ sizes delta false)
      as [[sizes1 delta1] possible1] eqn:Hpass.
    destruct possible1; [apply IH|].
    apply balance_pass_stuck in Hpass as (-> & -> & Hfix & Hall).
    assert (balance_loop fuel ss2 fix_ sizes delta false = (sizes, delta, false))
      as ->.
    { destruct fuel; simpl; by rewrite andb_false_r. }
    intros [= <- <-]. split; [done|]. split; [done|].
    apply negb_true_iff in Hzero. lia.
Qed.

Lemma foldl_insert_ones (l : list nat) (acc : list Z) :
  NoDup l ->
  Forall (fun i => acc !! i = Some 0) l ->
  let out := foldl (fun sizes i => <[i := 1]> sizes) acc l in
  length out = length acc
  /\ sum out = sum acc + Z.of_nat (length l)
  /\ (forall j, j ∉ l -> out !! j = acc !! j)
  /\ (Forall (fun s => 0 <= s) acc -> Forall (fun s => 0 <= s) out).
Proof.
  revert acc. induction l as [|i l IH]; intros acc Hnd Hzero; simpl.
  - repeat split; try done. lia.
  - apply NoDup_cons in Hnd as [Hi Hnd]. apply Forall_cons in Hzero as [Hi0 Hzero].
    destruct (IH (<[i := 1]> acc)) as (Hlen & Hsum & Hother & Hpos); [done| |].
    + eapply Forall_impl; [apply Forall_and; split; [exact Hzero|]|].
      * apply Forall_forall. intros j Hj. exact Hj.
      * intros j [Hj0 Hj]. simpl in *.
        rewrite list_lookup_insert_ne; [done|]. intros ->. done.
    + rewrite length_insert in Hlen. rewrite (sum_insert _ _ _ _ Hi0) in Hsum.
      split; [done|]. split; [lia|]. split.
      * intros j Hj. rewrite Hother by set_solver.
        apply list_lookup_insert_ne. set_solver.
      * intros Hacc. apply Hpos. apply Forall_insert; [done|lia].
Qed.

Lemma omap_seq_lookup (m : nat) (l : list nat) :
  Forall (fun i => (i < m)%nat) l -> omap (fun i => seq 0 m !! i) l = l.
Proof.
  induction 1 as [|i l Hi _ IH]; [done|].
  cbn. rewrite (lookup_seq_lt 0 m i Hi). cbn. by rewrite IH.
Qed.

(** A sample of [range(m)] holds distinct indices below [m]. *)
Lemma np_random_choice_range `{Externals} (g g' : rng) (m : nat) size c :
  np_random_choice g (seq 0 m) size = Ok (c, g') ->
  NoDup c /\ Forall (fun i => (i < m)%nat) c /\ length c = Z.to_nat size.
Proof.
  intros Hc. pose proof (np_random_choice_length _ _ _ _ _ Hc) as Hlen.
  unfold np_random_choice in Hc.
  destruct ((size <? 0) || (Z.of_nat (length (seq 0 m)) <? size)); [done|].
  rewrite length_seq in Hc. injection Hc as <- _.
  pose proof (np_permutation_perm g m) as Hperm.
  assert (Forall (fun i => (i < m)%nat) (np_permutation g m).1) as Hlt.
  { rewrite Hperm. apply Forall_forall. intros i Hi. apply elem_of_seq in Hi. lia. }
  rewrite omap_seq_lookup in * by (by apply Forall_take).
  split; [|split; [by apply Forall_take|done]].
  eapply sublist_NoDup; [|apply sublist_take].
  rewrite Hperm. apply NoDup_seq.
Qed.

Lemma sum_replicate_zero (n : nat) : sum (replicate n 0) = 0.
Proof. induction n as [|n IH]; [done|]. simpl. by rewrite sum_cons, IH. Qed.

(** The emergency allocation succeeds on 17 sizes or more, and gives one
    sample to 16 entries. *)
Lemma emergency_sizes_ok `{Externals} (seed : Z) (sizes : list Z) :
  0 <= seed < 2 ^ 32 -> (17 <= length sizes)%nat ->
  exists sizes' g',
    emergency_sizes seed sizes = Ok (sizes', g')
    /\ length sizes' = length sizes
    /\ Forall (fun s => 0 <= s) sizes'
    /\ sum sizes' = 16.
Proof.
  intros Hseed Hn. unfold emergency_sizes, np_random_seed.
  destruct ((0 <=? seed) && (seed <? 2 ^ 32)) eqn:Hs; [|lia].
  cbn [mbind res_bind].
  destruct (np_random_choice_ok (np_seed seed) (seq 0 (length sizes - 1)) 15)
    as (c & Hc & _); [rewrite length_seq; lia|].
  rewrite Hc. cbn [mbind res_bind].
  apply np_random_choice_range in Hc as (Hnd & Hlt & Hlen).
  destruct (foldl_insert_ones c (replicate (length sizes) 0) Hnd)
    as (Hlen' & Hsum & Hother & Hpos).
  { eapply Forall_impl; [exact Hlt|]. intros i Hi. simpl in Hi.
    apply lookup_replicate_2. lia. }
  rewrite length_replicate in Hlen'. rewrite sum_replicate_zero, Hlen in Hsum.
  set (chosen := foldl _ _ c) in *.
  destruct chosen as [|x chosen'] eqn:Hchosen; [simpl in Hlen'; lia|].
  rewrite <- Hchosen in *. clear Hchosen x chosen'.
  eexists _, _. split; [reflexivity|]. rewrite length_insert.
  split; [done|]. split.
  - apply Forall_insert; [|lia]. apply Hpos.
    apply Forall_forall. intros x Hx. apply elem_of_replicate in Hx. lia.
  - rewrite (sum_insert _ _ 0).
    + rewrite Hsum. lia.
    + rewrite Hother, Hlen'.
      * apply lookup_replicate_2. lia.
      * rewrite Hlen'. intros Hin. rewrite Forall_forall in Hlt.
        apply Hlt in Hin. lia.
Qed.

Lemma zip_seq_indices (sizes : list Z) :
  Forall (fun si : Z * nat => (si.2 < length sizes)%nat)
         (zip sizes (seq 0 (length sizes))).
Proof.
  apply Forall_forall. intros [s i] Hin. apply elem_of_zip_r, elem_of_seq in Hin.
  simpl. lia.
Qed.

Lemma zip_seq_covers (sizes : list Z) (j : nat) :
  (j < length sizes)%nat -> exists s, (s, j) ∈ zip sizes (seq 0 (length sizes)).
Proof.
  intros Hj. destruct (lookup_lt_is_Some_2 sizes j Hj) as [s Hs].
  exists s. apply list_elem_of_lookup. exists j.
  rewrite lookup_zip_with, Hs, (lookup_seq_lt 0 _ j Hj). reflexivity.
Qed.

(** The balance step succeeds and leaves sizes that sum to [HASH_SIZE]. *)
Lemma balance_ok `{Externals} (seed : Z) (sizes : list Z) (delta : Z) (g : rng) :
  0 <= seed < 2 ^ 32 -> sizes <> [] -> Forall (fun s => 1 <= s) sizes ->
  delta <> 0 -> sum sizes + delta = 16 ->
  exists sizes' g',
    balance seed sizes delta g = Ok (sizes', g')
    /\ length sizes' = length sizes
    /\ Forall (fun s => 0 <= s) sizes'
    /\ sum sizes' = 16.
Proof.
  intros Hseed Hne Hpos Hdelta Hsum. unfold balance.
  set (ss2 := merge_sort pair_ge (zip sizes (seq 0 (length sizes)))).
  set (fix_ := if 0 <? delta then 1 else -1).
  assert (ss2 ≡ₚ zip sizes (seq 0 (length sizes))) as Hperm
    by apply merge_sort_Permutation.
  assert (fix_ = 1 \/ fix_ = -1) as Hfix
    by (unfold fix_; destruct (0 <? delta); auto).
  assert (toward fix_ delta) as Hto
    by (unfold toward, fix_; destruct (0 <? delta) eqn:?; lia).
  assert (Forall (fun si : Z * nat => (si.2 < length sizes)%nat) ss2) as Hidx
    by (rewrite Hperm; apply zip_seq_indices).
  destruct (balance_loop (Z.abs_nat delta) ss2 fix_ sizes delta true)
    as [[sizes' delta'] possible] eqn:Hloop.
  destruct (balance_loop_invariant _ _ _ _ _ _ _ _ _ Hfix (or_intror Hto)
              Hidx Hpos Hloop) as (Hlen & Hpos' & Hsum' & Hto').
  destruct possible.
  - destruct (balance_loop_exit _ _ _ _ _ _ _ _ _ (or_intror Hto) (le_n _) Hloop)
      as [->|?]; [|done].
    assert (forallb (fun s => 0 <? s) sizes' = true) as ->.
    { apply forallb_forall. intros s Hs. rewrite Forall_forall in Hpos'.
      apply list_elem_of_In, Hpos' in Hs. lia. }
    exists sizes', g. split; [done|]. split; [done|]. split; [|lia].
    eapply Forall_impl; [exact Hpos'|]. intros; simpl in *; lia.
  - apply balance_loop_stuck in Hloop as (Hempty & Hstuck & Hd').
    assert (fix_ < 0) as Hneg.
    { destruct Hempty as [Hempty|?]; [|done]. exfalso.
      apply (f_equal length) in Hempty. rewrite Hperm, length_zip, length_seq in Hempty.
      destruct sizes; simpl in *; [done|lia]. }
    assert (Forall (fun s => s = 1) sizes') as Hones.
    { apply Forall_lookup. intros j s Hs.
      assert (j < length sizes)%nat as Hj
        by (rewrite <- Hlen; by apply lookup_lt_Some in Hs).
      destruct (zip_seq_covers sizes j Hj) as [s0 Hin]. rewrite <- Hperm in Hin.
      rewrite Forall_forall in Hstuck. apply Hstuck in Hin. simpl in Hin.
      rewrite (list_lookup_total_correct _ _ _ Hs) in Hin.
      rewrite Forall_forall in Hpos'. apply list_elem_of_lookup_2, Hpos' in Hs. lia. }
    rewrite (sum_ones _ Hones) in Hsum'.
    destruct (emergency_sizes_ok seed sizes' Hseed) as (sizes'' & g' & -> & ? & ? & ?).
    + unfold toward in Hto'. lia.
    + exists sizes'', g'. repeat split; try done. congruence.
Qed.

(** When every entry has a weight and 16 bytes, and every size is between 0
    and 16, the sampling loop draws as many bytes as the sizes sum to. *)
Lemma sample_entries_ok `{Externals} (seed : Z) (inner : list (Z * bytes))
    (sizes : list Z) (g : rng) :
  0 <= seed < 2 ^ 32 ->
  length inner = length sizes ->
  Forall (fun h : Z * bytes => h.1 <> 0 /\ length h.2 = 16%nat) inner ->
  Forall (fun s => 0 <= s <= 16) sizes ->
  exists choices g',
    sample_entries seed (zip inner sizes) g = Ok (choices, g')
    /\ length choices = length sizes
    /\ Z.of_nat (length (concat choices)) = sum sizes.
Proof.
  intros Hseed. revert sizes g.
  induction inner as [|h inner IH]; intros [|s sizes] g Hlen Hinner Hsizes;
    try discriminate.
  - exists [], g. done.
  - apply Forall_cons in Hinner as [[Hw Hh] Hinner].
    apply Forall_cons in Hsizes as [Hs Hsizes].
    cbn [zip zip_with sample_entries]. destruct (h.1 =? 0) eqn:Hzero; [lia|].
    unfold np_random_seed.
    destruct ((0 <=? seed) && (seed <? 2 ^ 32)) eqn:Hseed'; [|lia].
    cbn [mbind res_bind].
    destruct (np_random_choice_ok (np_seed seed) (merge_sort Z.le h.2) s)
      as (c & -> & Hc); [rewrite merge_sort_length, Hh; lia|].
    cbn [mbind res_bind].
    match goal with
    | |- context [sample_entries seed _ ?g1] =>
        destruct (IH sizes g1) as (choices & g' & Hrest & Hlen' & Hsum);
        [by injection Hlen|done|done|]
    end.
    change (zip_with pair inner sizes) with (zip inner sizes).
    rewrite Hrest. cbn [mbind res_bind].
    exists (c :: choices), g'. split; [done|]. split; [simpl; by rewrite Hlen'|].
    simpl concat. rewrite length_app, sum_cons. lia.
Qed.

Lemma filter_positive_all (ws : list Z) :
  Forall (fun w => 0 < w) ws -> filter (fun w => 0 < w) ws = ws.
Proof.
  induction 1 as [|w ws Hw _ IH]; [done|].
  rewrite filter_cons_True by done. by rewrite IH.
Qed.

Lemma sum_positive (ws : list Z) :
  ws <> [] -> Forall (fun w => 0 < w) ws -> 0 < sum ws.
Proof.
  intros Hne Hpos. destruct Hpos as [|w ws Hw Hws]; [done|].
  rewrite sum_cons.
  assert (0 <= sum ws); [|lia].
  clear Hne Hw. induction Hws as [|z l Hz _ IH]; [done|]. rewrite sum_cons. lia.
Qed.

Lemma dict_set_full (mapping : dict) (k : nat) (fp : bytes) :
  full_fingerprints mapping -> length fp = 16%nat ->
  full_fingerprints (dict_set mapping k fp).
Proof.
  unfold full_fingerprints. intros Hm Hfp.
  induction Hm as [|[k' v'] mapping Hv Hm IH]; simpl.
  - by repeat constructor.
  - destruct (k' =? k)%nat; constructor; done.
Qed.

(** With entries that all have a weight and 16 bytes, the part of
    [hash_node] after the recursive calls returns the sum of the weights and
    a fingerprint of 16 bytes, which it records. *)
Lemma hash_inner_full `{Externals} (node : Node) (seed : Z) (mapping : dict)
    (white_list : gset nat) (inner : list (Z * bytes)) (g : rng) :
  0 <= seed < 2 ^ 32 ->
  nid node ∈ white_list ->
  inner <> [] ->
  Forall (fun h : Z * bytes => 0 < h.1 /\ length h.2 = 16%nat) inner ->
  full_fingerprints mapping ->
  exists w fp mapping' g',
    hash_inner node seed mapping white_list inner g = Ok ((w, fp), mapping', g')
    /\ 0 < w /\ length fp = 16%nat
    /\ full_fingerprints mapping' /\ (nid node, fp) ∈ mapping'.
Proof.
  intros Hseed Hin Hne Hinner Hfull. unfold hash_inner.
  rewrite bool_decide_eq_true_2 by done. cbn [negb list_eq_int].
  assert (Forall (fun w => 0 < w) inner.*1) as Hweights.
  { apply Forall_fmap. eapply Forall_impl; [exact Hinner|]. by intros h [? _]. }
  rewrite (filter_positive_all _ Hweights).
  set (weights := inner.*1) in *.
  assert (weights <> []) as Hwne by (unfold weights; by destruct inner).
  pose proof (sum_positive _ Hwne Hweights) as Htotal.
  set (sizes := (fun w => 1 `max` ((w * HASH_SIZE) `div` sum weights)) <$> weights).
  assert (Forall (fun s => 1 <= s) sizes) as Hpos.
  { apply Forall_fmap, Forall_forall. intros w _. simpl. lia. }
  assert (length sizes = length inner) as Hlen
    by (unfold sizes, weights; by rewrite !length_fmap).
  assert (exists sizes' g1,
             (if HASH_SIZE - sum sizes =? 0 then Ok (sizes, g)
              else balance seed sizes (HASH_SIZE - sum sizes) g)
             = Ok (sizes', g1)
             /\ length sizes' = length sizes
             /\ Forall (fun s => 0 <= s) sizes' /\ sum sizes' = 16)
    as (sizes' & g1 & -> & Hlen' & Hpos' & Hsum).
  { destruct (HASH_SIZE - sum sizes =? 0) eqn:Hdelta.
    - exists sizes, g. split; [done|]. split; [done|]. split.
      + eapply Forall_impl; [exact Hpos|]. intros; simpl in *; lia.
      + unfold HASH_SIZE in Hdelta. lia.
    - apply balance_ok; try done.
      + unfold sizes. by destruct weights.
      + lia.
      + unfold HASH_SIZE. lia. }
  cbn [mbind res_bind].
  destruct (sample_entries_ok seed inner sizes' g1 Hseed)
    as (choices & g2 & -> & Hclen & Hcsum); [congruence| | |].
  { eapply Forall_impl; [exact Hinner|]. intros h [? ?]. split; [lia|done]. }
  { apply Forall_forall. intros s Hs. split.
    - rewrite Forall_forall in Hpos'. by apply Hpos'.
    - rewrite <- Hsum. by apply sum_bound. }
  cbn [mbind res_bind].
  destruct choices as [|c choices].
  { simpl in Hclen. destruct inner; [done|]. simpl in *. lia. }
  cbn [hstack mbind res_bind].
  eexists _, _, _, _. split; [reflexivity|]. split; [done|].
  assert (length (concat (c :: choices)) = 16%nat) as Hfp by lia.
  split; [done|]. split; [by apply dict_set_full|apply dict_set_elem].
Qed.

Lemma hash_children_full `{Externals} (white_list : gset nat) (seed : Z)
    (cs : list Node) :
  Forall (fun c =>
            Forall (sketched white_list) (nodes c) ->
            forall mapping g,
              full_fingerprints mapping ->
              exists w fp mapping' g',
                hash_node c seed mapping white_list g = Ok ((w, fp), mapping', g')
                /\ 0 < w /\ length fp = 16%nat
                /\ full_fingerprints mapping' /\ (nid c, fp) ∈ mapping') cs ->
  Forall (sketched white_list) (forest_nodes cs) ->
  forall mapping g,
    full_fingerprints mapping ->
    exists hs mapping1 g1,
      hash_children cs seed mapping white_list g = Ok (hs, mapping1, g1)
      /\ Forall (fun h : Z * bytes => 0 < h.1 /\ length h.2 = 16%nat) hs
      /\ full_fingerprints mapping1.
Proof.
  induction 1 as [|c cs Hc _ IH]; intros Hall mapping g Hfull.
  - exists [], mapping, g. by repeat split.
  - unfold forest_nodes in Hall. simpl in Hall.
    apply Forall_app in Hall as [Hcall Hall].
    rewrite hash_children_cons.
    destruct (Hc Hcall mapping g Hfull)
      as (w & fp & m1 & g1 & -> & Hw & Hfp & Hm1 & _).
    cbn [mbind res_bind].
    destruct (IH Hall m1 g1 Hm1) as (hs & m2 & g2 & -> & Hhs & Hm2).
    cbn [mbind res_bind]. exists ((w, fp) :: hs), m2, g2.
    split; [done|]. split; [by constructor|done].
Qed.

(** On a tree whose nodes are all positioned and in the white list,
    [hash_node] does not raise: it returns a positive weight and a
    fingerprint of [HASH_SIZE] bytes, and records fingerprints of that
    length only. *)
Lemma hash_node_full `{Externals} (white_list : gset nat) (seed : Z) (node : Node) :
  0 <= seed < 2 ^ 32 ->
  Forall (sketched white_list) (nodes node) ->
  forall mapping g,
    full_fingerprints mapping ->
    exists w fp mapping' g',
      hash_node node seed mapping white_list g = Ok ((w, fp), mapping', g')
      /\ 0 < w /\ length fp = 16%nat
      /\ full_fingerprints mapping' /\ (nid node, fp) ∈ mapping'.
Proof.
  intros Hseed. induction node as [i t r s e cs IH] using Node_ind.
  intros Hall mapping g Hfull. cbn [nodes] in Hall.
  apply Forall_cons in Hall as [[Hline Hin] Hall].
  destruct (hash_self_in (mkNode i t r s e cs) white_list Hline Hin)
    as (fps & Hself & Hfps).
  destruct cs as [|c cs].
  - rewrite hash_node_leaf. cbn zeta. rewrite Hself. cbn [fst snd Z.ltb Z.compare].
    eexists _, _, _, _. split; [reflexivity|]. split; [done|]. split; [done|].
    split; [by apply dict_set_full|apply dict_set_elem].
  - rewrite hash_node_inner.
    destruct (hash_children_full white_list seed (c :: cs) IH Hall mapping g Hfull)
      as (hs & mapping1 & g1 & -> & Hhs & Hfull1).
    cbn [mbind res_bind]. rewrite Hself.
    apply hash_inner_full; try done.
    + by destruct hs.
    + apply Forall_app. split; [done|].
      apply Forall_cons. split; [|constructor]. split; [simpl; lia|done].
Qed.

(** ** Line2Nodes: what the index holds *)

Lemma append_node_lookup node ls lines lines' :
  NoDup ls -> Forall (fun l => (1 <= l)%nat) ls ->
  append_node node ls lines = Ok lines' ->
  forall l,
    lines' !! l
    = (fun cell => cell ++ (if bool_decide (S l ∈ ls) then [node] else []))
        <$> lines !! l.
Proof.
  revert lines. induction ls as [|line ls IH]; intros lines Hnd Hpos Happ l.
  - simpl in Happ. injection Happ as <-.
    rewrite bool_decide_eq_false_2 by set_solver.
    destruct (lines !! l); simpl; [by rewrite app_nil_r|done].
  - apply NoDup_cons in Hnd as [Hline Hnd]. apply Forall_cons in Hpos as [H1 Hpos].
    simpl in Happ.
    destruct (lines !! (line - 1)%nat) as [cell|] eqn:Hcell; [|done].
    rewrite (IH _ Hnd Hpos Happ l).
    destruct (decide (l = (line - 1)%nat)) as [->|Hne].
    + replace (S (line - 1)) with line by lia.
      rewrite list_lookup_insert_eq by (by eapply lookup_lt_Some).
      rewrite Hcell. simpl.
      rewrite (bool_decide_eq_false_2 (line ∈ ls)) by done.
      rewrite bool_decide_eq_true_2 by set_solver. by rewrite app_nil_r.
    + rewrite list_lookup_insert_ne by done.
      destruct (decide (S l ∈ ls)).
      * by rewrite !bool_decide_eq_true_2 by set_solver.
      * assert (S l ∉ line :: ls) by (intros [?|?]%elem_of_cons; [lia|done]).
        by rewrite !bool_decide_eq_false_2 by done.
Qed.

Lemma Line2Nodes_visit_lookup node lines lines' :
  Line2Nodes_visit node lines = Ok lines' ->
  forall l,
    lines' !! l = (fun cell => cell ++ filter (covers l) [node]) <$> lines !! l.
Proof.
  unfold Line2Nodes_visit. intros Hvisit l.
  destruct (0 <? start_line node)%nat eqn:Hpos.
  - apply Nat.ltb_lt in Hpos.
    assert (Forall (fun l => (1 <= l)%nat) (node_lines node)) as Hlines.
    { apply Forall_forall. intros x Hx%elem_of_seq. lia. }
    rewrite (append_node_lookup _ _ _ _ (NoDup_seq _ _) Hlines Hvisit l).
    unfold node_lines. rewrite filter_cons, filter_nil.
    destruct (decide (covers l node)) as [Hc|Hc]; unfold covers in Hc.
    + rewrite bool_decide_eq_true_2; [done|]. apply elem_of_seq. lia.
    + rewrite bool_decide_eq_false_2; [done|]. rewrite elem_of_seq. lia.
  - injection Hvisit as <-. apply Nat.ltb_ge in Hpos.
    rewrite filter_cons, filter_nil.
    destruct (decide (covers l node)) as [Hc|Hc]; [unfold covers in Hc; lia|].
    destruct (lines !! l); simpl; [by rewrite app_nil_r|done].
Qed.

Lemma visit_all_lookup order lines lines' :
  foldM (fun acc n => Line2Nodes_visit n acc) order lines = Ok lines' ->
  forall l,
    lines' !! l = (fun cell => cell ++ filter (covers l) order) <$> lines !! l.
Proof.
  revert lines. induction order as [|n order IH]; intros lines Hfold l.
  - simpl in Hfold. injection Hfold as <-.
    destruct (lines !! l); simpl; [by rewrite app_nil_r|done].
  - simpl in Hfold.
    destruct (Line2Nodes_visit n lines) as [lines1|] eqn:Hvisit; [|done].
    simpl in Hfold. rewrite (IH _ Hfold l), (Line2Nodes_visit_lookup _ _ _ Hvisit l).
    change (n :: order) with ([n] ++ order). rewrite filter_app.
    destruct (lines !! l); simpl; [by rewrite app_assoc|done].
Qed.

(** X1: when the line index is built it has one list for each line of the
    source, and the list of the line of index [l] holds exactly the nodes that
    are entered on that line (a position, and a line range that holds line
    [l + 1]), in the order in which the loop pops them: a node before its
    descendants, the subtree of a later child before that of an earlier one. *)
Theorem Line2Nodes_lines (nlines : nat) (root : Node) (lines : list (list Node)) :
  Line2Nodes nlines root = Ok lines ->
  length lines = nlines
  /\ forall l, (l < nlines)%nat ->
               lines !! l = Some (filter (covers l) (pop_order root)).
Proof.
  intros Hok. split.
  - destruct (Forall_dec_fits nlines (nodes root)) as [Hfit|Hfit].
    + destruct (Line2Nodes_ok _ _ Hfit) as (lines0 & Hok0 & Hlen). congruence.
    + rewrite (Line2Nodes_err _ _ Hfit) in Hok. discriminate.
  - intros l Hl. rewrite Line2Nodes_pop_order in Hok.
    rewrite (visit_all_lookup _ _ _ Hok l), lookup_replicate_2 by done.
    reflexivity.
Qed.

Lemma Line2Nodes_lines_witness :
  exists lines,
    Line2Nodes 4 Examples.call_before = Ok lines
    /\ length lines = 4%nat
    /\ forall l, (l < 4)%nat ->
                 lines !! l = Some (filter (covers l) (pop_order Examples.call_before)).
Proof.
  eexists. split; [reflexivity|].
  apply (Line2Nodes_lines 4 Examples.call_before). reflexivity.
Defined.

(** ** Line2Nodes: the open-interval operator *)

Lemma getitem_nat {A} (l : list A) (i : nat) :
  getitem l (Z.of_nat i)
  = match l !! i with Some x => Ok x | None => Raise IndexError end.
Proof.
  unfold getitem. cbn zeta.
  rewrite (proj2 (Z.ltb_ge (Z.of_nat i) 0)) by lia.
  rewrite Nat2Z.id, (proj2 (Z.leb_le 0 (Z.of_nat i))) by lia. cbn [andb].
  destruct (l !! i) as [x|] eqn:Hx.
  - apply lookup_lt_Some in Hx.
    by rewrite (proj2 (Z.ltb_lt _ _)) by lia.
  - apply lookup_ge_None in Hx.
    by rewrite (proj2 (Z.ltb_ge _ _)) by lia.
Qed.

Lemma py_range_nat (a b : nat) :
  py_range (Z.of_nat a) (Z.of_nat b) = Z.of_nat <$> seq a (b - a).
Proof.
  unfold py_range. replace (Z.to_nat (Z.of_nat b - Z.of_nat a)) with (b - a)%nat by lia.
  assert (forall n k, (fun k => Z.of_nat a + Z.of_nat k) <$> seq k n
                      = Z.of_nat <$> seq (a + k) n) as Hgen.
  { induction n as [|n IH]; intros k; [done|].
    cbn [seq fmap list_fmap]. f_equal; [lia|].
    rewrite IH. by replace (a + S k)%nat with (S (a + k)) by lia. }
  by rewrite Hgen, Nat.add_0_r.
Qed.

(** The loop [for l in range(a, b): nodes = nodes.union(...)] on lines that
    exist. *)
Lemma union_lines_ok (lines : list (list Node)) (a n : nat) (acc : gset nat) :
  (a + n <= length lines)%nat ->
  exists out,
    foldM (fun acc l => cell ← getitem lines l; Ok (acc ∪ ids cell))
          (Z.of_nat <$> seq a n) acc
    = Ok out
    /\ forall k, k ∈ out
                 <-> k ∈ acc \/ exists l, (a <= l < a + n)%nat /\ k ∈ ids (lines !!! l).
Proof.
  revert a acc. induction n as [|n IH]; intros a acc Hlen.
  - exists acc. split; [done|]. intros k. split; [auto|].
    intros [?|(l & ? & _)]; [done|lia].
  - cbn [seq fmap list_fmap foldM]. rewrite getitem_nat.
    destruct (lookup_lt_is_Some_2 lines a) as [cell Hcell]; [lia|].
    rewrite Hcell. cbn [mbind res_bind].
    destruct (IH (S a) (acc ∪ ids cell)) as (out & Hout & Hin); [lia|].
    exists out. split; [exact Hout|]. intros k. rewrite Hin, elem_of_union.
    rewrite <- (list_lookup_total_correct _ _ _ Hcell). split.
    + intros [[?|?]|(l & ? & ?)]; [by left|right; exists a|right; exists l];
        (split; [lia|done]).
    + intros [?|(l & Hl & Hk)]; [by left; left|].
      destruct (decide (l = a)) as [->|?]; [by left; right|].
      right. exists l. split; [lia|done].
Qed.

(** The same loop raises IndexError when the range leaves the lines. *)
Lemma union_lines_err (lines : list (list Node)) (a n : nat) (acc : gset nat) :
  (a <= length lines < a + n)%nat ->
  foldM (fun acc l => cell ← getitem lines l; Ok (acc ∪ ids cell))
        (Z.of_nat <$> seq a n) acc
  = Raise IndexError.
Proof.
  revert a acc. induction n as [|n IH]; intros a acc Hlen; [lia|].
  cbn [seq fmap list_fmap foldM]. rewrite getitem_nat.
  destruct (lines !! a) as [cell|] eqn:Hcell; [|done].
  cbn [mbind res_bind]. apply IH. apply lookup_lt_Some in Hcell. lia.
Qed.

(** X2: with a start and an end that are not negative, the open-interval
    operator returns a set exactly when the start is the index of a line and
    the end is at most the number of lines; otherwise it raises IndexError. *)
Theorem Line2Nodes_getitem_tuple_bounds (lines : list (list Node)) (s e : nat) :
  (is_ok (Line2Nodes_getitem_tuple lines (Z.of_nat s) (Z.of_nat e))
   <-> (s < length lines /\ e <= length lines)%nat)
  /\ (~ (s < length lines /\ e <= length lines)%nat ->
      Line2Nodes_getitem_tuple lines (Z.of_nat s) (Z.of_nat e) = Raise IndexError).
Proof.
  assert ((s < length lines /\ e <= length lines)%nat ->
          is_ok (Line2Nodes_getitem_tuple lines (Z.of_nat s) (Z.of_nat e))) as Hok.
  { intros [Hs He]. unfold Line2Nodes_getitem_tuple. rewrite (getitem_nat lines s).
    destruct (lookup_lt_is_Some_2 lines s Hs) as [first ->]. cbn [mbind res_bind].
    assert (exists nodes0,
               (if 0 <? Z.of_nat s
                then prev ← getitem lines (Z.of_nat s - 1); Ok (ids first ∖ ids prev)
                else Ok (ids first)) = Ok nodes0) as [nodes0 ->].
    { destruct (0 <? Z.of_nat s) eqn:Hpos; [|by eexists].
      replace (Z.of_nat s - 1) with (Z.of_nat (s - 1)) by lia.
      rewrite (getitem_nat lines (s - 1)).
      destruct (lookup_lt_is_Some_2 lines (s - 1)) as [prev ->]; [lia|].
      by eexists. }
    cbn [mbind res_bind].
    replace (Z.of_nat s + 1) with (Z.of_nat (S s)) by lia. rewrite py_range_nat.
    destruct (union_lines_ok lines (S s) (e - S s) nodes0) as (nodes1 & -> & _);
      [lia|].
    cbn [mbind res_bind].
    destruct (Z.of_nat e <? Z.of_nat (length lines)) eqn:Hend; [|done].
    rewrite (getitem_nat lines e).
    destruct (lookup_lt_is_Some_2 lines e) as [last ->]; [lia|]. done. }
  assert (~ (s < length lines /\ e <= length lines)%nat ->
          Line2Nodes_getitem_tuple lines (Z.of_nat s) (Z.of_nat e) = Raise IndexError)
    as Herr.
  { intros Hout. unfold Line2Nodes_getitem_tuple. rewrite (getitem_nat lines s).
    destruct (lines !! s) as [first|] eqn:Hfirst; [|done].
    apply lookup_lt_Some in Hfirst. cbn [mbind res_bind].
    assert (exists nodes0,
               (if 0 <? Z.of_nat s
                then prev ← getitem lines (Z.of_nat s - 1); Ok (ids first ∖ ids prev)
                else Ok (ids first)) = Ok nodes0) as [nodes0 ->].
    { destruct (0 <? Z.of_nat s) eqn:Hpos; [|by eexists].
      replace (Z.of_nat s - 1) with (Z.of_nat (s - 1)) by lia.
      rewrite (getitem_nat lines (s - 1)).
      destruct (lookup_lt_is_Some_2 lines (s - 1)) as [prev ->]; [lia|].
      by eexists. }
    cbn [mbind res_bind].
    replace (Z.of_nat s + 1) with (Z.of_nat (S s)) by lia. rewrite py_range_nat.
    rewrite union_lines_err by lia. done. }
  split; [split; [|exact Hok]|exact Herr].
  intros Hres. destruct (decide (s < length lines /\ e <= length lines)%nat)
    as [Hin|Hout]; [exact Hin|].
  rewrite (Herr Hout) in Hres. destruct Hres.
Qed.

(** X3: on a start that is the index of a line and an end that is at most the
    number of lines, the open-interval operator returns the nodes entered on
    the start line and not on the line before it, or entered on a line
    strictly between start and end, less the nodes entered on the end line
    when there is one.  So a node that reaches the start line from above
    is still returned when it also covers a later line of the interval, and
    the interval [(s, s)] selects no node. *)
Theorem Line2Nodes_getitem_tuple_spec (lines : list (list Node)) (s e : nat) :
  (s < length lines)%nat -> (e <= length lines)%nat ->
  exists nodes,
    Line2Nodes_getitem_tuple lines (Z.of_nat s) (Z.of_nat e) = Ok nodes
    /\ (forall k,
          k ∈ nodes
          <-> ((k ∈ ids (lines !!! s)
                /\ ((0 < s)%nat -> k ∉ ids (lines !!! (s - 1)%nat)))
               \/ exists l, (s < l < e)%nat /\ k ∈ ids (lines !!! l))
              /\ ((e < length lines)%nat -> k ∉ ids (lines !!! e)))
    /\ (e = s -> nodes = ∅).
Proof.
  intros Hs He. unfold Line2Nodes_getitem_tuple. rewrite (getitem_nat lines s).
  destruct (lookup_lt_is_Some_2 lines s Hs) as [first Hfirst].
  rewrite Hfirst. cbn [mbind res_bind].
  rewrite <- (list_lookup_total_correct _ _ _ Hfirst).
  set (nodes0 := if bool_decide (0 < s)%nat
                 then ids (lines !!! s) ∖ ids (lines !!! (s - 1)%nat)
                 else ids (lines !!! s)).
  assert ((if 0 <? Z.of_nat s
           then prev ← getitem lines (Z.of_nat s - 1);
                Ok (ids (lines !!! s) ∖ ids prev)
           else Ok (ids (lines !!! s))) = Ok nodes0) as ->.
  { unfold nodes0. destruct (0 <? Z.of_nat s) eqn:Hpos.
    - rewrite bool_decide_eq_true_2 by lia.
      replace (Z.of_nat s - 1) with (Z.of_nat (s - 1)) by lia.
      rewrite (getitem_nat lines (s - 1)).
      destruct (lookup_lt_is_Some_2 lines (s - 1)) as [prev Hprev]; [lia|].
      by rewrite Hprev, (list_lookup_total_correct _ _ _ Hprev).
    - by rewrite bool_decide_eq_false_2 by lia. }
  cbn [mbind res_bind].
  replace (Z.of_nat s + 1) with (Z.of_nat (S s)) by lia. rewrite py_range_nat.
  destruct (union_lines_ok lines (S s) (e - S s) nodes0) as (nodes1 & -> & Hin);
    [lia|].
  cbn [mbind res_bind].
  assert (forall k, k ∈ nodes0
                    <-> k ∈ ids (lines !!! s)
                        /\ ((0 < s)%nat -> k ∉ ids (lines !!! (s - 1)%nat))) as Hin0.
  { intros k. unfold nodes0. destruct (decide (0 < s)%nat).
    - rewrite bool_decide_eq_true_2 by done. set_solver.
    - rewrite bool_decide_eq_false_2 by done. split; [|tauto]. intros ?. split; [done|lia]. }
  assert (forall k, k ∈ nodes1
                    <-> (k ∈ ids (lines !!! s)
                         /\ ((0 < s)%nat -> k ∉ ids (lines !!! (s - 1)%nat)))
                        \/ exists l, (s < l < e)%nat /\ k ∈ ids (lines !!! l)) as Hin1.
  { intros k. rewrite Hin, Hin0. apply or_iff_compat_l.
    split; intros (l & Hl & Hk); exists l; (split; [lia|done]). }
  destruct (Z.of_nat e <? Z.of_nat (length lines)) eqn:Hend.
  - rewrite (getitem_nat lines e).
    destruct (lookup_lt_is_Some_2 lines e) as [last Hlast]; [lia|].
    rewrite Hlast. cbn [mbind res_bind].
    rewrite <- (list_lookup_total_correct _ _ _ Hlast).
    eexists. split; [reflexivity|]. split.
    + intros k. rewrite elem_of_difference, Hin1.
      apply and_iff_compat_l. split; [auto|]. intros H. apply H. lia.
    + intros ->. apply set_eq. intros k.
      rewrite elem_of_difference, Hin1. split; [|set_solver].
      intros [[[Hk _]|(l & Hl & _)] Hnot]; [done|lia].
  - exists nodes1. split; [reflexivity|]. split.
    + intros k. rewrite Hin1. split; [|tauto]. intros H. split; [done|lia].
    + intros ->. lia.
Qed.

Lemma Line2Nodes_getitem_tuple_spec_witness :
  (1 < length Examples.repeated_lines)%nat
  /\ (3 <= length Examples.repeated_lines)%nat
  /\ exists nodes,
       Line2Nodes_getitem_tuple Examples.repeated_lines (Z.of_nat 1) (Z.of_nat 3)
       = Ok nodes
       /\ (forall k,
             k ∈ nodes
             <-> ((k ∈ ids (Examples.repeated_lines !!! 1%nat)
                   /\ ((0 < 1)%nat
                       -> k ∉ ids (Examples.repeated_lines !!! (1 - 1)%nat)))
                  \/ exists l, (1 < l < 3)%nat
                               /\ k ∈ ids (Examples.repeated_lines !!! l))
                 /\ ((3 < length Examples.repeated_lines)%nat
                     -> k ∉ ids (Examples.repeated_lines !!! 3%nat)))
       /\ (3%nat = 1%nat -> nodes = ∅).
Proof.
  assert (1 < length Examples.repeated_lines)%nat as H1 by (vm_compute; lia).
  assert (3 <= length Examples.repeated_lines)%nat as H3 by (vm_compute; lia).
  split; [exact H1|]. split; [exact H3|].
  exact (Line2Nodes_getitem_tuple_spec Examples.repeated_lines 1 3 H1 H3).
Defined.

(** ** adjust_seqdiff: the ranges of the intervals *)

Lemma nonempty_true {A} (l : list A) : nonempty l = true <-> l <> [].
Proof. by destruct l. Qed.

Lemma scan_step_wellformed (st st' : scan) (line : string) :
  scan_wellformed st -> scan_step st line = Ok st' -> scan_wellformed st'.
Proof.
  intros (Hb & Ha & Hsb & Hsa & Hrm & Hadd & Hivs). unfold scan_step.
  destruct line as [|c rest]; [done|].
  destruct (Ascii.eqb c "+").
  { intros [= <-]. unfold scan_wellformed. cbn [line_before line_after
      intervals interval_add interval_rm interval_start_before
      interval_start_after].
    rewrite length_app. cbn [length].
    destruct (interval_add st) as [|x l] eqn:Hl; cbn [length Nat.eqb] in *.
    - repeat split; try lia; try tauto.
    - destruct Hadd as [? ?]; [done|].
      replace (length l + 1 =? 0)%nat with false by (symmetry; apply Nat.eqb_neq; lia).
      change (S (length l) =? 0)%nat with false.
      repeat split; try lia; try tauto. }
  destruct (Ascii.eqb c "-").
  { intros [= <-]. unfold scan_wellformed. cbn [line_before line_after
      intervals interval_add interval_rm interval_start_before
      interval_start_after].
    rewrite length_app. cbn [length].
    destruct (interval_rm st) as [|x l] eqn:Hl; cbn [length Nat.eqb] in *.
    - repeat split; try lia; try tauto.
    - destruct Hrm as [? ?]; [done|].
      change (S (length l) =? 0)%nat with false.
      repeat split; try lia; try tauto. }
  destruct (nonempty (interval_add st) || nonempty (interval_rm st)) eqn:Hrun.
  - intros [= <-]. unfold scan_wellformed. cbn [line_before line_after
      intervals interval_add interval_rm interval_start_before
      interval_start_after length].
    split; [lia|]. split; [lia|]. split; [lia|]. split; [lia|].
    split; [done|]. split; [done|].
    apply Forall_app. split; [done|]. constructor; [|constructor].
    unfold raw_wellformed. cbn [raw_add raw_rm raw_start_before raw_end_before
      raw_start_after raw_end_after].
    assert (interval_add st <> [] \/ interval_rm st <> []) as Hne.
    { apply orb_true_iff in Hrun as [H|H]; apply nonempty_true in H; tauto. }
    assert ((interval_rm st = [] /\ length (interval_rm st) = 0%nat)
            \/ (interval_rm st <> [] /\ 0 <= interval_start_before st
                /\ line_before st - interval_start_before st
                   = Z.of_nat (length (interval_rm st)))) as Hcase_rm.
    { destruct (nonempty (interval_rm st)) eqn:E.
      - apply nonempty_true in E. right. split; [done|]. by apply Hrm.
      - left. by destruct (interval_rm st). }
    assert ((interval_add st = [] /\ length (interval_add st) = 0%nat)
            \/ (interval_add st <> [] /\ 0 <= interval_start_after st
                /\ line_after st - interval_start_after st
                   = Z.of_nat (length (interval_add st)))) as Hcase_add.
    { destruct (nonempty (interval_add st)) eqn:E.
      - apply nonempty_true in E. right. split; [done|]. by apply Hadd.
      - left. by destruct (interval_add st). }
    clear Hrm Hadd Hrun.
    destruct (Z.ltb_spec (-1) (interval_start_before st));
      destruct (Z.ltb_spec (-1) (interval_start_after st));
      destruct Hcase_rm as [[Hr0 Hr1]|(Hr0 & Hr1 & Hr2)];
      destruct Hcase_add as [[Ha0 Ha1]|(Ha0 & Ha1 & Ha2)];
      (split; [lia|]); (split; [lia|]);
      (split; [intros ?; first [done|lia]|]);
      (split; [intros ?; first [done|lia]|]); exact Hne.
  - intros [= <-]. unfold scan_wellformed. cbn [line_before line_after
      intervals interval_add interval_rm interval_start_before
      interval_start_after].
    apply orb_false_iff in Hrun as [Hadd0 Hrm0].
    destruct (interval_add st); [|done]. destruct (interval_rm st); [|done].
    cbn [length] in *. repeat split; try lia; try done.
Qed.

Lemma scan_wellformed_fold (seqdiff : list string) (st st' : scan) :
  scan_wellformed st -> foldM scan_step seqdiff st = Ok st' -> scan_wellformed st'.
Proof.
  revert st. induction seqdiff as [|line seqdiff IH]; intros st Hst; simpl.
  - by intros [= <-].
  - destruct (scan_step st line) as [st1|] eqn:Hstep; [|done]. simpl.
    apply IH. by eapply scan_step_wellformed.
Qed.

(** X4: every raw interval that the first loop of [adjust_seqdiff] records
    has two line ranges that start at a line index that is not negative and
    end after at least as many lines as the run removed, respectively added;
    a range is exactly the removed (added) lines of the run when the run has
    such a line. *)
Theorem scan_seqdiff_wellformed (seqdiff : list string) (ivs : list raw_interval) :
  scan_seqdiff seqdiff = Ok ivs -> Forall raw_wellformed ivs.
Proof.
  unfold scan_seqdiff.
  destruct (foldM scan_step seqdiff scan_init) as [st|] eqn:Hscan; [|done].
  intros [= <-].
  assert (scan_wellformed scan_init) as Hinit.
  { unfold scan_wellformed, scan_init. simpl. repeat split; try lia; try done. }
  by destruct (scan_wellformed_fold _ _ _ Hinit Hscan) as (_ & _ & _ & _ & _ & _ & ?).
Qed.

Lemma scan_seqdiff_wellformed_witness :
  scan_seqdiff Examples.repeated_seqdiff = Ok [Examples.repeated_raw]
  /\ Forall raw_wellformed [Examples.repeated_raw].
Proof.
  split; [reflexivity|].
  apply (scan_seqdiff_wellformed Examples.repeated_seqdiff). reflexivity.
Defined.

Lemma count_neighbors_ge src_after end_after adds neighbors n :
  count_neighbors src_after end_after adds neighbors = Ok n -> neighbors <= n.
Proof.
  revert neighbors. induction adds as [|add adds IH]; intros neighbors;
    cbn [count_neighbors].
  - intros [= <-]. lia.
  - destruct (getitem src_after (end_after + neighbors)) as [line|]; [|done].
    cbn [mbind res_bind].
    destruct (String.eqb line (str_drop 2 add)).
    + intros H%IH. lia.
    + intros [= <-]. lia.
Qed.

Lemma adjust_interval_ordered src_after line2nodes (i : raw_interval) out :
  raw_wellformed i ->
  adjust_interval src_after line2nodes i = Ok out ->
  Forall interval_ordered out.
Proof.
  intros (Hb & Ha & _ & _ & _) Hadj.
  assert (Forall interval_ordered [raw_tail i]) as Htail.
  { constructor; [|constructor]. unfold interval_ordered, raw_tail. simpl. lia. }
  unfold adjust_interval in Hadj.
  destruct (at_most_one (raw_add i) && at_most_one (raw_rm i));
    [by injection Hadj as <-|].
  destruct (count_neighbors src_after (raw_end_after i) (raw_add i) 0)
    as [neighbors|] eqn:Hn; [|done].
  apply count_neighbors_ge in Hn. cbn [mbind res_bind] in Hadj.
  destruct (neighbors =? 0); [by injection Hadj as <-|].
  destruct (nodes_on_lines line2nodes (raw_start_after i) (raw_end_after i))
    as [ls1|]; [|done].
  cbn [mbind res_bind] in Hadj.
  destruct (nodes_on_lines line2nodes (raw_start_after i + neighbors)
                           (raw_end_after i + neighbors)) as [ls2|]; [|done].
  cbn [mbind res_bind] in Hadj.
  destruct (size ls1 =? size ls2)%nat;
    [by injection Hadj as <-|].
  injection Hadj as <-. apply Forall_app. split.
  - destruct (0 <? raw_end_before i - raw_start_before i); [|constructor].
    constructor; [|constructor]. unfold interval_ordered. simpl. lia.
  - constructor; [|constructor]. unfold interval_ordered. simpl. lia.
Qed.

(** X5: every interval that [adjust_seqdiff] returns has a before-range and
    an after-range that start at a line index that is not negative and do not
    end before they start, also when the interval was split and shifted. *)
Theorem adjust_seqdiff_ordered (seqdiff src_after : list string)
    (line2nodes : list (list Node)) (out : list interval) :
  adjust_seqdiff seqdiff src_after line2nodes = Ok out ->
  Forall interval_ordered out.
Proof.
  unfold adjust_seqdiff.
  destruct (scan_seqdiff seqdiff) as [ivs|] eqn:Hscan; [|done].
  apply scan_seqdiff_wellformed in Hscan. cbn [mbind res_bind].
  assert (Forall interval_ordered ([] : list interval)) as Hacc by constructor.
  revert Hacc. generalize ([] : list interval). revert out.
  induction Hscan as [|i ivs Hi _ IH]; intros out acc Hacc; simpl.
  - by intros [= <-].
  - destruct (adjust_interval src_after line2nodes i) as [o|] eqn:Hadj; [|done].
    cbn [mbind res_bind]. apply IH. apply Forall_app. split; [done|].
    by eapply adjust_interval_ordered.
Qed.

Lemma adjust_seqdiff_ordered_witness :
  exists out,
    adjust_seqdiff Examples.repeated_seqdiff Examples.repeated_src_after
                   Examples.repeated_lines = Ok out
    /\ Forall interval_ordered out.
Proof.
  eexists. split; [reflexivity|].
  apply (adjust_seqdiff_ordered Examples.repeated_seqdiff
           Examples.repeated_src_after Examples.repeated_lines).
  reflexivity.
Defined.

(** Unchanged entries outside a run move both line counters and nothing
    else. *)
Lemma scan_context (ls : list string) (st : scan) :
  in_run st = false ->
  foldM scan_step (String.append "  " <$> ls) st
  = Ok {| line_before := line_before st + Z.of_nat (length ls);
          line_after := line_after st + Z.of_nat (length ls);
          intervals := intervals st;
          interval_add := interval_add st;
          interval_rm := interval_rm st;
          interval_start_before := interval_start_before st;
          interval_start_after := interval_start_after st |}.
Proof.
  revert st. induction ls as [|l ls IH]; intros st Hrun.
  - simpl. rewrite !Z.add_0_r. by destruct st.
  - cbn [fmap list_fmap foldM]. change (String.append "  " l) with (String " " (String " " l)).
    cbn [scan_step]. change (Ascii.eqb " " "+") with false.
    change (Ascii.eqb " " "-") with false. cbn match.
    unfold in_run in Hrun. rewrite Hrun. cbn [mbind res_bind].
    rewrite IH by exact Hrun.
    cbn [line_before line_after intervals interval_add interval_rm
         interval_start_before interval_start_after length].
    do 2 f_equal; lia.
Qed.

(** X6: the start of the before-range is not reset between runs.  In a diff
    that removes its first line, leaves [1 + length us] lines unchanged and
    then adds a line that an unchanged line follows, the interval of the
    added line takes the start of the first run as the start of its
    before-range: it reports the before-lines from 0 up to the added line as
    changed, although the second run has removed nothing. *)
Theorem adjust_seqdiff_stale_start (r u a z : string) (us : list string)
    (src_after : list string) (line2nodes : list (list Node)) :
  adjust_seqdiff
    ([String "-" r] ++ (String.append "  " <$> u :: us)
     ++ [String "+" a; String.append "  " z])
    src_after line2nodes
  = Ok [(0, 1, 0, 0);
        (0, 2 + Z.of_nat (length us), 1 + Z.of_nat (length us),
         2 + Z.of_nat (length us))].
Proof.
  unfold adjust_seqdiff, scan_seqdiff.
  cbn [app fmap list_fmap foldM].
  change (String.append "  " u) with (String " " (String " " u)).
  change (String.append "  " z) with (String " " (String " " z)).
  cbn [scan_step scan_init line_before line_after intervals interval_add
       interval_rm interval_start_before interval_start_after length Nat.eqb
       mbind res_bind nonempty orb app].
  change (Ascii.eqb "-" "+") with false. change (Ascii.eqb "-" "-") with true.
  change (Ascii.eqb " " "+") with false. change (Ascii.eqb " " "-") with false.
  cbn [scan_step scan_init line_before line_after intervals interval_add
       interval_rm interval_start_before interval_start_after length Nat.eqb
       mbind res_bind nonempty orb app].
  rewrite foldM_app, scan_context by reflexivity.
  cbn [scan_step scan_init line_before line_after intervals interval_add
       interval_rm interval_start_before interval_start_after length Nat.eqb
       mbind res_bind nonempty orb app foldM].
  change (Ascii.eqb "+" "+") with true.
  change (Ascii.eqb " " "+") with false. change (Ascii.eqb " " "-") with false.
  cbn [scan_step scan_init line_before line_after intervals interval_add
       interval_rm interval_start_before interval_start_after length Nat.eqb
       mbind res_bind nonempty orb app foldM fmap res_fmap].
  cbn [adjust_interval at_most_one raw_add raw_rm length Nat.leb andb raw_tail
       raw_start_before raw_end_before raw_start_after raw_end_after
       mbind res_bind app foldM].
  change (-1 <? 0) with true. change (-1 <? -1) with false. cbn match.
  rewrite (proj2 (Z.ltb_lt (-1) (0 + 1 + Z.of_nat (length us)))) by lia.
  unfold raw_tail. cbn [raw_start_before raw_end_before raw_start_after
                        raw_end_after].
  replace (0 + 1 + 1 + Z.of_nat (length us)) with (2 + Z.of_nat (length us)) by lia.
  replace (0 + 1 + Z.of_nat (length us) + 1) with (2 + Z.of_nat (length us)) by lia.
  replace (0 + 1 + Z.of_nat (length us)) with (1 + Z.of_nat (length us)) by lia.
  reflexivity.
Qed.

(** ** hash_node: the keys of the mapping *)

Lemma dict_set_keys (d : dict) (k0 : nat) (v : bytes) (k : nat) :
  k ∈ (dict_set d k0 v).*1 <-> k = k0 \/ k ∈ d.*1.
Proof.
  induction d as [|[k' v'] d IH]; simpl.
  - set_solver.
  - destruct (k' =? k0)%nat eqn:Hk.
    + apply Nat.eqb_eq in Hk as ->. simpl. set_solver.
    + simpl. rewrite elem_of_cons, IH, elem_of_cons. tauto.
Qed.

Lemma hash_self_weight `{Externals} (node : Node) (white_list : gset nat) :
  (hash_self node white_list).1
  = if bool_decide (start_line node <> 0%nat /\ nid node ∈ white_list)
    then 1 else 0.
Proof.
  unfold hash_self.
  destruct (decide (start_line node <> 0%nat /\ nid node ∈ white_list))
    as [[Hs Hw]|Hno].
  - rewrite (bool_decide_eq_true_2 (_ /\ _)) by done.
    rewrite (proj2 (Nat.eqb_neq _ _) Hs), (bool_decide_eq_true_2 _ Hw). done.
  - rewrite (bool_decide_eq_false_2 (_ /\ _)) by done.
    destruct (start_line node =? 0)%nat eqn:H0; [done|].
    apply Nat.eqb_neq in H0.
    rewrite bool_decide_eq_false_2; [done|]. intros Hw. by apply Hno.
Qed.

(** What the part of [hash_node] after the recursive calls does to the
    mapping and which weight it returns. *)
Lemma hash_inner_result `{Externals} node seed mapping white_list inner g
    h mapping' g' :
  hash_inner node seed mapping white_list inner g = Ok (h, mapping', g') ->
  if bool_decide (nid node ∈ white_list)
  then mapping' = dict_set mapping (nid node) h.2
       /\ h.1 = sum (filter (fun w => 0 < w) inner.*1)
  else mapping' = mapping /\ h = (0, []).
Proof.
  unfold hash_inner. destruct (decide (nid node ∈ white_list)) as [Hin|Hout].
  - rewrite !bool_decide_eq_true_2 by done. cbn [negb list_eq_int].
    destruct (if _ =? 0 then _ else _) as [[sizes g1]|]; [|done].
    cbn [mbind res_bind].
    destruct (sample_entries _ _ _) as [[choices g2]|]; [|done].
    cbn [mbind res_bind].
    destruct (hstack choices) as [choices'|]; [|done].
    cbn [mbind res_bind]. by intros [= <- <- <-].
  - rewrite !bool_decide_eq_false_2 by done. cbn [negb]. by intros [= <- <- <-].
Qed.

Lemma hash_children_keys `{Externals} (white_list : gset nat) (seed : Z)
    (cs : list Node) :
  Forall (fun c =>
            forall mapping g h mapping' g',
              hash_node c seed mapping white_list g = Ok (h, mapping', g') ->
              forall k, k ∈ mapping'.*1
                        <-> k ∈ mapping.*1
                            \/ exists n, n ∈ nodes c /\ recorded white_list n
                                         /\ nid n = k) cs ->
  forall mapping g hs mapping' g',
    hash_children cs seed mapping white_list g = Ok (hs, mapping', g') ->
    forall k, k ∈ mapping'.*1
              <-> k ∈ mapping.*1
                  \/ exists n, n ∈ forest_nodes cs /\ recorded white_list n
                               /\ nid n = k.
Proof.
  induction 1 as [|c cs Hc _ IH]; intros mapping g hs mapping' g' Hch k.
  - injection Hch as <- <- <-. unfold forest_nodes. simpl. set_solver.
  - rewrite hash_children_cons in Hch.
    destruct (hash_node c seed mapping white_list g) as [[[h m1] g1]|] eqn:Hnode;
      [|done].
    cbn [mbind res_bind] in Hch.
    destruct (hash_children cs seed m1 white_list g1) as [[[hs' m2] g2]|] eqn:Hrest;
      [|done].
    cbn [mbind res_bind] in Hch. injection Hch as <- <- <-.
    rewrite (IH _ _ _ _ _ Hrest k), (Hc _ _ _ _ _ Hnode k).
    unfold forest_nodes. cbn [map concat]. split.
    + intros [[?|(n & Hn & ?)]|(n & Hn & ?)]; [by left|right; exists n..];
        (split; [apply elem_of_app; auto|done]).
    + intros [?|(n & [Hn|Hn]%elem_of_app & ?)]; [by left; left| |]; eauto 6.
Qed.

Lemma hash_node_keys_of `{Externals} (white_list : gset nat) (seed : Z)
    (node : Node) :
  forall mapping g h mapping' g',
    hash_node node seed mapping white_list g = Ok (h, mapping', g') ->
    forall k, k ∈ mapping'.*1
              <-> k ∈ mapping.*1
                  \/ exists n, n ∈ nodes node /\ recorded white_list n /\ nid n = k.
Proof.
  induction node as [i t r s e cs IH] using Node_ind.
  intros mapping g h mapping' g' Hnode k.
  destruct cs as [|c cs].
  - rewrite hash_node_leaf in Hnode. cbn zeta in Hnode.
    injection Hnode as <- <- <-. rewrite hash_self_weight. cbn [start_line nid nodes map concat].
    destruct (decide (s <> 0%nat /\ i ∈ white_list)) as [[Hs Hi]|Hno].
    + rewrite bool_decide_eq_true_2 by done. cbn [Z.ltb Z.compare].
      rewrite dict_set_keys. split.
      * intros [->|?]; [|by left]. right. eexists. split; [apply list_elem_of_here|].
        by split.
      * intros [?|(n & ->%list_elem_of_singleton & _ & <-)]; [by right|by left].
    + rewrite bool_decide_eq_false_2 by done. cbn [Z.ltb Z.compare]. split; [auto|].
      intros [?|(n & ->%list_elem_of_singleton & [Hi Hs] & _)]; [done|].
      destruct Hno. split; [by apply Hs|done].
  - rewrite hash_node_inner in Hnode.
    destruct (hash_children (c :: cs) seed mapping white_list g)
      as [[[hs m1] g1]|] eqn:Hch; [|done].
    cbn [mbind res_bind] in Hnode.
    pose proof (hash_children_keys white_list seed (c :: cs) IH _ _ _ _ _ Hch k) as Hk.
    apply hash_inner_result in Hnode. cbn [nid] in Hnode.
    change (nodes (mkNode i t r s e (c :: cs)))
      with (mkNode i t r s e (c :: cs) :: forest_nodes (c :: cs)).
    destruct (decide (i ∈ white_list)) as [Hi|Hi].
    + rewrite bool_decide_eq_true_2 in Hnode by done. destruct Hnode as [-> _].
      rewrite dict_set_keys, Hk. split.
      * intros [->|[?|(n & Hn & ?)]]; [right|by left|right].
        -- eexists. split; [apply list_elem_of_here|]. by split.
        -- exists n. split; [by apply list_elem_of_further|done].
      * intros [?|(n & [->|Hn]%elem_of_cons & Hrec & <-)]; [by right; left|by left|].
        right. right. by exists n.
    + rewrite bool_decide_eq_false_2 in Hnode by done. destruct Hnode as [-> _].
      rewrite Hk. apply or_iff_compat_l. split.
      * intros (n & Hn & ?). exists n. split; [by apply list_elem_of_further|done].
      * intros (n & [->|Hn]%elem_of_cons & Hrec & ?); [by destruct Hrec|by exists n].
Qed.

(** X7: when [hash_node] returns, the keys of the mapping are the keys it had
    before the call and the identities of the nodes of the tree that are in
    the white list, but for the leaves without a position: a node outside the
    white list never gets a fingerprint, and the children of such a node are
    still visited. *)
Theorem hash_node_keys `{Externals} (node : Node) (seed : Z) (mapping : dict)
    (white_list : gset nat) (g : rng) (h : Z * bytes) (mapping' : dict) (g' : rng) :
  hash_node node seed mapping white_list g = Ok (h, mapping', g') ->
  forall k, k ∈ mapping'.*1
            <-> k ∈ mapping.*1
                \/ exists n, n ∈ nodes node /\ recorded white_list n /\ nid n = k.
Proof. apply hash_node_keys_of. Qed.

Lemma hash_node_keys_witness :
  exists h mapping' g',
    hash_node (H := Reference.externals) Examples.call_before 0 []
              Examples.call_white_list1 (0 : Z)
    = Ok (h, mapping', g')
    /\ forall k, k ∈ mapping'.*1
                 <-> k ∈ ([] : dict).*1
                     \/ exists n, n ∈ nodes Examples.call_before
                                  /\ recorded Examples.call_white_list1 n
                                  /\ nid n = k.
Proof.
  eexists _, _, _. split; [vm_compute; reflexivity|].
  eapply (hash_node_keys (H := Reference.externals) Examples.call_before 0 []
                         Examples.call_white_list1 (0 : Z)).
  vm_compute. reflexivity.
Defined.

(** ** hash_node on a tree inside the white list *)

Lemma hash_children_weights `{Externals} (white_list : gset nat) (seed : Z)
    (cs : list Node) :
  Forall (fun c =>
            Forall (sketched white_list) (nodes c) ->
            forall mapping g h mapping' g',
              hash_node c seed mapping white_list g = Ok (h, mapping', g') ->
              h.1 = Z.of_nat (length (nodes c))) cs ->
  Forall (sketched white_list) (forest_nodes cs) ->
  forall mapping g hs mapping' g',
    hash_children cs seed mapping white_list g = Ok (hs, mapping', g') ->
    Forall (fun w => 0 < w) hs.*1
    /\ sum hs.*1 = Z.of_nat (length (forest_nodes cs)).
Proof.
  induction 1 as [|c cs Hc _ IH]; intros Hall mapping g hs mapping' g' Hch.
  - injection Hch as <- <- <-. split; [constructor|done].
  - unfold forest_nodes in Hall. cbn [map concat] in Hall.
    apply Forall_app in Hall as [Hcall Hall].
    rewrite hash_children_cons in Hch.
    destruct (hash_node c seed mapping white_list g) as [[[h m1] g1]|] eqn:Hnode;
      [|done].
    cbn [mbind res_bind] in Hch.
    destruct (hash_children cs seed m1 white_list g1) as [[[hs' m2] g2]|] eqn:Hrest;
      [|done].
    cbn [mbind res_bind] in Hch. injection Hch as <- <- <-.
    destruct (IH Hall _ _ _ _ _ Hrest) as [Hpos Hsum].
    pose proof (Hc Hcall _ _ _ _ _ Hnode) as Hw.
    pose proof (nodes_nonempty c).
    cbn [fmap list_fmap]. rewrite sum_cons, Hsum, Hw.
    unfold forest_nodes. cbn [map concat]. rewrite length_app.
    split; [constructor; [lia|done]|lia].
Qed.

Lemma hash_node_weight `{Externals} (white_list : gset nat) (seed : Z) (node : Node) :
  Forall (sketched white_list) (nodes node) ->
  forall mapping g h mapping' g',
    hash_node node seed mapping white_list g = Ok (h, mapping', g') ->
    h.1 = Z.of_nat (length (nodes node)).
Proof.
  induction node as [i t r s e cs IH] using Node_ind.
  intros Hall mapping g h mapping' g' Hnode.
  change (nodes (mkNode i t r s e cs))
    with (mkNode i t r s e cs :: forest_nodes cs) in *.
  apply Forall_cons in Hall as [[Hline Hin] Hall].
  pose proof (hash_self_weight (mkNode i t r s e cs) white_list) as Hself.
  rewrite bool_decide_eq_true_2 in Hself by done.
  destruct cs as [|c cs].
  - rewrite hash_node_leaf in Hnode. cbn zeta in Hnode.
    injection Hnode as <- <- <-. by rewrite Hself.
  - rewrite hash_node_inner in Hnode.
    destruct (hash_children (c :: cs) seed mapping white_list g)
      as [[[hs m1] g1]|] eqn:Hch; [|done].
    cbn [mbind res_bind] in Hnode.
    destruct (hash_children_weights white_list seed (c :: cs) IH Hall _ _ _ _ _ Hch)
      as [Hpos Hsum].
    apply hash_inner_result in Hnode. cbn [nid] in Hnode, Hin.
    rewrite bool_decide_eq_true_2 in Hnode by done. destruct Hnode as [_ ->].
    rewrite fmap_app. cbn [fmap list_fmap]. rewrite Hself.
    rewrite filter_positive_all.
    + rewrite sum_app, Hsum. cbn [length]. unfold sum at 1. simpl. lia.
    + apply Forall_app. split; [done|]. constructor; [lia|constructor].
Qed.



(** ** hash_self: what the sketch depends on *)

Lemma pack_roles_ext (r1 r2 : list Z) (offset count : nat) :
  (forall i, (i < count)%nat -> r1 !!! (i + offset)%nat = r2 !!! (i + offset)%nat) ->
  pack_roles r1 offset count = pack_roles r2 offset count.
Proof.
  unfold pack_roles. generalize 0. induction count as [|n IH] using nat_ind;
    intros acc Hext; [done|].
  rewrite seq_S, !foldl_app. cbn [foldl Nat.add].
  rewrite IH by (intros i Hi; apply Hext; lia).
  by rewrite Hext by lia.
Qed.

(** X9: the own sketch of a node depends on its token and on its first eight
    roles only: two nodes with a position, each in its white list, that agree
    on these get the same sketch, whatever their other roles, identities,
    lines and children are. *)
Theorem hash_self_token_roles `{Externals} (n1 n2 : Node) (wl1 wl2 : gset nat) :
  sketched wl1 n1 -> sketched wl2 n2 ->
  token n1 = token n2 ->
  take 8 (roles n1) = take 8 (roles n2) ->
  hash_self n1 wl1 = hash_self n2 wl2.
Proof.
  intros [Hs1 Hw1] [Hs2 Hw2] Ht Hr. unfold hash_self.
  destruct (start_line n1 =? 0)%nat eqn:H1; [by apply Nat.eqb_eq in H1|].
  destruct (start_line n2 =? 0)%nat eqn:H2; [by apply Nat.eqb_eq in H2|].
  rewrite !bool_decide_eq_true_2 by done. cbn [orb negb]. rewrite Ht.
  assert (min 8 (length (roles n1)) = min 8 (length (roles n2))) as Hlen.
  { by rewrite <- !length_take, Hr. }
  assert (forall i, (i < 8)%nat -> roles n1 !!! i = roles n2 !!! i) as Hlook.
  { intros i Hi. by rewrite <- (lookup_total_take_lt (roles n1) 8 i),
      <- (lookup_total_take_lt (roles n2) 8 i), Hr by done. }
  assert (min 4 (length (roles n1)) = min 4 (length (roles n2))) as -> by lia.
  assert ((4 <? length (roles n1))%nat = (4 <? length (roles n2))%nat) as ->.
  { destruct (Nat.ltb_spec 4 (length (roles n1)));
      destruct (Nat.ltb_spec 4 (length (roles n2))); lia. }
  assert (min 4 (length (roles n1) - 4) = min 4 (length (roles n2) - 4)) as -> by lia.
  rewrite (pack_roles_ext (roles n1) (roles n2) 0) by (intros i Hi; apply Hlook; lia).
  by rewrite (pack_roles_ext (roles n1) (roles n2) 4) by (intros i Hi; apply Hlook; lia).
Qed.

Lemma hash_self_token_roles_witness :
  sketched {[1%nat]} (mkNode 1 [7] [1; 2; 3; 4; 5; 6; 7; 8; 9] 1 1 [])
  /\ sketched {[2%nat]} (mkNode 2 [7] [1; 2; 3; 4; 5; 6; 7; 8; 10; 11] 5 6
                               [mkNode 3 [] [] 0 0 []])
  /\ hash_self (H := Reference.externals)
               (mkNode 1 [7] [1; 2; 3; 4; 5; 6; 7; 8; 9] 1 1 []) {[1%nat]}
     = hash_self (H := Reference.externals)
                 (mkNode 2 [7] [1; 2; 3; 4; 5; 6; 7; 8; 10; 11] 5 6
                         [mkNode 3 [] [] 0 0 []]) {[2%nat]}.
Proof.
  assert (sketched {[1%nat]} (mkNode 1 [7] [1; 2; 3; 4; 5; 6; 7; 8; 9] 1 1 []))
    as H1 by (split; [simpl; lia|set_solver]).
  assert (sketched {[2%nat]} (mkNode 2 [7] [1; 2; 3; 4; 5; 6; 7; 8; 10; 11] 5 6
                                     [mkNode 3 [] [] 0 0 []]))
    as H2 by (split; [simpl; lia|set_solver]).
  split; [exact H1|]. split; [exact H2|].
  exact (hash_self_token_roles (H := Reference.externals) _ _ _ _ H1 H2
           eq_refl eq_refl).
Defined.

(** ** treediff: errors *)

(** X10: with a number of rounds that is zero or negative the loop over the
    seeds is not entered, so when both white lists hold a node [treediff]
    reads [map1] before any assignment to it and raises NameError (its
    subclass UnboundLocalError), whatever the libraries do. *)
Theorem treediff_without_rounds `{Externals} (src1 : string) (uast1 : Node)
    (src2 : string) (uast2 : Node) (nseeds : Z) (g : rng)
    (white_list1 white_list2 : gset nat) :
  white_lists src1 uast1 src2 uast2 = Ok (white_list1, white_list2) ->
  white_list1 <> ∅ -> white_list2 <> ∅ -> nseeds <= 0 ->
  treediff src1 uast1 src2 uast2 nseeds g = Raise NameError.
Proof.
  intros Hwl H1 H2 Hn. unfold treediff. rewrite Hwl. cbn [mbind res_bind].
  destruct (size white_list1 =? 0)%nat eqn:Hs1.
  { apply Nat.eqb_eq, size_empty_iff in Hs1. destruct H1. by apply leibniz_equiv. }
  destruct (size white_list2 =? 0)%nat eqn:Hs2.
  { apply Nat.eqb_eq, size_empty_iff in Hs2. destruct H2. by apply leibniz_equiv. }
  unfold match_nodes, hash_rounds, py_range.
  replace (Z.to_nat (nseeds - 0)) with 0%nat by lia. reflexivity.
Qed.

Lemma treediff_without_rounds_witness :
  white_lists (H := Reference.externals) Examples.call_src_before
              Examples.call_before Examples.call_src_after Examples.call_after
  = Ok (Examples.call_white_list1, Examples.call_white_list2)
  /\ Examples.call_white_list1 <> ∅ /\ Examples.call_white_list2 <> ∅
  /\ 0 <= 0
  /\ treediff (H := Reference.externals) Examples.call_src_before
              Examples.call_before Examples.call_src_after Examples.call_after
              0 (0 : Z)
     = Raise NameError.
Proof.
  assert (Examples.call_white_list1 <> ∅) as H1 by (by vm_compute).
  assert (Examples.call_white_list2 <> ∅) as H2 by (by vm_compute).
  assert (0 <= 0) as H0 by lia.
  split; [exact call_white_lists|]. split; [exact H1|]. split; [exact H2|].
  split; [exact H0|].
  exact (treediff_without_rounds (H := Reference.externals)
           Examples.call_src_before Examples.call_before
           Examples.call_src_after Examples.call_after 0 (0 : Z)
           Examples.call_white_list1 Examples.call_white_list2
           call_white_lists H1 H2 H0).
Defined.

(** X11: [treediff] checks neither tree against its source: when a node of
    one of the trees has a position and a line range that is not empty and
    ends after the last line of its source, [treediff] raises IndexError
    while it builds the line index, before it compares anything. *)
Theorem treediff_index_error `{Externals} (src1 : string) (uast1 : Node)
    (src2 : string) (uast2 : Node) (nseeds : Z) (g : rng) :
  ~ Forall (fits (length (splitlines src1))) (nodes uast1)
  \/ ~ Forall (fits (length (splitlines src2))) (nodes uast2) ->
  treediff src1 uast1 src2 uast2 nseeds g = Raise IndexError.
Proof.
  intros Hfit. unfold treediff, white_lists. cbn zeta.
  destruct (Line2Nodes_total (length (splitlines src1)) uast1) as [[l1 Hl1]|Hl1];
    [|by rewrite Hl1].
  destruct Hfit as [Hfit|Hfit].
  - by rewrite (Line2Nodes_err _ _ Hfit).
  - by rewrite Hl1, (Line2Nodes_err _ _ Hfit).
Qed.

Lemma treediff_index_error_witness :
  (~ Forall (fits (length (splitlines "a"))) (nodes (mkNode 1 [] [] 1 1 []))
   \/ ~ Forall (fits (length (splitlines "b")))
               (nodes (mkNode 2 [] [] 1 2 [])))
  /\ treediff (H := Reference.externals) "a" (mkNode 1 [] [] 1 1 [])
              "b" (mkNode 2 [] [] 1 2 []) 10 (0 : Z)
     = Raise IndexError.
Proof.
  assert (~ Forall (fits (length (splitlines "a"))) (nodes (mkNode 1 [] [] 1 1 []))
          \/ ~ Forall (fits (length (splitlines "b")))
                      (nodes (mkNode 2 [] [] 1 2 []))) as Hfit.
  { right. intros Hall. apply Forall_cons in Hall as [Hn _].
    unfold fits in Hn. simpl in Hn. lia. }
  split; [exact Hfit|].
  exact (treediff_index_error (H := Reference.externals) "a" _ "b" _ 10 (0 : Z) Hfit).
Defined.

(** ** treediff: the script accounts for every assigned node *)

Lemma filterM_elem_of {A} (test : A -> res bool) (l l' : list A) :
  filterM test l = Ok l' -> forall x, x ∈ l' -> x ∈ l.
Proof.
  revert l'. induction l as [|y l IH]; intros l'; cbn [filterM].
  - by intros [= <-].
  - destruct (test y) as [keep|]; [|done]. cbn [mbind res_bind].
    destruct (filterM test l) as [rest|]; [|done]. cbn [mbind res_bind].
    intros [= <-] x Hx. destruct keep.
    + apply elem_of_cons in Hx as [->|Hx]; [left|right; by apply (IH rest)].
    + right. by apply (IH rest).
Qed.

Lemma NoDup_enumerate {A} (l : list A) : NoDup (enumerate l).
Proof.
  unfold enumerate. apply NoDup_fmap_1 with (f := fst).
  rewrite fst_zip by (rewrite length_seq; lia). apply NoDup_seq.
Qed.

(** X12: in the script that [treediff] compiles, the number of [delete]
    operations, the number of [modify] operations and the number of pairs
    that match exactly without being deleted add up to the number of
    before-side nodes that the solver assigned: each of them is deleted,
    reported as modified or passed over as unchanged. *)
Theorem compile_script_accounts (thr : Q) (nseeds : Z) (d : matrix)
    (row_ind : list nat) (sm1 sm2 : gmap nat bytes) (seq1 seq2 : list nat)
    (script : list op) :
  compile_script thr nseeds d row_ind sm1 sm2 seq1 seq2 = Ok script ->
  exists deleted exact,
    deleted_set thr nseeds d (length seq1) row_ind = Ok deleted
    /\ exact_set sm1 sm2 seq1 seq2 row_ind = Ok exact
    /\ (count_deletes script + count_modifies script + size (exact ∖ deleted)
        = min (length seq1) (length row_ind))%nat.
Proof.
  intros Hscript.
  destruct (compile_script_counts _ _ _ _ _ _ _ _ _ Hscript)
    as (deleted & exact & Hdel & Hex & Hcd & _ & Hcm).
  exists deleted, exact. split; [done|]. split; [done|].
  rewrite Hcd, Hcm. unfold modify_set.
  set (pairs := list_to_set (assignment (length seq1) row_ind) : gset (nat * nat)).
  assert (size pairs = min (length seq1) (length row_ind)) as <-.
  { unfold pairs. rewrite size_list_to_set by apply NoDup_enumerate.
    unfold assignment, enumerate.
    rewrite length_zip_with, length_seq, length_take. lia. }
  assert (deleted ⊆ pairs) as Hsub1.
  { unfold deleted_set in Hdel.
    destruct (filterM _ _) as [l|] eqn:Hl; [|done]. injection Hdel as <-.
    intros x Hx%elem_of_list_to_set. apply elem_of_list_to_set.
    by eapply filterM_elem_of. }
  assert (exact ⊆ pairs) as Hsub2.
  { unfold exact_set in Hex.
    destruct (filterM _ _) as [l|] eqn:Hl; [|done]. injection Hex as <-.
    intros x Hx%elem_of_list_to_set. apply elem_of_list_to_set.
    by eapply filterM_elem_of. }
  assert (pairs = deleted ∪ (pairs ∖ deleted ∖ exact ∪ exact ∖ deleted)) as Hsplit.
  { apply set_eq. intros x. destruct (decide (x ∈ deleted)), (decide (x ∈ exact));
      set_solver. }
  assert (size pairs
          = (size deleted + (size (pairs ∖ deleted ∖ exact) + size (exact ∖ deleted)))%nat)
    as ->; [|lia].
  rewrite Hsplit at 1. by rewrite !size_union by set_solver.
Qed.

Lemma compile_script_accounts_witness :
  exists script deleted exact,
    compile_script threshold 1 Examples.pair_dists Examples.pair_row_ind
                   Examples.pair_supermap1 Examples.pair_supermap2
                   [1%nat] [2%nat]
    = Ok script
    /\ deleted_set threshold 1 Examples.pair_dists (length [1%nat])
                   Examples.pair_row_ind = Ok deleted
    /\ exact_set Examples.pair_supermap1 Examples.pair_supermap2 [1%nat] [2%nat]
                 Examples.pair_row_ind = Ok exact
    /\ (count_deletes script + count_modifies script + size (exact ∖ deleted)
        = min (length [1%nat]) (length Examples.pair_row_ind))%nat.
Proof.
  destruct (compile_script_accounts threshold 1 Examples.pair_dists
              Examples.pair_row_ind Examples.pair_supermap1
              Examples.pair_supermap2 [1%nat] [2%nat]
              [Delete 1; Add 2] ltac:(vm_compute; reflexivity))
    as (deleted & exact & H1 & H2 & H3).
  exists [Delete 1; Add 2], deleted, exact.
  split; [vm_compute; reflexivity|]. split; [exact H1|]. split; [exact H2|exact H3].
Defined.

(** ** treediff: the distances after a round *)

Lemma enumerate_snoc {A} (l : list A) (x : A) :
  enumerate (l ++ [x]) = enumerate l ++ [(length l, x)].
Proof.
  unfold enumerate. rewrite length_app. cbn [length].
  rewrite seq_app. cbn [seq Nat.add].
  rewrite zip_with_app by (by rewrite length_seq). done.
Qed.

(** The byte lists that the loop over [map2.items()] leaves: the list of a
    byte value holds the index of an entry once when the value occurs in the
    fingerprint of the entry, and not at all otherwise. *)
Lemma byte_matches_of_map (map2 : dict) (sm0 : gmap nat bytes) :
  Forall (fun kh : nat * bytes => is_bytes kh.2) map2 ->
  let after :=
    foldl (fun '(supermap2, byte_matches) '(i, (k, h)) =>
             (supermap_add supermap2 k h, add_byte_matches byte_matches i h))
          (sm0, replicate 256 []) (enumerate map2) in
  length after.2 = 256%nat
  /\ forall x j, 0 <= x < 256 ->
       length (filter (eq j) (after.2 !!! Z.to_nat x))
       = if bool_decide (x ∈ (map2 !!! j).2) then 1%nat else 0%nat.
Proof.
  induction map2 as [|[k h] map2 IH] using rev_ind; intros Hbytes after.
  - subst after. unfold enumerate. cbn [length seq zip zip_with foldl snd].
    split; [by rewrite length_replicate|]. intros x j Hx.
    rewrite lookup_total_replicate_2 by lia.
    rewrite (list_lookup_total_alt ([] : dict)), lookup_nil.
    cbn [default inhabitant prod_inhabited list_inhabited snd].
    by rewrite bool_decide_eq_false_2 by set_solver.
  - apply Forall_app in Hbytes as [Hbytes Hh].
    apply Forall_cons in Hh as [Hh _]. cbn [snd] in Hh.
    specialize (IH Hbytes). cbn zeta in IH. subst after.
    rewrite enumerate_snoc, foldl_app.
    destruct (foldl _ (sm0, replicate 256 []) (enumerate map2)) as [sm bm].
    cbn [foldl snd] in *. destruct IH as [Hlen Hcount].
    split; [by apply (add_byte_matches_lookup bm (length map2) h 0)|].
    intros x j Hx. unfold dict in *.
    destruct (add_byte_matches_lookup bm (length map2) h x Hlen Hh Hx) as [_ ->].
    rewrite filter_app, length_app, (Hcount x j Hx).
    destruct (Nat.lt_trichotomy j (length map2)) as [Hj|[->|Hj]].
    + rewrite lookup_total_app_l by done.
      destruct (bool_decide (x ∈ h)); [|by rewrite Nat.add_0_r].
      rewrite filter_cons, decide_False by lia. by rewrite Nat.add_0_r.
    + rewrite lookup_total_app_r, Nat.sub_diag by done. cbn [lookup_total
        list_lookup_total snd].
      rewrite (list_lookup_total_alt map2), lookup_ge_None_2 by done.
      cbn [default inhabitant prod_inhabited list_inhabited snd].
      rewrite bool_decide_eq_false_2 by set_solver.
      destruct (bool_decide (x ∈ h)); [|done].
      by rewrite filter_cons, decide_True.
    + rewrite (list_lookup_total_alt map2), lookup_ge_None_2 by lia.
      rewrite (list_lookup_total_alt (map2 ++ _)), lookup_ge_None_2
        by (rewrite length_app; simpl; lia).
      cbn [default inhabitant prod_inhabited list_inhabited snd].
      rewrite bool_decide_eq_false_2 by set_solver.
      destruct (bool_decide (x ∈ h)); [|done].
      by rewrite filter_cons, decide_False by lia.
Qed.

(** The loop over [map1.items()] from the entry of index [p] on: row [i] and
    column [i] of the matrix take the candidates of entry [i]. *)
Lemma rows_fold (bm : list (list nat)) (n1 n2 : nat) (l : dict) (p : nat)
    (sm : gmap nat bytes) (d : matrix) :
  (p + length l = n1)%nat -> square (n1 + n2) d ->
  exists sm' d',
    foldM (fun '(supermap1, dists) '(i, (k, h)) =>
             let candidates := candidates_of bm n2 h in
             dists1 ← add_to_row dists i n1 candidates;
             dists2 ← add_to_column dists1 i n1 candidates;
             Ok (supermap_add supermap1 k h, dists2))
          (zip (seq p (length l)) l) (sm, d)
    = Ok (sm', d')
    /\ square (n1 + n2) d'
    /\ forall r c, (r < n1 + n2)%nat -> (c < n1 + n2)%nat ->
         entry d' r c
         = entry d r c
           + (if bool_decide (p <= r < n1 /\ n1 <= c)%nat
              then candidates_of bm n2 (l !!! (r - p)%nat).2 !!! (c - n1)%nat
              else 0)
           + (if bool_decide (p <= c < n1 /\ n1 <= r)%nat
              then candidates_of bm n2 (l !!! (c - p)%nat).2 !!! (r - n1)%nat
              else 0).
Proof.
  revert p sm d. induction l as [|[k h] l IH]; intros p sm d Hp Hsq.
  - exists sm, d. split; [done|]. split; [done|]. intros r c Hr Hc.
    cbn [length] in Hp. rewrite !bool_decide_eq_false_2 by lia. lia.
  - cbn [length] in Hp. cbn [length seq zip zip_with foldM].
    destruct (add_to_row_entry (n1 + n2) d p n1 (candidates_of bm n2 h))
      as (d1 & Hd1 & Hsq1 & He1); [done|lia|lia| |].
    { rewrite candidates_of_length. lia. }
    cbn zeta. rewrite Hd1. cbn [mbind res_bind].
    destruct (add_to_column_entry (n1 + n2) d1 p n1 (candidates_of bm n2 h))
      as (d2 & Hd2 & Hsq2 & He2); [done|lia|lia| |].
    { rewrite candidates_of_length. lia. }
    rewrite Hd2. cbn [mbind res_bind].
    destruct (IH (S p) (supermap_add sm k h) d2) as (sm' & d' & Hfold & Hsq' & He');
      [lia|done|].
    exists sm', d'. split; [exact Hfold|]. split; [exact Hsq'|].
    intros r c Hr Hc. rewrite (He' r c Hr Hc), (He2 r c Hr Hc), (He1 r c Hr Hc).
    assert (forall i, (p < i)%nat ->
                      ((k, h) :: l) !!! (i - p)%nat = l !!! (i - S p)%nat) as Hshift.
    { intros i Hi. by replace (i - p)%nat with (S (i - S p)) by lia. }
    destruct (Nat.lt_trichotomy r p) as [Hrp|[->|Hrp]];
      destruct (Nat.lt_trichotomy c p) as [Hcp|[->|Hcp]];
      rewrite ?Nat.sub_diag, ?Hshift by done; cbn [lookup_total list_lookup_total snd];
      repeat case_bool_decide; try lia;
      rewrite ?Z.add_0_r; reflexivity.
Qed.

Lemma init_dists_square (n1 n2 : nat) (nseeds : Z) :
  square (n1 + n2) (init_dists n1 n2 nseeds).
Proof.
  unfold square, init_dists. rewrite length_fmap, length_seq. split; [done|].
  apply Forall_fmap, Forall_true. intros i. simpl.
  by rewrite length_fmap, length_seq.
Qed.

Lemma init_dists_entry (n1 n2 : nat) (nseeds : Z) (r c : nat) :
  (r < n1 + n2)%nat -> (c < n1 + n2)%nat ->
  entry (init_dists n1 n2 nseeds) r c
  = if bool_decide ((r < n1)%nat <-> (c < n1)%nat)
    then 2 * HASH_SIZE * nseeds else HASH_SIZE * nseeds.
Proof.
  intros Hr Hc. unfold entry, init_dists, matrix.
  rewrite (list_lookup_total_fmap _ (seq 0 (n1 + n2)) r) by (by rewrite length_seq).
  rewrite lookup_total_seq_lt by done.
  rewrite (list_lookup_total_fmap _ (seq 0 (n1 + n2)) c) by (by rewrite length_seq).
  rewrite lookup_total_seq_lt by done. cbn [Nat.add].
  destruct (Nat.ltb_spec r n1), (Nat.leb_spec n1 c), (Nat.leb_spec n1 r),
    (Nat.ltb_spec c n1); try lia; cbn [andb orb];
    case_bool_decide; try done; lia.
Qed.

Lemma common_le_length (h h' : bytes) : 0 <= common h h' <= Z.of_nat (length h).
Proof.
  unfold common. pose proof (length_filter (fun b => b ∈ h') h). lia.
Qed.

Lemma square_Forall_entry (P : Z -> Prop) (m : nat) (d : matrix) :
  square m d ->
  Forall (Forall P) d
  <-> forall r c, (r < m)%nat -> (c < m)%nat -> P (entry d r c).
Proof.
  intros [Hlen Hrows]. unfold entry, matrix in *. split.
  - intros Hall r c Hr Hc.
    assert (length (d !!! r) = m) as Hrow
      by (apply (Forall_lookup_total_1 _ _ r Hrows); lia).
    assert (Forall P (d !!! r)) as HP
      by (apply (Forall_lookup_total_1 _ _ r Hall); lia).
    apply (Forall_lookup_total_1 _ _ c HP). lia.
  - intros Hentry. rewrite Forall_lookup_total. intros r Hr.
    assert (length (d !!! r) = m) as Hrow
      by (apply (Forall_lookup_total_1 _ _ r Hrows); lia).
    rewrite Forall_lookup_total. intros c Hc. apply Hentry; lia.
Qed.

(** X13: one round of accumulation, in the range where the [float32] sums of
    the source are exact: on two mappings of byte strings whose fingerprints
    have at most [2^24] bytes, from a matrix with a row and a column for each
    entry of both and values between 0 and [2^24] (or from no matrix, in the
    first round, with at most [2^19] rounds), the round returns a matrix of
    that size in which the distance between entry [i] of [map1] and entry [j]
    of [map2], on either side of the diagonal, went down by the number of
    bytes of the first fingerprint, repeated bytes counted each time, whose
    value occurs in the second; the distances between two entries of one
    mapping are as they were; and every value of the new matrix is a whole
    number that a [float32] holds exactly. *)
Theorem accumulate_distances (nseeds : Z) (st : rounds) (map1 map2 : dict) :
  Forall (fun kh : nat * bytes => is_bytes kh.2) map1 ->
  Forall (fun kh : nat * bytes => is_bytes kh.2) map2 ->
  Forall (fun kh : nat * bytes => Z.of_nat (length kh.2) <= 2 ^ 24) map1 ->
  (forall d, dists st = Some d ->
             square (length map1 + length map2) d
             /\ Forall (Forall (fun z => 0 <= z <= 2 ^ 24)) d) ->
  (dists st = None -> 0 <= nseeds <= 2 ^ 19) ->
  let n1 := length map1 in
  let n2 := length map2 in
  let d0 := default (init_dists n1 n2 nseeds) (dists st) in
  exists st' d',
    accumulate nseeds st map1 map2 = Ok st'
    /\ dists st' = Some d'
    /\ last_maps st' = Some (map1, map2)
    /\ square (n1 + n2) d'
    /\ (forall i j, (i < n1)%nat -> (j < n2)%nat ->
          entry d' i (n1 + j)
          = entry d0 i (n1 + j) - common (map1 !!! i).2 (map2 !!! j).2
          /\ entry d' (n1 + j) i
             = entry d0 (n1 + j) i - common (map1 !!! i).2 (map2 !!! j).2)
    /\ (forall r c, (r < n1 + n2)%nat -> (c < n1 + n2)%nat ->
          ((r < n1)%nat <-> (c < n1)%nat) -> entry d' r c = entry d0 r c)
    /\ (dists st = None ->
        forall i j, (i < n1)%nat -> (j < n2)%nat ->
          entry d' i (n1 + j)
          = HASH_SIZE * nseeds - common (map1 !!! i).2 (map2 !!! j).2)
    /\ Forall (Forall float32_exact) d'.
Proof.
  intros Hb1 Hb2 Hshort Hsome Hnone. cbn zeta.
  set (n1 := length map1). set (n2 := length map2).
  set (d0 := default (init_dists n1 n2 nseeds) (dists st)).
  assert (square (n1 + n2) d0) as Hsq0.
  { unfold d0. destruct (dists st) as [d|]; [by apply Hsome|apply init_dists_square]. }
  assert (forall r c, (r < n1 + n2)%nat -> (c < n1 + n2)%nat ->
            0 <= entry d0 r c <= 2 ^ 24) as Hrange0.
  { unfold d0. destruct (dists st) as [d|] eqn:Hd; cbn [default].
    - destruct (Hsome d eq_refl) as [Hsq Hall].
      by apply (square_Forall_entry (fun z => 0 <= z <= 2 ^ 24) _ _ Hsq).
    - intros r c Hr Hc. rewrite init_dists_entry by done.
      specialize (Hnone eq_refl). unfold HASH_SIZE.
      case_bool_decide; lia. }
  unfold accumulate.
  destruct (byte_matches_of_map map2 (supermap2 st) Hb2) as [Hlen Hcount].
  set (after := foldl _ (supermap2 st, replicate 256 []) (enumerate map2)) in *.
  change (match dists st with
          | Some d => d
          | None => init_dists (length map1) (length map2) nseeds
          end) with d0.
  destruct (rows_fold after.2 n1 n2 map1 0 (supermap1 st) d0)
    as (sm' & d' & Hfold & Hsq' & He); [done|done|].
  unfold enumerate. fold n1 n2. cbn zeta in Hfold |- *. fold n1 in Hfold.
  rewrite Hfold. cbn [mbind res_bind].
  eexists _, d'. split; [reflexivity|]. cbn [dists last_maps].
  split; [done|]. split; [done|]. split; [done|].
  assert (forall i j, (i < n1)%nat -> (j < n2)%nat ->
            candidates_of after.2 n2 (map1 !!! i).2 !!! j
            = - common (map1 !!! i).2 (map2 !!! j).2) as Hcand.
  { intros i j Hi Hj.
    destruct (candidates_of_lookup after.2 n2 (map1 !!! i).2 (map2 !!! j).2 j Hj)
      as [_ ->]; [|done].
    assert (is_bytes (map1 !!! i).2) as Hbi.
    { apply (Forall_lookup_total_1 _ _ i Hb1). done. }
    eapply Forall_impl; [exact Hbi|]. intros x Hx. by apply Hcount. }
  assert (forall i j, (i < n1)%nat -> (j < n2)%nat ->
            entry d' i (n1 + j)
            = entry d0 i (n1 + j) - common (map1 !!! i).2 (map2 !!! j).2
            /\ entry d' (n1 + j) i
               = entry d0 (n1 + j) i - common (map1 !!! i).2 (map2 !!! j).2)
    as Hcross.
  { intros i j Hi Hj. split.
    - rewrite He by lia. rewrite bool_decide_eq_true_2 by lia.
      rewrite bool_decide_eq_false_2 by lia.
      replace (i - 0)%nat with i by lia. replace (n1 + j - n1)%nat with j by lia.
      rewrite Hcand by done. lia.
    - rewrite He by lia. rewrite bool_decide_eq_false_2 by lia.
      rewrite bool_decide_eq_true_2 by lia.
      replace (i - 0)%nat with i by lia. replace (n1 + j - n1)%nat with j by lia.
      rewrite Hcand by done. lia. }
  assert (forall r c, (r < n1 + n2)%nat -> (c < n1 + n2)%nat ->
            ((r < n1)%nat <-> (c < n1)%nat) -> entry d' r c = entry d0 r c)
    as Hsame.
  { intros r c Hr Hc Hside. rewrite He by done.
    rewrite !bool_decide_eq_false_2 by lia. lia. }
  split; [exact Hcross|]. split; [exact Hsame|]. split.
  - intros Hnone' i j Hi Hj. destruct (Hcross i j Hi Hj) as [-> _].
    unfold d0. rewrite Hnone'. cbn [default].
    rewrite init_dists_entry by lia. rewrite bool_decide_eq_false_2 by lia. done.
  - apply (square_Forall_entry float32_exact _ _ Hsq'). intros r c Hr Hc.
    unfold float32_exact.
    assert (forall i j, (i < n1)%nat -> (j < n2)%nat ->
              0 <= common (map1 !!! i).2 (map2 !!! j).2 <= 2 ^ 24) as Hcommon.
    { intros i j Hi Hj.
      pose proof (common_le_length (map1 !!! i).2 (map2 !!! j).2) as Hle.
      pose proof (Forall_lookup_total_1 _ _ i Hshort Hi) as Hlen'.
      cbn beta in Hlen'. destruct Hle as [Hle1 Hle2]. split; [exact Hle1|].
      eapply Z.le_trans; [exact Hle2|exact Hlen']. }
    destruct (decide (r < n1)%nat) as [Hr1|Hr1],
             (decide (c < n1)%nat) as [Hc1|Hc1].
    + rewrite Hsame by (done || lia). pose proof (Hrange0 r c Hr Hc). lia.
    + replace c with (n1 + (c - n1))%nat by lia.
      destruct (Hcross r (c - n1)%nat) as [-> _]; [done|lia|].
      pose proof (Hrange0 r (n1 + (c - n1))%nat). pose proof (Hcommon r (c - n1)%nat).
      lia.
    + replace r with (n1 + (r - n1))%nat by lia.
      destruct (Hcross c (r - n1)%nat) as [_ ->]; [done|lia|].
      pose proof (Hrange0 (n1 + (r - n1))%nat c). pose proof (Hcommon c (r - n1)%nat).
      lia.
    + rewrite Hsame by (done || lia). pose proof (Hrange0 r c Hr Hc). lia.
Qed.

Lemma accumulate_distances_witness :
  let map1 : dict := [(4%nat, [1; 2; 2; 3])] in
  let map2 : dict := [(14%nat, [2; 9]); (15%nat, [7])] in
  Forall (fun kh : nat * bytes => is_bytes kh.2) map1
  /\ Forall (fun kh : nat * bytes => is_bytes kh.2) map2
  /\ Forall (fun kh : nat * bytes => Z.of_nat (length kh.2) <= 2 ^ 24) map1
  /\ (forall d, dists rounds_init = Some d ->
                square (length map1 + length map2) d
                /\ Forall (Forall (fun z => 0 <= z <= 2 ^ 24)) d)
  /\ (dists rounds_init = None -> 0 <= 10 <= 2 ^ 19)
  /\ let n1 := length map1 in
     let n2 := length map2 in
     let d0 := default (init_dists n1 n2 10) (dists rounds_init) in
     exists st' d',
       accumulate 10 rounds_init map1 map2 = Ok st'
       /\ dists st' = Some d'
       /\ last_maps st' = Some (map1, map2)
       /\ square (n1 + n2) d'
       /\ (forall i j, (i < n1)%nat -> (j < n2)%nat ->
             entry d' i (n1 + j)
             = entry d0 i (n1 + j) - common (map1 !!! i).2 (map2 !!! j).2
             /\ entry d' (n1 + j) i
                = entry d0 (n1 + j) i - common (map1 !!! i).2 (map2 !!! j).2)
       /\ (forall r c, (r < n1 + n2)%nat -> (c < n1 + n2)%nat ->
             ((r < n1)%nat <-> (c < n1)%nat) -> entry d' r c = entry d0 r c)
       /\ (dists rounds_init = None ->
           forall i j, (i < n1)%nat -> (j < n2)%nat ->
             entry d' i (n1 + j)
             = HASH_SIZE * 10 - common (map1 !!! i).2 (map2 !!! j).2)
       /\ Forall (Forall float32_exact) d'.
Proof.
  intros map1 map2.
  assert (Forall (fun kh : nat * bytes => is_bytes kh.2) map1) as H1
    by (repeat constructor; simpl; lia).
  assert (Forall (fun kh : nat * bytes => is_bytes kh.2) map2) as H2
    by (repeat constructor; simpl; lia).
  assert (Forall (fun kh : nat * bytes => Z.of_nat (length kh.2) <= 2 ^ 24) map1)
    as H3 by (repeat constructor; simpl; lia).
  assert (forall d, dists rounds_init = Some d ->
                    square (length map1 + length map2) d
                    /\ Forall (Forall (fun z => 0 <= z <= 2 ^ 24)) d) as H4 by done.
  assert (dists rounds_init = None -> 0 <= 10 <= 2 ^ 19) as H5 by (intros _; lia).
  split; [exact H1|]. split; [exact H2|]. split; [exact H3|]. split; [exact H4|].
  split; [exact H5|].
  exact (accumulate_distances 10 rounds_init map1 map2 H1 H2 H3 H4 H5).
Defined.

(** ** map_parents *)

Lemma map_parents_unfold (node : Node) (parents : gmap nat nat) :
  map_parents node parents
  = foldl (fun parents child => map_parents child (<[nid child := nid node]> parents))
          parents (children node).
Proof. by destruct node. Qed.

Lemma forest_ids_cons (c : Node) (cs : list Node) :
  forest_ids (c :: cs) = {[nid c]} ∪ forest_ids (children c) ∪ forest_ids cs.
Proof.
  unfold forest_ids, forest_nodes. destruct c as [i t r s e ccs].
  cbn [map concat nodes nid children]. rewrite fmap_app, fmap_cons.
  rewrite list_to_set_app_L, list_to_set_cons. done.
Qed.

Lemma map_parents_children_dom (i : nat) (cs : list Node) :
  Forall (fun c => forall parents,
            dom (map_parents c parents) = dom parents ∪ forest_ids (children c)) cs ->
  forall parents,
    dom (foldl (fun parents child => map_parents child (<[nid child := i]> parents))
               parents cs)
    = dom parents ∪ forest_ids cs.
Proof.
  induction 1 as [|c cs Hc _ IH]; intros parents.
  - unfold forest_ids, forest_nodes. simpl. set_solver.
  - cbn [foldl]. rewrite IH, Hc, dom_insert_L, forest_ids_cons. set_solver.
Qed.

(** X14: [map_parents] adds an entry for every node below [node] and for
    nothing else: afterwards the keys of [parents] are the keys it had and
    the identities of the proper descendants of [node]; the node itself gets
    no entry. *)
Theorem map_parents_dom (node : Node) (parents : gmap nat nat) :
  dom (map_parents node parents) = dom parents ∪ forest_ids (children node).
Proof.
  revert parents. induction node as [i t r s e cs IH] using Node_ind.
  intros parents. rewrite map_parents_unfold.
  by apply map_parents_children_dom.
Qed.

Lemma map_parents_children_frame (i : nat) (cs : list Node) (k : nat) :
  Forall (fun c => forall parents,
            k ∉ forest_ids (children c) ->
            map_parents c parents !! k = parents !! k) cs ->
  k ∉ forest_ids cs ->
  forall parents,
    foldl (fun parents child => map_parents child (<[nid child := i]> parents))
          parents cs !! k
    = parents !! k.
Proof.
  induction 1 as [|c cs Hc _ IH]; intros Hk parents; [done|].
  rewrite forest_ids_cons in Hk. cbn [foldl].
  rewrite IH by set_solver. rewrite Hc by set_solver.
  apply lookup_insert_ne. set_solver.
Qed.

(** A key that is not the identity of a proper descendant keeps its value. *)
Lemma map_parents_frame (node : Node) (parents : gmap nat nat) (k : nat) :
  k ∉ forest_ids (children node) ->
  map_parents node parents !! k = parents !! k.
Proof.
  revert parents. induction node as [i t r s e cs IH] using Node_ind.
  intros parents Hk. rewrite map_parents_unfold. cbn [children nid] in *.
  by apply map_parents_children_frame.
Qed.

Lemma NoDup_forest_cons (c : Node) (cs : list Node) :
  NoDup (nid <$> forest_nodes (c :: cs)) ->
  NoDup (nid <$> nodes c) /\ NoDup (nid <$> forest_nodes cs)
  /\ forall k, k ∈ nid <$> nodes c -> k ∉ forest_ids cs.
Proof.
  unfold forest_nodes at 1. cbn [map concat]. rewrite fmap_app.
  intros (H1 & H2 & H3)%NoDup_app. split; [done|]. split; [done|].
  intros k Hk. unfold forest_ids. rewrite elem_of_list_to_set. by apply H2.
Qed.

Lemma nodes_ids (c : Node) (k : nat) :
  k ∈ nid <$> nodes c <-> k = nid c \/ k ∈ forest_ids (children c).
Proof.
  destruct c as [i t r s e cs]. cbn [nodes nid children fmap list_fmap].
  unfold forest_ids, forest_nodes. rewrite elem_of_cons, elem_of_list_to_set. done.
Qed.

Lemma map_parents_children_edges (i : nat) (cs : list Node) :
  Forall (fun c => forall parents,
            NoDup (nid <$> nodes c) ->
            forall p x, p ∈ nodes c -> x ∈ children p ->
                        map_parents c parents !! nid x = Some (nid p)) cs ->
  NoDup (nid <$> forest_nodes cs) ->
  forall parents,
    let parents' :=
      foldl (fun parents child => map_parents child (<[nid child := i]> parents))
            parents cs in
    (forall c, c ∈ cs -> parents' !! nid c = Some i)
    /\ (forall p x, p ∈ forest_nodes cs -> x ∈ children p ->
                    parents' !! nid x = Some (nid p)).
Proof.
  induction 1 as [|c cs Hc _ IH]; intros Hnd parents parents'.
  - split; [set_solver|]. unfold forest_nodes. simpl. set_solver.
  - apply NoDup_forest_cons in Hnd as (Hndc & Hnds & Hdisj).
    subst parents'. cbn [foldl].
    set (parents1 := map_parents c (<[nid c := i]> parents)).
    destruct (IH Hnds parents1) as [Hkids Hedges]. cbn zeta in Hkids, Hedges.
    assert (forall k, k ∈ nid <$> nodes c ->
              foldl (fun parents child =>
                       map_parents child (<[nid child := i]> parents))
                    parents1 cs !! k
              = parents1 !! k) as Hkeep.
    { intros k Hk. apply map_parents_children_frame; [|by apply Hdisj].
      apply Forall_forall. intros c' _ parents0. apply map_parents_frame. }
    assert (nid c ∉ forest_ids (children c)) as Hroot.
    { destruct c as [ic t r s e ccs]. cbn [nodes fmap list_fmap nid children] in *.
      apply NoDup_cons in Hndc as [Hic _]. unfold forest_ids, forest_nodes.
      by rewrite elem_of_list_to_set. }
    split.
    + intros c' [->|Hc']%elem_of_cons; [|by apply Hkids].
      rewrite Hkeep by (apply nodes_ids; by left).
      unfold parents1. rewrite map_parents_frame by done.
      apply lookup_insert_eq.
    + intros p x Hp Hx. unfold forest_nodes in Hp. cbn [map concat] in Hp.
      apply elem_of_app in Hp as [Hp|Hp]; [|by apply Hedges].
      rewrite Hkeep.
      * unfold parents1. by apply Hc.
      * apply nodes_ids. right. unfold forest_ids. apply elem_of_list_to_set.
        apply list_elem_of_fmap. exists x. split; [done|].
        clear -Hp Hx. revert p Hp Hx.
        induction c as [ic t r s e ccs IHc] using Node_ind. intros p Hp Hx.
        cbn [nodes children] in *. apply elem_of_cons in Hp as [->|Hp].
        -- cbn [children] in Hx. unfold forest_nodes.
           apply list_elem_of_In, in_concat.
           exists (nodes x). split; [by apply in_map, list_elem_of_In|].
           destruct x; simpl; auto.
        -- apply list_elem_of_In, in_concat in Hp as (ln & Hln & Hp).
           apply in_map_iff in Hln as (c' & <- & Hc').
           apply list_elem_of_In in Hc', Hp.
           pose proof (proj1 (Forall_forall _ _) IHc c' Hc' p Hp Hx) as Hin.
           unfold forest_nodes in *. apply list_elem_of_In, in_concat.
           exists (nodes c'). split; [by apply in_map, list_elem_of_In|].
           destruct c' as [i' t' r' s' e' cs']. cbn [nodes children] in *.
           right. by apply list_elem_of_In.
Qed.

(** X15: on a tree whose nodes have distinct identities, after
    [map_parents(node, parents)] every node of the tree but the root is
    mapped to the identity of its parent, and the entry of the root is the
    one [parents] had, if any. *)
Theorem map_parents_edges (node : Node) (parents : gmap nat nat) :
  NoDup (nid <$> nodes node) ->
  (forall p c, p ∈ nodes node -> c ∈ children p ->
               map_parents node parents !! nid c = Some (nid p))
  /\ map_parents node parents !! nid node = parents !! nid node.
Proof.
  intros Hnd. split.
  - revert parents Hnd. induction node as [i t r s e cs IH] using Node_ind.
    intros parents Hnd p c Hp Hc. rewrite map_parents_unfold. cbn [nid children].
    cbn [nodes fmap list_fmap] in Hnd. apply NoDup_cons in Hnd as [_ Hnds].
    destruct (map_parents_children_edges i cs IH Hnds parents) as [Hkids Hedges].
    cbn [nodes] in Hp. apply elem_of_cons in Hp as [->|Hp].
    + cbn [children] in Hc. by apply Hkids.
    + by apply Hedges.
  - apply map_parents_frame. destruct node as [i t r s e cs].
    cbn [nodes fmap list_fmap nid children] in *.
    apply NoDup_cons in Hnd as [Hi _]. unfold forest_ids, forest_nodes.
    by rewrite elem_of_list_to_set.
Qed.

Lemma map_parents_edges_witness :
  NoDup (nid <$> nodes Examples.call_before)
  /\ (forall p c, p ∈ nodes Examples.call_before -> c ∈ children p ->
                  map_parents Examples.call_before {[1%nat := 0%nat]} !! nid c
                  = Some (nid p))
  /\ map_parents Examples.call_before {[1%nat := 0%nat]}
       !! nid Examples.call_before
     = ({[1%nat := 0%nat]} : gmap nat nat) !! nid Examples.call_before.
Proof.
  assert (NoDup (nid <$> nodes Examples.call_before)) as Hnd.
  { cbn. repeat (constructor; [set_solver|]). constructor. }
  split; [exact Hnd|].
  exact (map_parents_edges Examples.call_before {[1%nat := 0%nat]} Hnd).
Defined.

(** ** write_diff *)

Section WriteDiffProperties.

Variables start_col start_offset end_col end_offset : Node -> nat.
Variable file_role : Z.
Variable role_numbers : gset Z.

#[local] Abbreviation write_change_ :=
  (write_change start_col start_offset end_col end_offset file_role role_numbers).
#[local] Abbreviation write_diff_ :=
  (write_diff start_col start_offset end_col end_offset file_role role_numbers).
#[local] Abbreviation entry_of_ :=
  (entry_of start_col start_offset end_col end_offset).
#[local] Abbreviation roles_known_ := (roles_known role_numbers).

Lemma role_names_known (node : Node) :
  Forall (fun n => n ∈ role_numbers) (roles node) ->
  role_names role_numbers node = Ok tt.
Proof. intros Hknown. unfold role_names. by rewrite bool_decide_eq_true_2. Qed.

Lemma role_names_unknown (node : Node) :
  ~ Forall (fun n => n ∈ role_numbers) (roles node) ->
  role_names role_numbers node = Raise KeyError.
Proof. intros Hunknown. unfold role_names. by rewrite bool_decide_eq_false_2. Qed.

(** A change of [treediff] gets its entry, is skipped, or raises KeyError
    when it is skipped with a warning that names a role the descriptor does
    not have; nothing else is raised. *)
Lemma write_change_treediff (c : change) :
  treediff_change c ->
  write_change_ c
  = if decide (written file_role c) then Ok (entry_of_ c)
    else if decide (warned file_role c /\ ~ roles_known_ c) then Raise KeyError
    else Ok None.
Proof.
  assert (forall action node rest,
            (action = "add"%string \/ action = "delete"%string
             \/ exists after, rest = [after]) ->
            (action = "add"%string \/ action = "delete"%string -> rest = []) ->
            write_change_ (action, node :: rest)
            = if decide (written file_role (action, node :: rest))
              then Ok (entry_of_ (action, node :: rest))
              else if decide (warned file_role (action, node :: rest)
                              /\ ~ roles_known_ (action, node :: rest))
                   then Raise KeyError
                   else Ok None) as Hgen.
  { intros action node rest Hshape Hone.
    unfold write_change, written, warned, roles_known. cbn [fst snd].
    destruct (decide (file_role ∈ roles node)) as [Hfile|Hfile].
    { rewrite bool_decide_eq_true_2 by done.
      rewrite decide_False by (by intros [? _]).
      by rewrite decide_False by (by intros [[? _] _]). }
    rewrite bool_decide_eq_false_2 by done.
    destruct (start_line node =? 0)%nat eqn:Hline.
    { apply Nat.eqb_eq in Hline. rewrite decide_False by (by intros [_ ?]).
      destruct (decide (Forall (fun n => n ∈ role_numbers) (roles node)))
        as [Hknown|Hunknown].
      - rewrite (role_names_known node Hknown). cbn [mbind res_bind].
        by rewrite decide_False by (by intros [_ ?]).
      - rewrite (role_names_unknown node Hunknown). cbn [mbind res_bind].
        by rewrite decide_True by done. }
    apply Nat.eqb_neq in Hline. rewrite decide_True by done.
    destruct Hshape as [->|[->|[after ->]]].
    - by rewrite (Hone (or_introl eq_refl)).
    - by rewrite (Hone (or_intror eq_refl)).
    - destruct (String.eqb action "add" || String.eqb action "delete") eqn:Hact;
        [|done].
      apply orb_true_iff in Hact as [Hact|Hact]; apply String.eqb_eq in Hact;
        [specialize (Hone (or_introl Hact))|specialize (Hone (or_intror Hact))];
        discriminate. }
  destruct c as [action [|node [|after [|x rest]]]]; cbn [treediff_change]; try done.
  - intros Haction. apply Hgen; [tauto|done].
  - intros ->. apply Hgen; [right; right; by eexists|].
    intros [?|?]; discriminate.
Qed.

Lemma entry_of_treediff (c : change) :
  treediff_change c -> is_Some (entry_of_ c).
Proof.
  destruct c as [action [|node [|after [|x rest]]]]; cbn; try done; by eexists.
Qed.

Lemma write_script_fold (diff : list change) (script : list script_entry) :
  Forall treediff_change diff ->
  foldM (fun script c => e ← write_change_ c; Ok (script ++ option_list e))
        diff script
  = if decide (Forall (fun c => warned file_role c -> roles_known_ c) diff)
    then Ok (script ++ omap entry_of_ (filter (written file_role) diff))
    else Raise KeyError.
Proof.
  intros Hdiff. revert script.
  induction Hdiff as [|c diff Hc _ IH]; intros script.
  - cbn. rewrite decide_True by constructor. by rewrite app_nil_r.
  - cbn [foldM]. rewrite (write_change_treediff c Hc).
    destruct (decide (written file_role c)) as [Hw|Hw].
    + cbn [mbind res_bind]. rewrite IH, filter_cons_True by done.
      assert (warned file_role c -> roles_known_ c) as Hok.
      { unfold written, warned in *. destruct c.2; [done|].
        intros [_ ?]. by destruct Hw as [_ ?]. }
      destruct (decide (Forall _ diff)) as [Hall|Hall].
      * rewrite decide_True by (by constructor).
        destruct (entry_of_treediff c Hc) as [e He]. cbn [omap list_omap].
        rewrite He. cbn [option_list]. by rewrite <- app_assoc.
      * rewrite decide_False; [done|]. by intros [_ ?]%Forall_cons.
    + destruct (decide (warned file_role c /\ ~ roles_known_ c)) as [[Hwarn Hbad]|Hgood].
      * cbn [mbind res_bind]. rewrite decide_False; [done|].
        intros [Hok _]%Forall_cons. by apply Hbad, Hok.
      * cbn [mbind res_bind option_list]. rewrite app_nil_r, IH.
        rewrite filter_cons_False by done.
        assert (warned file_role c -> roles_known_ c) as Hok.
        { intros Hwarn. destruct (decide (roles_known_ c)) as [?|Hno]; [done|].
          destruct Hgood. by split. }
        destruct (decide (Forall _ diff)) as [Hall|Hall].
        -- by rewrite decide_True by (by constructor).
        -- rewrite decide_False; [done|]. by intros [_ ?]%Forall_cons.
Qed.


End WriteDiffProperties.


(** ** treediff: the nodes of the script *)

Lemma getitem_elem {A} (l : list A) (i : Z) (x : A) :
  getitem l i = Ok x -> x ∈ l.
Proof.
  unfold getitem. cbn zeta.
  destruct ((0 <=? _) && (_ <? _)); [|done].
  destruct (l !! _) as [y|] eqn:Hy; [|done].
  intros [= <-]. by eapply list_elem_of_lookup_2.
Qed.

Lemma compile_script_within thr nseeds d row_ind sm1 sm2 seq1 seq2 script :
  compile_script thr nseeds d row_ind sm1 sm2 seq1 seq2 = Ok script ->
  Forall (op_within seq1 seq2) script.
Proof.
  unfold compile_script.
  destruct (deleted_set _ _ _ _ _) as [deleted|]; [|done]. cbn [mbind res_bind].
  destruct (exact_set _ _ _ _ _) as [exact|]; [|done]. cbn [mbind res_bind].
  destruct (mapM _ (elements deleted)) as [deletes|] eqn:Hd; [|done].
  cbn [mbind res_bind].
  destruct (mapM _ (elements (added_set _ _ _))) as [adds|] eqn:Ha; [|done].
  cbn [mbind res_bind].
  destruct (mapM _ (elements (modify_set _ _ _ _))) as [modifies|] eqn:Hm; [|done].
  cbn [mbind res_bind]. intros [= <-].
  apply Forall_app. split; [|apply Forall_app; split].
  - eapply mapM_res_Forall; [|exact Hd]. intros [i j] o.
    destruct (getitem seq1 (Z.of_nat i)) as [k|] eqn:Hk; [|done].
    cbn [mbind res_bind]. intros [= <-]. by apply getitem_elem in Hk.
  - eapply mapM_res_Forall; [|exact Ha]. intros j o. cbn beta.
    destruct (getitem seq2 (Z.of_nat j - Z.of_nat (length seq1))) as [k|] eqn:Hk;
      [|done].
    cbn [mbind res_bind]. intros [= <-]. by apply getitem_elem in Hk.
  - eapply mapM_res_Forall; [|exact Hm]. intros [i j] o.
    destruct (getitem seq1 (Z.of_nat i)) as [k1|] eqn:Hk1; [|done].
    cbn [mbind res_bind].
    destruct (getitem seq2 (Z.of_nat j - Z.of_nat (length seq1))) as [k2|] eqn:Hk2;
      [|done].
    cbn [mbind res_bind]. intros [= <-].
    split; [by apply getitem_elem in Hk1|by apply getitem_elem in Hk2].
Qed.

Lemma accumulate_last_maps nseeds st map1 map2 st' :
  accumulate nseeds st map1 map2 = Ok st' -> last_maps st' = Some (map1, map2).
Proof.
  unfold accumulate. cbn zeta.
  destruct (foldM _ (enumerate map1) _) as [[sm1 d]|]; [|done].
  cbn [mbind res_bind]. by intros [= <-].
Qed.

Lemma hash_node_keys_white_list `{Externals} node seed white_list g h mapping g' :
  hash_node node seed [] white_list g = Ok (h, mapping, g') ->
  forall k, k ∈ mapping.*1 -> k ∈ white_list.
Proof.
  intros Hnode k Hk.
  apply (hash_node_keys_of white_list seed node _ _ _ _ _ Hnode) in Hk
    as [Hk|(n & _ & [Hin _] & <-)]; [|done].
  by apply elem_of_nil in Hk.
Qed.

Lemma hash_round_maps `{Externals} uast1 uast2 white_list1 white_list2 nseeds
    st g seed st' g' :
  hash_round uast1 uast2 white_list1 white_list2 nseeds (st, g) seed = Ok (st', g') ->
  maps_in_white_lists white_list1 white_list2 st'.
Proof.
  unfold hash_round. cbn [fst snd].
  destruct (hash_node uast1 seed [] white_list1 g) as [[[h1 map1] g1]|] eqn:H1;
    [|done].
  cbn [mbind res_bind].
  destruct (hash_node uast2 seed [] white_list2 g1) as [[[h2 map2] g2]|] eqn:H2;
    [|done].
  cbn [mbind res_bind].
  destruct (accumulate nseeds st map1 map2) as [st1|] eqn:Hacc; [|done].
  cbn [mbind res_bind]. intros [= <- <-] m1 m2 Hlast.
  rewrite (accumulate_last_maps _ _ _ _ _ Hacc) in Hlast. injection Hlast as <- <-.
  split; [by eapply hash_node_keys_white_list|by eapply hash_node_keys_white_list].
Qed.

Lemma hash_rounds_maps `{Externals} uast1 uast2 white_list1 white_list2 nseeds
    (seeds : list Z) st g st' g' :
  maps_in_white_lists white_list1 white_list2 st ->
  foldM (hash_round uast1 uast2 white_list1 white_list2 nseeds) seeds (st, g)
  = Ok (st', g') ->
  maps_in_white_lists white_list1 white_list2 st'.
Proof.
  revert st g. induction seeds as [|seed seeds IH]; intros st g Hst; cbn [foldM].
  - by intros [= <- <-].
  - destruct (hash_round _ _ _ _ _ (st, g) seed) as [[st1 g1]|] eqn:Hround; [|done].
    cbn [mbind res_bind]. apply IH. by eapply hash_round_maps.
Qed.

(** X17: whenever [treediff] returns a script, every node of the script is a
    node of a changed line: the node of a [delete] and the first node of a
    [modify] are in the white list of the old version, the node of an [add]
    and the second node of a [modify] in the white list of the new version. *)
Theorem treediff_script_in_white_lists `{Externals} (src1 : string) (uast1 : Node)
    (src2 : string) (uast2 : Node) (nseeds : Z) (g g' : rng)
    (white_list1 white_list2 : gset nat) (script : list op) :
  white_lists src1 uast1 src2 uast2 = Ok (white_list1, white_list2) ->
  treediff src1 uast1 src2 uast2 nseeds g = Ok (script, g') ->
  Forall (op_in_white_lists white_list1 white_list2) script.
Proof.
  intros Hwl. unfold treediff. rewrite Hwl. cbn [mbind res_bind].
  destruct (size white_list1 =? 0)%nat.
  { intros [= <- <-]. apply Forall_fmap, Forall_forall. intros k Hk.
    cbn. by apply elem_of_elements in Hk. }
  destruct (size white_list2 =? 0)%nat.
  { intros [= <- <-]. apply Forall_fmap, Forall_forall. intros k Hk.
    cbn. by apply elem_of_elements in Hk. }
  unfold match_nodes, hash_rounds.
  destruct (foldM _ (py_range 0 nseeds) (rounds_init, g)) as [[st g1]|] eqn:Hrounds;
    [|done].
  cbn [mbind res_bind].
  assert (maps_in_white_lists white_list1 white_list2 st) as Hmaps.
  { eapply hash_rounds_maps; [|exact Hrounds]. by intros m1 m2 Hnone. }
  destruct (last_maps st) as [[map1 map2]|] eqn:Hlast; [|done].
  destruct (dists st) as [d|]; [|done].
  destruct (compile_script _ _ _ _ _ _ _ _) as [diff|] eqn:Hscript; [|done].
  cbn [mbind res_bind]. intros [= <- <-].
  destruct (Hmaps map1 map2 Hlast) as [Hk1 Hk2].
  eapply Forall_impl; [exact (compile_script_within _ _ _ _ _ _ _ _ _ Hscript)|].
  intros [k|k|k1 k2]; cbn; [apply Hk2|apply Hk1|].
  intros [? ?]. split; [by apply Hk1|by apply Hk2].
Qed.

Lemma treediff_script_in_white_lists_witness :
  exists script g',
    white_lists (H := Reference.externals) Examples.call_src_before
                Examples.call_before Examples.call_src_after Examples.call_after
    = Ok (Examples.call_white_list1, Examples.call_white_list2)
    /\ treediff (H := Reference.externals) Examples.call_src_before
                Examples.call_before Examples.call_src_after Examples.call_after
                10 (0 : Z)
       = Ok (script, g')
    /\ Forall (op_in_white_lists Examples.call_white_list1
                                 Examples.call_white_list2) script.
Proof.
  eexists _, _. split; [exact call_white_lists|].
  split; [vm_compute; reflexivity|].
  eapply (treediff_script_in_white_lists (H := Reference.externals)
            Examples.call_src_before Examples.call_before
            Examples.call_src_after Examples.call_after 10 (0 : Z));
    [exact call_white_lists|vm_compute; reflexivity].
Defined.

(** ** treediff: no node is reported twice *)

Lemma dict_set_NoDup (d : dict) (k : nat) (v : bytes) :
  NoDup d.*1 -> NoDup (dict_set d k v).*1.
Proof.
  induction d as [|[k' v'] d IH]; cbn [dict_set fmap list_fmap fst].
  - intros _. apply NoDup_singleton.
  - intros [Hk' Hd]%NoDup_cons. destruct (k' =? k)%nat eqn:Hk.
    + apply Nat.eqb_eq in Hk as ->. cbn [fmap list_fmap fst].
      by apply NoDup_cons.
    + apply Nat.eqb_neq in Hk. cbn [fmap list_fmap fst]. apply NoDup_cons.
      split; [|by apply IH]. intros [->|Hin]%dict_set_keys; done.
Qed.

Lemma hash_children_NoDup `{Externals} (white_list : gset nat) (seed : Z)
    (cs : list Node) :
  Forall (fun c =>
            forall mapping g h mapping' g',
              hash_node c seed mapping white_list g = Ok (h, mapping', g') ->
              NoDup mapping.*1 -> NoDup mapping'.*1) cs ->
  forall mapping g hs mapping' g',
    hash_children cs seed mapping white_list g = Ok (hs, mapping', g') ->
    NoDup mapping.*1 -> NoDup mapping'.*1.
Proof.
  induction 1 as [|c cs Hc _ IH]; intros mapping g hs mapping' g' Hch Hnd.
  - by injection Hch as <- <- <-.
  - rewrite hash_children_cons in Hch.
    destruct (hash_node c seed mapping white_list g) as [[[h m1] g1]|] eqn:Hnode;
      [|done].
    cbn [mbind res_bind] in Hch.
    destruct (hash_children cs seed m1 white_list g1) as [[[hs' m2] g2]|] eqn:Hrest;
      [|done].
    cbn [mbind res_bind] in Hch. injection Hch as <- <- <-.
    eapply IH; [exact Hrest|]. by eapply Hc.
Qed.

(** [hash_node] keeps the keys of the mapping distinct. *)
Lemma hash_node_NoDup `{Externals} (white_list : gset nat) (seed : Z)
    (node : Node) :
  forall mapping g h mapping' g',
    hash_node node seed mapping white_list g = Ok (h, mapping', g') ->
    NoDup mapping.*1 -> NoDup mapping'.*1.
Proof.
  induction node as [i t r s e cs IH] using Node_ind.
  intros mapping g h mapping' g' Hnode Hnd.
  destruct cs as [|c cs].
  - rewrite hash_node_leaf in Hnode. cbn zeta in Hnode.
    injection Hnode as <- <- <-.
    destruct (0 <? _); [by apply dict_set_NoDup|done].
  - rewrite hash_node_inner in Hnode.
    destruct (hash_children (c :: cs) seed mapping white_list g)
      as [[[hs m1] g1]|] eqn:Hch; [|done].
    cbn [mbind res_bind] in Hnode.
    pose proof (hash_children_NoDup white_list seed (c :: cs) IH _ _ _ _ _ Hch Hnd)
      as Hnd1.
    apply hash_inner_result in Hnode.
    destruct (bool_decide _); destruct Hnode as [-> _];
      [by apply dict_set_NoDup|done].
Qed.

(** The mappings that the rounds leave come from two calls of [hash_node] on
    empty dictionaries. *)
Lemma hash_rounds_last_maps `{Externals} uast1 uast2 white_list1 white_list2 nseeds
    (seeds : list Z) st g st' g' map1 map2 :
  foldM (hash_round uast1 uast2 white_list1 white_list2 nseeds) seeds (st, g)
  = Ok (st', g') ->
  last_maps st' = Some (map1, map2) ->
  last_maps st = Some (map1, map2)
  \/ exists seed g1 h1 g2 h2 g3,
       hash_node uast1 seed [] white_list1 g1 = Ok (h1, map1, g2)
       /\ hash_node uast2 seed [] white_list2 g2 = Ok (h2, map2, g3).
Proof.
  revert st g. induction seeds as [|seed seeds IH]; intros st g; cbn [foldM].
  - intros [= <- <-] Hlast. by left.
  - destruct (hash_round _ _ _ _ _ (st, g) seed) as [[st1 g1]|] eqn:Hround; [|done].
    cbn [mbind res_bind]. intros Hfold Hlast.
    destruct (IH _ _ Hfold Hlast) as [Hlast1|Hcalls]; [|by right].
    right. unfold hash_round in Hround. cbn [fst snd] in Hround.
    destruct (hash_node uast1 seed [] white_list1 g) as [[[h1 m1] g2]|] eqn:H1;
      [|done].
    cbn [mbind res_bind] in Hround.
    destruct (hash_node uast2 seed [] white_list2 g2) as [[[h2 m2] g3]|] eqn:H2;
      [|done].
    cbn [mbind res_bind] in Hround.
    destruct (accumulate nseeds st m1 m2) as [st2|] eqn:Hacc; [|done].
    cbn [mbind res_bind] in Hround. injection Hround as <- <-.
    rewrite (accumulate_last_maps _ _ _ _ _ Hacc) in Hlast1.
    injection Hlast1 as <- <-. by exists seed, g, h1, g2, h2, g3.
Qed.

Lemma elem_of_zip_seq {A} (l : list A) (k i : nat) (x : A) :
  (i, x) ∈ zip (seq k (length l)) l <-> (k <= i)%nat /\ l !! (i - k)%nat = Some x.
Proof.
  revert k. induction l as [|y l IH]; intros k; cbn [length seq zip zip_with].
  - split; [by intros ?%elem_of_nil|by intros [_ ?]].
  - rewrite elem_of_cons, IH. split.
    + intros [[= -> ->]|[Hk Hx]].
      * split; [lia|]. by rewrite Nat.sub_diag.
      * split; [lia|]. by replace (i - k)%nat with (S (i - S k)) by lia.
    + intros [Hk Hx]. destruct (decide (i = k)) as [->|Hne].
      * left. rewrite Nat.sub_diag in Hx. by injection Hx as ->.
      * right. split; [lia|].
        by replace (i - k)%nat with (S (i - S k)) in Hx by lia.
Qed.

Lemma elem_of_enumerate {A} (l : list A) (i : nat) (x : A) :
  (i, x) ∈ enumerate l <-> l !! i = Some x.
Proof.
  unfold enumerate. rewrite elem_of_zip_seq, Nat.sub_0_r. split; [by intros [_ ?]|].
  intros ?. split; [lia|done].
Qed.

(** An element that a comprehension leaves out failed the test. *)
Lemma filterM_left_out {A} (test : A -> res bool) (l l' : list A) (x : A) :
  filterM test l = Ok l' -> x ∈ l -> x ∉ l' -> test x = Ok false.
Proof.
  revert l'. induction l as [|y l IH]; intros l'; cbn [filterM].
  - by intros _ ?%elem_of_nil.
  - destruct (test y) as [keep|] eqn:Hy; [|done]. cbn [mbind res_bind].
    destruct (filterM test l) as [rest|]; [|done]. cbn [mbind res_bind].
    intros [= <-] [->|Hx]%elem_of_cons Hout.
    + destruct keep; [|done]. destruct Hout. by left.
    + apply (IH rest); [done|done|]. destruct keep; set_solver.
Qed.

Lemma mapM_res_defined {A B} (f : A -> res B) (l : list A) (l' : list B) :
  mapM f l = Ok l' -> forall x, x ∈ l -> exists y, f x = Ok y.
Proof.
  revert l'. induction l as [|z l IH]; intros l'; cbn [mapM].
  - by intros _ x ?%elem_of_nil.
  - destruct (f z) as [y|] eqn:Hz; cbn [mbind res_bind]; [|done].
    destruct (mapM f l) as [k|]; cbn [mbind res_bind]; [|done].
    intros _ x [->|Hx]%elem_of_cons; [by exists y|by apply (IH k)].
Qed.

Lemma mapM_res_Forall_elem {A B} (f : A -> res B) (Q : B -> Prop)
    (l : list A) (l' : list B) :
  mapM f l = Ok l' ->
  (forall x y, x ∈ l -> f x = Ok y -> Q y) ->
  Forall Q l'.
Proof.
  revert l'. induction l as [|z l IH]; intros l'; cbn [mapM].
  - intros [= <-] _. constructor.
  - destruct (f z) as [y|] eqn:Hz; cbn [mbind res_bind]; [|done].
    destruct (mapM f l) as [k|]; cbn [mbind res_bind]; [|done].
    intros [= <-] Hq. constructor; [apply (Hq z); [by left|done]|].
    apply IH; [done|]. intros x y' Hx. apply Hq. by right.
Qed.

Lemma mapM_bind_keys {A B C} (f : A -> res B) (g : B -> list C) (key : A -> C)
    (l : list A) (l' : list B) :
  mapM f l = Ok l' ->
  (forall x y, x ∈ l -> f x = Ok y -> g y = [key x]) ->
  l' ≫= g = key <$> l.
Proof.
  revert l'. induction l as [|z l IH]; intros l'; cbn [mapM].
  - by intros [= <-].
  - destruct (f z) as [y|] eqn:Hz; cbn [mbind res_bind]; [|done].
    destruct (mapM f l) as [k|]; cbn [mbind res_bind]; [|done].
    intros [= <-] Hg. rewrite bind_cons, fmap_cons.
    rewrite (Hg z y) by (done || by left). cbn [app]. f_equal.
    apply IH; [done|]. intros x y' Hx. apply Hg. by right.
Qed.

Lemma mapM_bind_nil {A B C} (f : A -> res B) (g : B -> list C)
    (l : list A) (l' : list B) :
  mapM f l = Ok l' ->
  (forall x y, f x = Ok y -> g y = []) ->
  l' ≫= g = [].
Proof.
  intros Hl Hg.
  assert (Forall (fun y => g y = []) l') as Hall
    by (eapply mapM_res_Forall; [exact Hg|exact Hl]).
  clear Hl. induction Hall as [|y l'' Hy _ IH]; [done|].
  by rewrite bind_cons, Hy, IH.
Qed.

Lemma getitem_lookup {A} `{Inhabited A} (l : list A) (i : nat) (x : A) :
  getitem l (Z.of_nat i) = Ok x -> (i < length l)%nat /\ l !!! i = x.
Proof.
  rewrite getitem_nat. destruct (l !! i) as [y|] eqn:Hy; [|done].
  intros [= <-]. split; [by eapply lookup_lt_Some|].
  by apply list_lookup_total_correct.
Qed.

Lemma NoDup_lookup_total (l : list nat) (i j : nat) :
  NoDup l -> (i < length l)%nat -> (j < length l)%nat ->
  l !!! i = l !!! j -> i = j.
Proof.
  intros Hnd Hi Hj Heq.
  destruct (lookup_lt_is_Some_2 l i Hi) as [x Hx].
  destruct (lookup_lt_is_Some_2 l j Hj) as [y Hy].
  rewrite (list_lookup_total_correct _ _ _ Hx),
    (list_lookup_total_correct _ _ _ Hy) in Heq. subst y.
  by eapply NoDup_lookup.
Qed.

(** The script compiler on two lists of distinct nodes. *)
Lemma compile_script_no_repeat thr nseeds d row_ind sm1 sm2 seq1 seq2 script :
  NoDup seq1 -> NoDup seq2 ->
  compile_script thr nseeds d row_ind sm1 sm2 seq1 seq2 = Ok script ->
  NoDup (script ≫= op_before)
  /\ NoDup (script ≫= op_added)
  /\ forall k, k ∈ script ≫= op_added -> k ∉ script ≫= op_modified_to.
Proof.
  intros Hnd1 Hnd2. unfold compile_script. cbn zeta.
  set (n1 := length seq1).
  destruct (deleted_set _ _ _ _ _) as [deleted|] eqn:Hdel; [|done].
  cbn [mbind res_bind].
  destruct (exact_set _ _ _ _ _) as [exact|] eqn:Hex; [|done].
  cbn [mbind res_bind].
  destruct (mapM _ (elements deleted)) as [deletes|] eqn:Hd; [|done].
  cbn [mbind res_bind].
  destruct (mapM _ (elements (added_set _ _ _))) as [adds|] eqn:Ha; [|done].
  cbn [mbind res_bind].
  destruct (mapM _ (elements (modify_set _ _ _ _))) as [modifies|] eqn:Hm; [|done].
  cbn [mbind res_bind]. intros [= <-].
  set (pairs := list_to_set (assignment n1 row_ind) : gset (nat * nat)).
  (* the pairs of the assignment *)
  assert (forall i j, (i, j) ∈ pairs ->
            (i < n1)%nat /\ take n1 row_ind !! i = Some j) as Hpairs.
  { intros i j Hij. unfold pairs, assignment in Hij.
    apply elem_of_list_to_set, elem_of_enumerate in Hij. split; [|done].
    apply lookup_lt_Some in Hij. rewrite length_take in Hij. lia. }
  assert (deleted ⊆ pairs) as Hsub.
  { unfold deleted_set in Hdel.
    destruct (filterM _ _) as [l|] eqn:Hl; [|done]. injection Hdel as <-.
    intros x Hx%elem_of_list_to_set. apply elem_of_list_to_set.
    by eapply filterM_elem_of. }
  assert (forall i j, (i, j) ∈ pairs -> (i, j) ∉ deleted -> (n1 <= j)%nat) as Hkept.
  { intros i j Hij Hout. unfold deleted_set in Hdel.
    destruct (filterM _ _) as [l|] eqn:Hl; [|done]. injection Hdel as <-.
    assert (deleted_test thr nseeds d n1 (i, j) = Ok false) as Htest.
    { eapply filterM_left_out; [exact Hl| |].
      - by apply elem_of_list_to_set in Hij.
      - intros Hin. apply Hout. by apply elem_of_list_to_set. }
    unfold deleted_test in Htest. cbn [fst snd] in Htest.
    destruct (j <? n1)%nat eqn:Hj; [done|]. by apply Nat.ltb_ge in Hj. }
  assert (modify_set n1 row_ind deleted exact ⊆ pairs ∖ deleted) as Hmod.
  { unfold modify_set. fold pairs. set_solver. }
  (* what the three loops append *)
  set (key1 := fun p : nat * nat => seq1 !!! p.1).
  set (key2 := fun j : nat => seq2 !!! (j - n1)%nat).
  assert (forall j k, (n1 <= j)%nat ->
            getitem seq2 (Z.of_nat j - Z.of_nat n1) = Ok k ->
            (j - n1 < length seq2)%nat /\ key2 j = k) as Hget2.
  { intros j k Hj Hk. replace (Z.of_nat j - Z.of_nat n1) with (Z.of_nat (j - n1)) in Hk
      by lia. by apply getitem_lookup in Hk. }
  assert (forall j, j ∈ added_set n1 row_ind deleted ->
            (n1 <= j)%nat /\ j ∉ (set_map snd (pairs ∖ deleted) : gset nat))
    as Hadded.
  { intros j Hj. unfold added_set in Hj. cbn zeta in Hj. fold pairs in Hj.
    apply elem_of_difference in Hj as [Hj Hout]. split; [|done].
    apply elem_of_list_to_set, elem_of_seq in Hj. lia. }
  assert (deletes ≫= op_before = key1 <$> elements deleted) as Hd1.
  { eapply mapM_bind_keys; [exact Hd|]. intros [i j] o _.
    destruct (getitem seq1 (Z.of_nat i)) as [k|] eqn:Hk; [|done].
    cbn [mbind res_bind]. intros [= <-]. apply getitem_lookup in Hk as [_ <-]. done. }
  assert (modifies ≫= op_before
          = key1 <$> elements (modify_set n1 row_ind deleted exact)) as Hm1.
  { eapply mapM_bind_keys; [exact Hm|]. intros [i j] o _.
    destruct (getitem seq1 (Z.of_nat i)) as [k|] eqn:Hk; [|done].
    cbn [mbind res_bind].
    destruct (getitem seq2 (Z.of_nat j - Z.of_nat n1)) as [k2|]; [|done].
    cbn [mbind res_bind]. intros [= <-]. apply getitem_lookup in Hk as [_ <-]. done. }
  assert (adds ≫= op_before = []) as Ha1.
  { eapply mapM_bind_nil; [exact Ha|]. intros j o. cbn beta.
    destruct (getitem seq2 _) as [k|]; [|done]. cbn [mbind res_bind].
    by intros [= <-]. }
  assert (deletes ≫= op_added = []) as Hd2.
  { eapply mapM_bind_nil; [exact Hd|]. intros [i j] o.
    destruct (getitem seq1 _) as [k|]; [|done]. cbn [mbind res_bind].
    by intros [= <-]. }
  assert (modifies ≫= op_added = []) as Hm2.
  { eapply mapM_bind_nil; [exact Hm|]. intros [i j] o.
    destruct (getitem seq1 _) as [k|]; [|done]. cbn [mbind res_bind].
    destruct (getitem seq2 _) as [k2|]; [|done]. cbn [mbind res_bind].
    by intros [= <-]. }
  assert (adds ≫= op_added = key2 <$> elements (added_set n1 row_ind deleted))
    as Ha2.
  { eapply mapM_bind_keys; [exact Ha|]. intros j o Hj. cbn beta.
    apply elem_of_elements, Hadded in Hj as [Hj _].
    destruct (getitem seq2 (Z.of_nat j - Z.of_nat n1)) as [k|] eqn:Hk;
      [|done].
    cbn [mbind res_bind]. intros [= <-]. apply (Hget2 j k Hj) in Hk as [_ <-]. done. }
  assert (deletes ≫= op_modified_to = []) as Hd3.
  { eapply mapM_bind_nil; [exact Hd|]. intros [i j] o.
    destruct (getitem seq1 _) as [k|]; [|done]. cbn [mbind res_bind].
    by intros [= <-]. }
  assert (adds ≫= op_modified_to = []) as Ha3.
  { eapply mapM_bind_nil; [exact Ha|]. intros j o. cbn beta.
    destruct (getitem seq2 _) as [k|]; [|done]. cbn [mbind res_bind].
    by intros [= <-]. }
  assert (forall j, j ∈ added_set n1 row_ind deleted -> (j - n1 < length seq2)%nat)
    as Hin2.
  { intros j Hj. destruct (Hadded j Hj) as [Hge _].
    destruct (mapM_res_defined _ _ _ Ha j) as [o Ho]; [by apply elem_of_elements|].
    cbn beta in Ho.
    destruct (getitem seq2 (Z.of_nat j - Z.of_nat n1)) as [k|] eqn:Hk;
      [|done].
    by apply (Hget2 j k Hge) in Hk as [? _]. }
  rewrite !bind_app, Hd1, Ha1, Hm1, Hd2, Ha2, Hm2, Hd3, Ha3.
  cbn [app]. rewrite app_nil_r, <- fmap_app. split; [|split].
  - apply NoDup_fmap_2_strong.
    + intros [i j] [i' j'] Hx Hy Hkey.
      assert ((i, j) ∈ pairs) as Hp.
      { apply elem_of_app in Hx as [Hx|Hx]; apply elem_of_elements in Hx;
          [by apply Hsub|]. apply Hmod in Hx. set_solver. }
      assert ((i', j') ∈ pairs) as Hp'.
      { apply elem_of_app in Hy as [Hy|Hy]; apply elem_of_elements in Hy;
          [by apply Hsub|]. apply Hmod in Hy. set_solver. }
      destruct (Hpairs i j Hp) as [Hi Hj]. destruct (Hpairs i' j' Hp') as [Hi' Hj'].
      unfold key1 in Hkey. cbn [fst] in Hkey.
      assert (i = i') as <- by (by apply (NoDup_lookup_total seq1)).
      congruence.
    + apply NoDup_app. split; [apply NoDup_elements|]. split; [|apply NoDup_elements].
      intros x Hx%elem_of_elements Hy%elem_of_elements. apply Hmod in Hy. set_solver.
  - apply NoDup_fmap_2_strong; [|apply NoDup_elements].
    intros j j' Hj%elem_of_elements Hj'%elem_of_elements Hkey.
    destruct (Hadded j Hj) as [Hge _]. destruct (Hadded j' Hj') as [Hge' _].
    pose proof (Hin2 j Hj). pose proof (Hin2 j' Hj').
    assert ((j - n1)%nat = (j' - n1)%nat) by (by apply (NoDup_lookup_total seq2)).
    lia.
  - intros k (j & -> & Hj%elem_of_elements)%list_elem_of_fmap Hk.
    apply list_elem_of_bind in Hk as (o & Hk & Ho).
    assert (Forall (fun o => forall k, k ∈ op_modified_to o ->
                      exists i j', (i, j') ∈ modify_set n1 row_ind deleted exact
                                   /\ (j' - n1 < length seq2)%nat
                                   /\ key2 j' = k) modifies) as Hall.
    { eapply mapM_res_Forall_elem; [exact Hm|]. intros [i j'] o' Hin.
      apply elem_of_elements in Hin.
      destruct (getitem seq1 (Z.of_nat i)) as [k1|]; [|done].
      cbn [mbind res_bind].
      destruct (getitem seq2 (Z.of_nat j' - Z.of_nat n1)) as [k2|] eqn:Hk2; [|done].
      cbn [mbind res_bind]. intros [= <-] k' ->%list_elem_of_singleton.
      exists i, j'. split; [done|]. apply (Hget2 j' k2); [|done].
      apply Hmod in Hin. apply (Hkept i j'); set_solver. }
    destruct (proj1 (Forall_forall _ _) Hall o Ho _ Hk) as (i & j' & Hij & Hlt & Hkey).
    destruct (Hadded j Hj) as [Hge Hout]. pose proof (Hin2 j Hj) as Hlt2.
    apply Hmod in Hij.
    assert ((n1 <= j')%nat) as Hge' by (apply (Hkept i j'); set_solver).
    assert ((j' - n1)%nat = (j - n1)%nat) by (by apply (NoDup_lookup_total seq2)).
    assert (j' = j) as -> by lia.
    apply Hout. apply elem_of_map. by exists (i, j).
Qed.

(** X18: in a script that [treediff] returns no node of the old version is
    reported twice (by two operations, be they [delete] or [modify]), no node
    is added twice, and an added node is never also the new state of a
    modified node, whatever assignment the solver returns. *)
Theorem treediff_script_no_repeat `{Externals} (src1 : string) (uast1 : Node)
    (src2 : string) (uast2 : Node) (nseeds : Z) (g g' : rng) (script : list op) :
  treediff src1 uast1 src2 uast2 nseeds g = Ok (script, g') ->
  NoDup (script ≫= op_before)
  /\ NoDup (script ≫= op_added)
  /\ forall k, k ∈ script ≫= op_added -> k ∉ script ≫= op_modified_to.
Proof.
  unfold treediff.
  destruct (white_lists src1 uast1 src2 uast2) as [[white_list1 white_list2]|];
    [|done].
  cbn [mbind res_bind].
  assert (forall l : list nat,
            ((fun k => Add (dereference_idptr k)) <$> l) ≫= op_added = l
            /\ ((fun k => Add (dereference_idptr k)) <$> l) ≫= op_before = []
            /\ ((fun k => Add (dereference_idptr k)) <$> l) ≫= op_modified_to = [])
    as Hadds.
  { induction l as [|k l (IH1 & IH2 & IH3)]; [done|].
    rewrite fmap_cons, !bind_cons, IH1, IH2, IH3. done. }
  assert (forall l : list nat,
            ((fun k => Delete (dereference_idptr k)) <$> l) ≫= op_before = l
            /\ ((fun k => Delete (dereference_idptr k)) <$> l) ≫= op_added = []
            /\ ((fun k => Delete (dereference_idptr k)) <$> l) ≫= op_modified_to = [])
    as Hdeletes.
  { induction l as [|k l (IH1 & IH2 & IH3)]; [done|].
    rewrite fmap_cons, !bind_cons, IH1, IH2, IH3. done. }
  destruct (size white_list1 =? 0)%nat.
  { intros [= <- <-]. destruct (Hadds (elements white_list2)) as (-> & -> & ->).
    split; [constructor|]. split; [apply NoDup_elements|].
    by intros k _ ?%elem_of_nil. }
  destruct (size white_list2 =? 0)%nat.
  { intros [= <- <-]. destruct (Hdeletes (elements white_list1)) as (-> & -> & ->).
    split; [apply NoDup_elements|]. split; [constructor|].
    by intros k ?%elem_of_nil. }
  unfold match_nodes, hash_rounds.
  destruct (foldM _ (py_range 0 nseeds) (rounds_init, g)) as [[st g1]|] eqn:Hrounds;
    [|done].
  cbn [mbind res_bind].
  destruct (last_maps st) as [[map1 map2]|] eqn:Hlast; [|done].
  destruct (dists st) as [d|]; [|done].
  destruct (compile_script _ _ _ _ _ _ _ _) as [diff|] eqn:Hscript; [|done].
  cbn [mbind res_bind]. intros [= <- <-].
  destruct (hash_rounds_last_maps _ _ _ _ _ _ _ _ _ _ _ _ Hrounds Hlast)
    as [Hinit|(seed & g2 & h1 & g3 & h2 & g4 & H1 & H2)]; [done|].
  eapply compile_script_no_repeat; [| |exact Hscript].
  - eapply hash_node_NoDup; [exact H1|constructor].
  - eapply hash_node_NoDup; [exact H2|constructor].
Qed.

Lemma treediff_script_no_repeat_witness :
  exists script g',
    treediff (H := Reference.externals) Examples.call_src_before
             Examples.call_before Examples.call_src_after Examples.call_after
             10 (0 : Z)
    = Ok (script, g')
    /\ NoDup (script ≫= op_before)
    /\ NoDup (script ≫= op_added)
    /\ forall k, k ∈ script ≫= op_added -> k ∉ script ≫= op_modified_to.
Proof.
  eexists _, _. split; [vm_compute; reflexivity|].
  eapply (treediff_script_no_repeat (H := Reference.externals)
            Examples.call_src_before Examples.call_before
            Examples.call_src_after Examples.call_after 10 (0 : Z)).
  vm_compute. reflexivity.
Defined.
